(** * pinkmask: deterministic anonymisation and FK-closed subsetting of SQLite files

    A shallow embedding of the core of [github.com/dyne/pinkmask]:
    - [internal/transform]: the built-in transformers, [RowSeed], [Build];
    - [internal/schema]:    [TableOrder] (Kahn's algorithm over the FK graph);
    - [internal/subset]:    [PKSet], [BuildSelection], [expandSelection];
    - [internal/copy]:      [copyData], [copyTable], the sequential and the
                            order-preserving parallel row processors.

    Go strings are byte strings and are modelled by [string] (a list of
    8-bit [ascii]); [int] and [int64] are [Z] with the two's complement
    wrap-around written out; Go maps are [gmap]s, and wherever the source
    ranges over a map the iteration order is an explicit parameter. *)

From Stdlib Require Import ZArith List String Ascii Lia Bool Decimal DecimalString.
From Stdlib Require DecimalZ DecimalPos.
From stdpp Require Import base option list gmap strings sorting.

Open Scope Z_scope.

Set Warnings "-clear-no-such-hyp".

(** ** Errors

    Every fallible Go function returns [(T, error)]; the model returns
    [result T], and a run-time panic is an error of its own kind. *)

Inductive result (A : Type) : Type :=
| Ok (a : A)
| Err (msg : string)
| Panic (msg : string).
Arguments Ok {A} a.
Arguments Err {A} msg.
Arguments Panic {A} msg.

Definition rbind {A B} (r : result A) (k : A -> result B) : result B :=
  match r with
  | Ok a => k a
  | Err e => Err e
  | Panic e => Panic e
  end.

Notation "'let*' x ':=' r 'in' k" := (rbind r (fun x => k))
  (at level 10, x pattern, r at level 100, k at level 200).

Definition is_Ok {A} (r : result A) : Prop :=
  match r with Ok _ => True | _ => False end.

(** ** Machine integers *)

Definition wrap64 (x : Z) : Z := (x + 2 ^ 63) mod 2 ^ 64 - 2 ^ 63.

Definition int64_range (x : Z) : Prop := - 2 ^ 63 <= x < 2 ^ 63.

Lemma wrap64_range x : int64_range (wrap64 x).
Proof.
  unfold wrap64, int64_range.
  pose proof (Z.mod_pos_bound (x + 2 ^ 63) (2 ^ 64) ltac:(lia)). lia.
Qed.

Lemma wrap64_id x : int64_range x -> wrap64 x = x.
Proof.
  unfold wrap64, int64_range. intros Hx.
  rewrite Z.mod_small by lia. lia.
Qed.

(** ** Byte strings *)

Definition byte_val (c : ascii) : Z := Z.of_N (N_of_ascii c).
Definition byte_of (x : Z) : ascii := ascii_of_N (Z.to_N (x mod 256)).

Lemma byte_val_range c : 0 <= byte_val c < 256.
Proof.
  unfold byte_val. pose proof (N_ascii_bounded c). lia.
Qed.

Fixpoint bytes_of (s : string) : list Z :=
  match s with
  | EmptyString => []
  | String c s' => byte_val c :: bytes_of s'
  end.

Fixpoint string_of_bytes (l : list Z) : string :=
  match l with
  | [] => EmptyString
  | b :: l' => String (byte_of b) (string_of_bytes l')
  end.

(** [s[:n]] for [0 <= n <= len(s)]; the callers guard the bound. *)
Fixpoint str_take (n : nat) (s : string) : string :=
  match n, s with
  | O, _ => EmptyString
  | S n', String c s' => String c (str_take n' s')
  | S _, EmptyString => EmptyString
  end.

Definition str_len (s : string) : Z := Z.of_nat (String.length s).

(** [strconv.FormatInt(x, 10)], the rendering of an integer by [%d] and
    by [fmt.Sprint]. *)
Definition FormatInt (x : Z) : string := NilZero.string_of_int (Z.to_int x).

(** [strings.Join]. *)
Fixpoint Join (parts : list string) (sep : string) : string :=
  match parts with
  | [] => EmptyString
  | [p] => p
  | p :: rest => p ++ sep ++ Join rest sep
  end.

(** [strings.ToLower] on the ASCII range: the letters [A-Z] are mapped to
    [a-z], every other byte is kept. This is what the Go function does to
    a string all of whose bytes are below 128; on other strings Go decodes
    UTF-8 and maps runes (the Kelvin sign to [k], for one), which is not
    modelled: what is stated of the lower-case form of an arbitrary name
    is stated for names of ASCII bytes, see [is_ascii]. *)
Definition lower_byte (c : ascii) : ascii :=
  let n := byte_val c in
  if (65 <=? n) && (n <=? 90) then byte_of (n + 32) else c.

Fixpoint ToLower (s : string) : string :=
  match s with
  | EmptyString => EmptyString
  | String c s' => String (lower_byte c) (ToLower s')
  end.

(** Every byte of the string is below 128. *)
Fixpoint is_ascii (s : string) : bool :=
  match s with
  | EmptyString => true
  | String c s' => (byte_val c <? 128) && is_ascii s'
  end.

(** ** The order of strings

    Go compares strings byte by byte; [sort.Strings] sorts by that order. *)

Fixpoint str_leb (a b : string) : bool :=
  match a, b with
  | EmptyString, _ => true
  | String _ _, EmptyString => false
  | String c a', String d b' =>
      if byte_val c <? byte_val d then true
      else if byte_val c =? byte_val d then str_leb a' b'
      else false
  end.

Definition str_le (a b : string) : Prop := str_leb a b = true.
Definition str_lt (a b : string) : Prop := str_leb b a = false.

#[export] Instance str_le_dec : RelDecision str_le.
Proof. intros a b. unfold str_le. apply _. Defined.

Definition sort_Strings (l : list string) : list string := merge_sort str_le l.

Lemma byte_val_eq c d : byte_val c = byte_val d -> c = d.
Proof.
  unfold byte_val. intros Hcd.
  rewrite <- (ascii_N_embedding c), <- (ascii_N_embedding d). f_equal. lia.
Qed.

#[export] Instance str_le_total : Total str_le.
Proof.
  unfold Total, str_le. intros a. induction a as [| c a IH]; intros [| d b]; simpl; auto.
  destruct (Z.ltb_spec (byte_val c) (byte_val d)); [auto |].
  destruct (Z.ltb_spec (byte_val d) (byte_val c)); [auto |].
  assert (Heq : byte_val c = byte_val d) by lia.
  rewrite Heq, Z.eqb_refl. apply IH.
Qed.

#[export] Instance str_le_trans : Transitive str_le.
Proof.
  unfold Transitive, str_le. intros a. induction a as [| c a IH]; intros [| d b] [| e z];
    simpl; auto; try discriminate.
  destruct (Z.ltb_spec (byte_val c) (byte_val d)) as [Hcd | Hcd];
    destruct (Z.ltb_spec (byte_val d) (byte_val e)) as [Hde | Hde];
    destruct (Z.ltb_spec (byte_val c) (byte_val e)) as [Hce | Hce]; auto; try lia.
  - destruct (Z.eqb_spec (byte_val d) (byte_val e)); [lia | discriminate].
  - destruct (Z.eqb_spec (byte_val c) (byte_val d)); [lia | discriminate].
  - destruct (Z.eqb_spec (byte_val c) (byte_val d)) as [Hcd' | ]; [| discriminate].
    destruct (Z.eqb_spec (byte_val d) (byte_val e)) as [Hde' | ]; [| discriminate].
    destruct (Z.eqb_spec (byte_val c) (byte_val e)); [apply IH | lia].
Qed.

#[export] Instance str_le_antisym : AntiSymm (=) str_le.
Proof.
  unfold AntiSymm, str_le. intros a. induction a as [| c a IH]; intros [| d b];
    simpl; auto; try discriminate.
  destruct (Z.ltb_spec (byte_val c) (byte_val d)) as [Hcd | Hcd];
    destruct (Z.ltb_spec (byte_val d) (byte_val c)) as [Hdc | Hdc]; try lia.
  - destruct (Z.eqb_spec (byte_val d) (byte_val c)); [lia | discriminate].
  - destruct (Z.eqb_spec (byte_val c) (byte_val d)); [lia | discriminate].
  - destruct (Z.eqb_spec (byte_val c) (byte_val d)) as [Hcd' | ]; [| discriminate].
    destruct (Z.eqb_spec (byte_val d) (byte_val c)); [| discriminate].
    intros Hab Hba. f_equal; [apply byte_val_eq; exact Hcd' | apply IH; assumption].
Qed.

Lemma sort_Strings_Sorted l : Sorted str_le (sort_Strings l).
Proof. apply Sorted_merge_sort. apply _. Qed.

Lemma sort_Strings_Permutation l : sort_Strings l ≡ₚ l.
Proof. apply merge_sort_Permutation. Qed.

Lemma sort_Strings_elem_of l x : x ∈ sort_Strings l <-> x ∈ l.
Proof. rewrite sort_Strings_Permutation. reflexivity. Qed.

(** A sorted list of strings is determined by its elements. *)
Lemma sorted_strings_unique (l k : list string) :
  Sorted str_le l -> Sorted str_le k -> NoDup l -> NoDup k ->
  (forall x, x ∈ l <-> x ∈ k) -> l = k.
Proof.
  intros Hl Hk Hnl Hnk Hlk.
  apply (Sorted_unique str_le); [exact Hl | exact Hk |].
  apply NoDup_Permutation; assumption.
Qed.

Lemma sorted_filter (P : string -> Prop) `{forall x, Decision (P x)} (l : list string) :
  Sorted str_le l -> Sorted str_le (filter P l).
Proof.
  intros Hl. apply StronglySorted_Sorted.
  apply Sorted_StronglySorted in Hl; [| apply _].
  induction Hl as [| x l Hl IH Hx]; [constructor |].
  rewrite filter_cons. destruct (decide (P x)); [| exact IH].
  constructor; [exact IH |].
  apply Forall_forall. intros y Hy. apply list_elem_of_filter in Hy as [_ Hy].
  rewrite Forall_forall in Hx. apply Hx. exact Hy.
Qed.

(** ** SHA-256 and HMAC

    [crypto/sha256] and [crypto/hmac] of the Go standard library, written
    out after FIPS 180-4 and RFC 2104 on 32-bit words held in [Z]. *)

Module Sha256.

Definition w32 (x : Z) : Z := Z.land x 4294967295.
Definition add32 (x y : Z) : Z := w32 (x + y).
Definition rotr (n x : Z) : Z :=
  w32 (Z.lor (Z.shiftr x n) (Z.shiftl x (32 - n))).
Definition shr (n x : Z) : Z := Z.shiftr x n.
Definition not32 (x : Z) : Z := Z.lxor x 4294967295.

Definition Ch (x y z : Z) : Z := Z.lxor (Z.land x y) (Z.land (not32 x) z).
Definition Maj (x y z : Z) : Z :=
  Z.lxor (Z.lxor (Z.land x y) (Z.land x z)) (Z.land y z).
Definition Sigma0 (x : Z) : Z := Z.lxor (Z.lxor (rotr 2 x) (rotr 13 x)) (rotr 22 x).
Definition Sigma1 (x : Z) : Z := Z.lxor (Z.lxor (rotr 6 x) (rotr 11 x)) (rotr 25 x).
Definition sigma0 (x : Z) : Z := Z.lxor (Z.lxor (rotr 7 x) (rotr 18 x)) (shr 3 x).
Definition sigma1 (x : Z) : Z := Z.lxor (Z.lxor (rotr 17 x) (rotr 19 x)) (shr 10 x).

Definition K : list Z :=
  [ 1116352408; 1899447441; 3049323471; 3921009573; 961987163; 1508970993;
    2453635748; 2870763221; 3624381080; 310598401; 607225278; 1426881987;
    1925078388; 2162078206; 2614888103; 3248222580; 3835390401; 4022224774;
    264347078; 604807628; 770255983; 1249150122; 1555081692; 1996064986;
    2554220882; 2821834349; 2952996808; 3210313671; 3336571891; 3584528711;
    113926993; 338241895; 666307205; 773529912; 1294757372; 1396182291;
    1695183700; 1986661051; 2177026350; 2456956037; 2730485921; 2820302411;
    3259730800; 3345764771; 3516065817; 3600352804; 4094571909; 275423344;
    430227734; 506948616; 659060556; 883997877; 958139571; 1322822218;
    1537002063; 1747873779; 1955562222; 2024104815; 2227730452; 2361852424;
    2428436474; 2756734187; 3204031479; 3329325298 ].

(** The chaining value [a .. h]. *)
Record state := State { sa : Z; sb : Z; sc : Z; sd : Z; se : Z; sf : Z; sg : Z; sh : Z }.

Definition init : state :=
  State 1779033703 3144134277 1013904242 2773480762
        1359893119 2600822924 528734635 1541459225.

Definition be32 (b0 b1 b2 b3 : Z) : Z :=
  Z.lor (Z.lor (Z.shiftl b0 24) (Z.shiftl b1 16)) (Z.lor (Z.shiftl b2 8) b3).

Fixpoint words (bs : list Z) : list Z :=
  match bs with
  | b0 :: b1 :: b2 :: b3 :: rest => be32 b0 b1 b2 b3 :: words rest
  | _ => []
  end.

(** Message schedule: [w] holds [W_0 .. W_(t-1)], the next word is appended. *)
Fixpoint schedule (n : nat) (w : list Z) : list Z :=
  match n with
  | O => w
  | S n' =>
      let t := length w in
      let at_ (k : nat) := nth (t - k) w 0 in
      schedule n' (w ++ [add32 (add32 (sigma1 (at_ 2%nat)) (at_ 7%nat))
                               (add32 (sigma0 (at_ 15%nat)) (at_ 16%nat))])
  end.

Definition round (s : state) (kw : Z * Z) : state :=
  let '(k, w) := kw in
  let t1 := add32 (add32 (add32 (sh s) (Sigma1 (se s))) (Ch (se s) (sf s) (sg s)))
                  (add32 k w) in
  let t2 := add32 (Sigma0 (sa s)) (Maj (sa s) (sb s) (sc s)) in
  State (add32 t1 t2) (sa s) (sb s) (sc s) (add32 (sd s) t1) (se s) (sf s) (sg s).

Definition compress (s : state) (block : list Z) : state :=
  let w := schedule 48 (words block) in
  let r := fold_left round (combine K w) s in
  State (add32 (sa s) (sa r)) (add32 (sb s) (sb r)) (add32 (sc s) (sc r))
        (add32 (sd s) (sd r)) (add32 (se s) (se r)) (add32 (sf s) (sf r))
        (add32 (sg s) (sg r)) (add32 (sh s) (sh r)).

Definition be_bytes (n : nat) (x : Z) : list Z :=
  map (fun i => Z.land (Z.shiftr x (8 * Z.of_nat i)) 255) (rev (seq 0 n)).

Definition pad (msg : list Z) : list Z :=
  let len := Z.of_nat (length msg) in
  let zeros := Z.to_nat ((55 - len) mod 64) in
  msg ++ [128] ++ repeat 0 zeros ++ be_bytes 8 (8 * len).

Fixpoint blocks (n : nat) (bs : list Z) (s : state) : state :=
  match n with
  | O => s
  | S n' => blocks n' (skipn 64 bs) (compress s (firstn 64 bs))
  end.

Definition digest (s : state) : list Z :=
  concat (map (be_bytes 4) [sa s; sb s; sc s; sd s; se s; sf s; sg s; sh s]).

(** [sha256.Sum256]: the 32-byte digest of a byte string. *)
Definition Sum256 (msg : string) : string :=
  let p := pad (bytes_of msg) in
  string_of_bytes (digest (blocks (length p / 64) p init)).

(** [hmac.New(sha256.New, key)], [Write(msg)], [Sum(nil)]. *)
Definition Hmac (key msg : string) : string :=
  let k0 := if (64 <? str_len key) then bytes_of (Sum256 key) else bytes_of key in
  let kb := k0 ++ repeat 0 (64 - length k0)%nat in
  let ipad := string_of_bytes (map (Z.lxor 54) kb) in
  let opad := string_of_bytes (map (Z.lxor 92) kb) in
  Sum256 (opad ++ Sum256 (ipad ++ msg)).

End Sha256.

(** [hex.EncodeToString]. *)
Definition hex_digit (x : Z) : ascii :=
  if x <? 10 then byte_of (48 + x) else byte_of (87 + x).

Fixpoint hex_EncodeToString (s : string) : string :=
  match s with
  | EmptyString => EmptyString
  | String c s' =>
      String (hex_digit (byte_val c / 16))
        (String (hex_digit (byte_val c mod 16)) (hex_EncodeToString s'))
  end.

Example sha256_abc :
  hex_EncodeToString (Sha256.Sum256 "abc")
  = "ba7816bf8f01cfea414140de5dae2223b00361a396177a9cb410ff61f20015ad"%string.
Proof. vm_compute. reflexivity. Qed.

Example hmac_salt_user1 :
  hex_EncodeToString (Sha256.Hmac "salt" "user1@example.com")
  = "61be22f520f1b6398902174ddb9303e274b47ec39a8d7db2ba7bbf1bf6390b2b"%string.
Proof. vm_compute. reflexivity. Qed.

(** [base32.StdEncoding.WithPadding(base32.NoPadding).EncodeToString]:
    the bits of the input, most significant first, are cut into groups of
    five; the last group is filled with zero bits. *)
Definition base32_alphabet : string := "ABCDEFGHIJKLMNOPQRSTUVWXYZ234567".

Definition byte_bits (b : Z) : list bool :=
  map (fun i => Z.testbit b (Z.of_nat i)) (rev (seq 0 8)).

Definition bits_val (bs : list bool) : nat :=
  fold_left (fun acc (b : bool) => (2 * acc + if b then 1 else 0)%nat) bs 0%nat.

Fixpoint base32_groups (fuel : nat) (bits : list bool) : list (list bool) :=
  match fuel, bits with
  | _, [] => []
  | O, _ => []
  | S f, _ =>
      let g := firstn 5 bits in
      (g ++ repeat false (5 - length g)) :: base32_groups f (skipn 5 bits)
  end.

Definition base32_char (g : list bool) : ascii :=
  match String.get (bits_val g) base32_alphabet with
  | Some c => c
  | None => "A"%char
  end.

Definition base32_EncodeToString (s : string) : string :=
  let bits := concat (map byte_bits (bytes_of s)) in
  string_of_list_ascii (map base32_char (base32_groups (length bits) bits)).

Example base32_sha256_saltx :
  ToLower (base32_EncodeToString (Sha256.Sum256 "saltx"))
  = "zhxuhib5ldzmxgymjmdjyf4vsvzz6umbuvlfzdnv3oysivsovamq"%string.
Proof. vm_compute. reflexivity. Qed.

(** ** The Go run time the transformers call into

    [math/rand], [time], [regexp] and the rendering of [float64] and
    [time.Time] by [fmt.Sprint] belong to the Go standard library; the
    development is parametric in them. *)

Class GoEnv := {
  float64 : Type;
  float64_eq_dec :: EqDecision float64;
  fmt_float64 : float64 -> string;
  float64_to_int : float64 -> Z;
  Time : Type;
  Time_eq_dec :: EqDecision Time;
  fmt_Time : Time -> string;
  (** [time.Parse(layout, s)], [t.Format(layout)], [t.Add(d)] with [d] in
      nanoseconds, [time.Unix(sec, 0)] and [t.Unix()]. *)
  time_Parse : string -> string -> option Time;
  time_Format : Time -> string -> string;
  time_Add : Time -> Z -> Time;
  time_Unix : Z -> Time;
  time_ToUnix : Time -> Z;
  (** [regexp.Compile] and [Regexp.ReplaceAllString]. *)
  Regexp : Type;
  regexp_Compile : string -> option Regexp;
  regexp_ReplaceAllString : Regexp -> string -> string -> string;
  (** [path.Match(pattern, name)], with a malformed pattern matching nothing. *)
  path_Match : string -> string -> bool;
  (** [rand.New(rand.NewSource(seed))] and one [Intn(n)] draw for [n > 0]. *)
  rand_Rand : Type;
  rand_New : Z -> rand_Rand;
  rand_draw : rand_Rand -> Z -> Z * rand_Rand;
  rand_draw_range : forall r n, 0 < n -> 0 <= fst (rand_draw r n) < n;
}.

(** A small instance of the run time, for evaluating the model on
    examples: reals and times are held as integers, a regular expression is
    its own pattern and replaces nothing, a glob pattern matches the name
    it spells, and the generator is a counter. *)
Lemma counter_draw_range (r n : Z) : 0 < n -> 0 <= fst (r mod n, r + 1) < n.
Proof. intros Hn. simpl. apply Z.mod_pos_bound. exact Hn. Qed.

Definition testEnv : GoEnv := {|
  float64 := Z;
  float64_eq_dec := Z.eq_dec;
  fmt_float64 := FormatInt;
  float64_to_int := fun f => f;
  Time := Z;
  Time_eq_dec := Z.eq_dec;
  fmt_Time := FormatInt;
  time_Parse := fun _ _ => None;
  time_Format := fun t _ => FormatInt t;
  time_Add := fun t d => t + d;
  time_Unix := fun sec => sec;
  time_ToUnix := fun t => t;
  Regexp := string;
  regexp_Compile := Some;
  regexp_ReplaceAllString := fun _ src _ => src;
  path_Match := String.eqb;
  rand_Rand := Z;
  rand_New := fun seed => seed;
  rand_draw := fun r n => (r mod n, r + 1);
  rand_draw_range := counter_draw_range;
|}.

Section Values.
Context `{GoEnv}.

(** The dynamically typed cell values of [database/sql] ([any]):
    [nil], [int64], [float64], [string], [[]byte], [time.Time]. *)
Inductive Value : Type :=
| VNull
| VInt (n : Z)
| VReal (f : float64)
| VText (s : string)
| VBlob (b : string)
| VTime (t : Time).

#[export] Instance Value_eq_dec : EqDecision Value.
Proof. solve_decision. Defined.

(** [fmt.Sprint(v)]. *)
Definition Sprint (v : Value) : string :=
  match v with
  | VNull => "<nil>"
  | VInt n => FormatInt n
  | VReal f => fmt_float64 f
  | VText s => s
  | VBlob b => "[" ++ Join (map FormatInt (bytes_of b)) " " ++ "]"
  | VTime t => fmt_Time t
  end.

(** [keyFor] of [internal/subset] and [internal/copy]: the textual key
    of a tuple. *)
Definition keyFor (values : list Value) : string :=
  Join (map Sprint values) "|".

End Values.

(** ** [internal/config]: the parsed configuration *)

Module config.
Section Config.
Context `{GoEnv}.

(** The dynamic types [asInt] of [internal/transform] tells apart in a
    [params] entry; both float widths are held as a [float64]. *)
Inductive ParamValue : Type :=
| PInt (n : Z)
| PInt64 (n : Z)
| PFloat64 (f : float64)
| PFloat32 (f : float64)
| POther.

Record TransformConfig := {
  Type_ : string;
  Params : option (gmap string ParamValue);
  Value_ : Value;
  Pattern : string;
  Replace : string;
  Locale : string;
  MaxLen : Z;
  Map : gmap string string;
  LookupTable : string;
  LookupKey : string;
  LookupValue : string;
}.

(** [Columns] maps a column to a [*TransformConfig], which may be nil. *)
Record TableConfig := {
  Columns : gmap string (option TransformConfig);
  TLimit : Z;
  TWhere : string;
}.

Record RootConfig := {
  Table : string;
  Where : string;
  Limit : Z;
}.

Record SubsetConfig := { Roots : list RootConfig }.

Record Config := {
  IncludeTables : list string;
  ExcludeTables : list string;
  Tables : gmap string (option TableConfig);
  Subset : option SubsetConfig;
}.

End Config.
End config.

(** ** [internal/transform]: the transformer engine *)

Module transform.
Section Transform.
Context `{GoEnv}.

Record RowContext := {
  Table : string;
  PK : list Value;
  Seed : Z;
  Salt : string;
}.

Definition PluginFunc : Type :=
  Value -> RowContext -> config.TransformConfig -> result Value.

Inductive Transformer : Type :=
| HashSha256 (salt : string) (maxLen : Z)
| HmacSha256 (key : string) (maxLen : Z)
| StableTokenize (maxLen : Z)
| RegexReplace (re : Regexp) (repl : string)
| SetNull
| SetValue (value : Value)
| MapReplace (m : gmap string string)
| FakerName
| FakerEmail
| FakerAddress
| FakerPhone
| DateShift (maxDays : Z)
| PluginTransformer (name : string) (fn : PluginFunc) (cfg : config.TransformConfig).

Definition Name (t : Transformer) : string :=
  match t with
  | HashSha256 _ _ => "HashSha256"
  | HmacSha256 _ _ => "HmacSha256"
  | StableTokenize _ => "StableTokenize"
  | RegexReplace _ _ => "RegexReplace"
  | SetNull => "SetNull"
  | SetValue _ => "SetValue"
  | MapReplace _ => "MapReplace"
  | FakerName => "FakerName"
  | FakerEmail => "FakerEmail"
  | FakerAddress => "FakerAddress"
  | FakerPhone => "FakerPhone"
  | DateShift _ => "DateShift"
  | PluginTransformer name _ _ => name
  end.

Definition firstNames : list string :=
  ["Alex"; "Jamie"; "Taylor"; "Jordan"; "Morgan"; "Casey"; "Riley"; "Avery"; "Parker"; "Reese"].
Definition lastNames : list string :=
  ["Smith"; "Johnson"; "Lee"; "Brown"; "Davis"; "Miller"; "Wilson"; "Moore"; "Clark"; "Hall"].
Definition emailDomains : list string :=
  ["example.com"; "mail.local"; "demo.test"; "sample.org"].
Definition streetNames : list string :=
  ["Oak"; "Maple"; "Cedar"; "Pine"; "Elm"; "Birch"; "Willow"; "Lake"; "Hill"; "Sunset"].
Definition cityNames : list string :=
  ["Springfield"; "Riverton"; "Fairview"; "Franklin"; "Greenville"; "Bristol"; "Clinton"; "Georgetown"].
Definition stateCodes : list string :=
  ["CA"; "NY"; "TX"; "FL"; "WA"; "IL"; "PA"; "AZ"].

(** [RowSeed]: the hash is fed the salt, the table and the rendering of
    every key value; its first eight bytes are folded into an [int64]. *)
Definition RowSeed (row : RowContext) : Z :=
  let h := Sha256.Sum256 (Salt row ++ Table row ++ String.concat "" (map Sprint (PK row))) in
  let seed :=
    fold_left (fun seed b => Z.lor (wrap64 (Z.shiftl seed 8)) b)
              (firstn 8 (bytes_of h)) 0 in
  let seed := if seed =? 0 then Seed row else seed in
  Z.lxor seed (Seed row).

Definition DeterministicRand (row : RowContext) : rand_Rand :=
  rand_New (RowSeed row).

(** [rng.Intn(n)]; it panics for [n <= 0]. *)
Definition Intn (rng : rand_Rand) (n : Z) : result (Z * rand_Rand) :=
  if n <=? 0 then Panic "invalid argument to Intn" else Ok (rand_draw rng n).

(** [list[rng.Intn(len(list))]]. *)
Definition pick (list : list string) (rng : rand_Rand) : result (string * rand_Rand) :=
  let* (i, rng) := Intn rng (Z.of_nat (length list)) in
  match list !! Z.to_nat i with
  | Some s => Ok (s, rng)
  | None => Panic "index out of range"
  end.

(** *** The [Transform] methods *)

Definition HashSha256_Transform (salt : string) (maxLen : Z)
    (value : Value) (row : RowContext) : result Value :=
  match value with
  | VNull => Ok VNull
  | _ =>
      let str := Sprint value in
      let out := hex_EncodeToString (Sha256.Sum256 (salt ++ str)) in
      if (0 <? maxLen) && (maxLen <? str_len out)
      then Ok (VText (str_take (Z.to_nat maxLen) out))
      else Ok (VText out)
  end.

Definition HmacSha256_Transform (key : string) (maxLen : Z)
    (value : Value) (row : RowContext) : result Value :=
  match value with
  | VNull => Ok VNull
  | _ =>
      let out := hex_EncodeToString (Sha256.Hmac key (Sprint value)) in
      if (0 <? maxLen) && (maxLen <? str_len out)
      then Ok (VText (str_take (Z.to_nat maxLen) out))
      else Ok (VText out)
  end.

Definition StableTokenize_Transform (maxLen : Z)
    (value : Value) (row : RowContext) : result Value :=
  match value with
  | VNull => Ok VNull
  | _ =>
      let sum := Sha256.Sum256 (Salt row ++ Sprint value) in
      let out := ToLower (base32_EncodeToString sum) in
      if (0 <? maxLen) && (maxLen <? str_len out)
      then Ok (VText (str_take (Z.to_nat maxLen) out))
      else if (maxLen =? 0) && (16 <? str_len out)
      then Ok (VText (str_take 16 out))
      else Ok (VText out)
  end.

Definition RegexReplace_Transform (re : Regexp) (repl : string)
    (value : Value) (row : RowContext) : result Value :=
  match value with
  | VNull => Ok VNull
  | _ => Ok (VText (regexp_ReplaceAllString re (Sprint value) repl))
  end.

Definition MapReplace_Transform (m : gmap string string)
    (value : Value) (row : RowContext) : result Value :=
  match value with
  | VNull => Ok VNull
  | _ =>
      let s := Sprint value in
      match m !! s with
      | Some v => Ok (VText v)
      | None => Ok (VText s)
      end
  end.

Definition FakerName_Transform (value : Value) (row : RowContext) : result Value :=
  let rng := DeterministicRand row in
  let* (first, rng) := pick firstNames rng in
  let* (last, rng) := pick lastNames rng in
  Ok (VText (first ++ " " ++ last)).

Definition FakerEmail_Transform (value : Value) (row : RowContext) : result Value :=
  let rng := DeterministicRand row in
  let* (first, rng) := pick firstNames rng in
  let* (last, rng) := pick lastNames rng in
  let* (domain, rng) := pick emailDomains rng in
  Ok (VText (ToLower first ++ "." ++ ToLower last ++ "@" ++ domain)).

Definition FakerAddress_Transform (value : Value) (row : RowContext) : result Value :=
  let rng := DeterministicRand row in
  let* (num, rng) := Intn rng 8999 in
  let num := num + 100 in
  let* (street, rng) := pick streetNames rng in
  let* (city, rng) := pick cityNames rng in
  let* (state, rng) := pick stateCodes rng in
  let* (zip, rng) := Intn rng 89999 in
  let zip := zip + 10000 in
  Ok (VText (FormatInt num ++ " " ++ street ++ " St, " ++ city ++ ", " ++ state
             ++ " " ++ FormatInt zip)).

Definition FakerPhone_Transform (value : Value) (row : RowContext) : result Value :=
  let rng := DeterministicRand row in
  let* (area, rng) := Intn rng 800 in
  let* (prefix, rng) := Intn rng 800 in
  let* (line, rng) := Intn rng 9000 in
  Ok (VText (FormatInt (area + 200) ++ "-" ++ FormatInt (prefix + 200) ++ "-"
             ++ FormatInt (line + 1000))).

Definition RFC3339 : string := "2006-01-02T15:04:05Z07:00".
Definition time_Hour : Z := 3600000000000.

Definition NewDateShift (maxDays : Z) : Transformer :=
  DateShift (if maxDays <=? 0 then 30 else maxDays).

Definition DateShift_Transform (maxDays : Z)
    (value : Value) (row : RowContext) : result Value :=
  match value with
  | VNull => Ok VNull
  | _ =>
      let* (d, _) := Intn (DeterministicRand row) (wrap64 (maxDays * 2 + 1)) in
      let shiftDays := wrap64 (d - maxDays) in
      let shift := wrap64 (shiftDays * 24 * time_Hour) in
      match value with
      | VTime v => Ok (VTime (time_Add v shift))
      | VInt v => Ok (VInt (time_ToUnix (time_Add (time_Unix v) shift)))
      | VText v =>
          match time_Parse RFC3339 v with
          | Some ts => Ok (VText (time_Format (time_Add ts shift) RFC3339))
          | None =>
              match time_Parse "2006-01-02" v with
              | Some ts => Ok (VText (time_Format (time_Add ts shift) "2006-01-02"))
              | None => Ok (VText v)
              end
          end
      | v => Ok v
      end
  end.

Definition PluginTransformer_Transform (name : string) (fn : PluginFunc)
    (cfg : config.TransformConfig) (value : Value) (row : RowContext) : result Value :=
  fn value row cfg.

(** Dispatch through the [Transformer] interface. *)
Definition Transform (t : Transformer) (value : Value) (row : RowContext) : result Value :=
  match t with
  | HashSha256 salt maxLen => HashSha256_Transform salt maxLen value row
  | HmacSha256 key maxLen => HmacSha256_Transform key maxLen value row
  | StableTokenize maxLen => StableTokenize_Transform maxLen value row
  | RegexReplace re repl => RegexReplace_Transform re repl value row
  | SetNull => Ok VNull
  | SetValue v => Ok v
  | MapReplace m => MapReplace_Transform m value row
  | FakerName => FakerName_Transform value row
  | FakerEmail => FakerEmail_Transform value row
  | FakerAddress => FakerAddress_Transform value row
  | FakerPhone => FakerPhone_Transform value row
  | DateShift maxDays => DateShift_Transform maxDays value row
  | PluginTransformer name fn cfg => PluginTransformer_Transform name fn cfg value row
  end.

(** The built-in transformers: every variant but the plugin wrapper. *)
Definition builtin (t : Transformer) : bool :=
  match t with
  | PluginTransformer _ _ _ => false
  | _ => true
  end.

(** *** [Build] *)

Definition Factory : Type :=
  config.TransformConfig -> string -> result (option Transformer).

Definition asInt (v : config.ParamValue) : option Z :=
  match v with
  | config.PInt t => Some t
  | config.PInt64 t => Some t
  | config.PFloat64 t => Some (float64_to_int t)
  | config.PFloat32 t => Some (float64_to_int t)
  | config.POther => None
  end.

Definition Build (registry : gmap string Factory)
    (cfg : option config.TransformConfig) (salt : string) : result (option Transformer) :=
  match cfg with
  | None => Ok None
  | Some cfg =>
      let key := ToLower (config.Type_ cfg) in
      match registry !! key with
      | Some factory => factory cfg salt
      | None =>
          if String.eqb key "hashsha256" then Ok (Some (HashSha256 salt (config.MaxLen cfg)))
          else if String.eqb key "hmacsha256" then Ok (Some (HmacSha256 salt (config.MaxLen cfg)))
          else if String.eqb key "stabletokenize" then Ok (Some (StableTokenize (config.MaxLen cfg)))
          else if String.eqb key "regexreplace" then
            match regexp_Compile (config.Pattern cfg) with
            | Some re => Ok (Some (RegexReplace re (config.Replace cfg)))
            | None => Err "error parsing regexp"
            end
          else if String.eqb key "setnull" then Ok (Some SetNull)
          else if String.eqb key "setvalue" then Ok (Some (SetValue (config.Value_ cfg)))
          else if String.eqb key "fakername" then Ok (Some FakerName)
          else if String.eqb key "fakeremail" then Ok (Some FakerEmail)
          else if String.eqb key "fakeraddress" then Ok (Some FakerAddress)
          else if String.eqb key "fakerphone" then Ok (Some FakerPhone)
          else if String.eqb key "dateshift" then
            let maxDays :=
              match config.Params cfg with
              | Some params =>
                  match params !! "max_days" with
                  | Some v => match asInt v with Some iv => iv | None => 30 end
                  | None => 30
                  end
              | None => 30
              end in
            Ok (Some (NewDateShift maxDays))
          else if String.eqb key "map" then Ok (Some (MapReplace (config.Map cfg)))
          else Err ("unknown transformer type: " ++ config.Type_ cfg)
      end
  end.

(** *** Arithmetic of the seed fold *)

Lemma wrap64_unique x y k : int64_range y -> y = x + k * 2 ^ 64 -> wrap64 x = y.
Proof.
  unfold wrap64, int64_range. intros Hy ->.
  replace (x + 2 ^ 63) with ((x + k * 2 ^ 64 + 2 ^ 63) + (- k) * 2 ^ 64) by lia.
  rewrite Z_mod_plus_full, Z.mod_small by lia. lia.
Qed.

Lemma wrap64_decomp x : exists k, wrap64 x = x + k * 2 ^ 64.
Proof.
  exists (- ((x + 2 ^ 63) / 2 ^ 64)). unfold wrap64.
  pose proof (Z.div_mod (x + 2 ^ 63) (2 ^ 64) ltac:(lia)). lia.
Qed.

Lemma lor_low_byte w b : w mod 256 = 0 -> 0 <= b < 256 -> Z.lor w b = w + b.
Proof.
  intros Hw Hb.
  assert (Hland : Z.land w b = 0).
  { apply Z.bits_inj'. intros n Hn. rewrite Z.land_spec, Z.bits_0.
    destruct (Z.ltb_spec n 8) as [Hlt | Hge].
    - replace w with (Z.shiftl (w / 256) 8).
      + rewrite Z.shiftl_spec_low by lia. reflexivity.
      + rewrite Z.shiftl_mul_pow2 by lia.
        pose proof (Z.div_mod w 256 ltac:(lia)). change (2 ^ 8) with 256. lia.
    - destruct (Z.eq_dec b 0) as [-> | Hnz].
      + rewrite Z.bits_0. apply andb_false_r.
      + rewrite (Z.bits_above_log2 b n); [apply andb_false_r | lia |].
        assert (Z.log2 b < 8) by (apply Z.log2_lt_pow2; lia). lia. }
  rewrite <- Z.lxor_lor by exact Hland.
  symmetry. apply Z.add_nocarry_lxor. exact Hland.
Qed.

Lemma seed_step A b :
  0 <= b < 256 ->
  Z.lor (wrap64 (Z.shiftl (wrap64 A) 8)) b = wrap64 (A * 256 + b).
Proof.
  intros Hb. rewrite Z.shiftl_mul_pow2 by lia. change (2 ^ 8) with 256.
  destruct (wrap64_decomp A) as [k Hk].
  destruct (wrap64_decomp (wrap64 A * 256)) as [j Hj].
  pose proof (wrap64_range (wrap64 A * 256)) as Hr. unfold int64_range in Hr.
  set (W := wrap64 (wrap64 A * 256)) in *.
  assert (HW : W = 256 * (wrap64 A + j * 2 ^ 56)).
  { rewrite Hj. change (2 ^ 64) with (2 ^ 56 * 256). lia. }
  assert (Hmod : W mod 256 = 0).
  { rewrite HW, Z.mul_comm. apply Z_mod_mult. }
  rewrite lor_low_byte by assumption.
  symmetry. apply (wrap64_unique _ _ (k * 256 + j)).
  - unfold int64_range.
    change (2 ^ 63) with (256 * 2 ^ 55) in *. lia.
  - rewrite Hj, Hk. lia.
Qed.

(** Big-endian reading of a byte list, unsigned and as an [int64]. *)
Definition be_uint (bs : list Z) : Z := fold_left (fun a b => a * 256 + b) bs 0.
Definition be_int64 (bs : list Z) : Z := wrap64 (be_uint bs).

Lemma seed_fold bs A :
  Forall (fun b => 0 <= b < 256) bs ->
  fold_left (fun seed b => Z.lor (wrap64 (Z.shiftl seed 8)) b) bs (wrap64 A)
  = wrap64 (fold_left (fun a b => a * 256 + b) bs A).
Proof.
  intros Hbs. revert A. induction Hbs as [| b bs Hb _ IH]; intros A; simpl.
  - reflexivity.
  - rewrite seed_step by exact Hb. apply IH.
Qed.

Lemma seed_fold0 bs :
  Forall (fun b => 0 <= b < 256) bs ->
  fold_left (fun seed b => Z.lor (wrap64 (Z.shiftl seed 8)) b) bs 0 = be_int64 bs.
Proof.
  intros Hbs. unfold be_int64, be_uint. rewrite <- seed_fold by exact Hbs.
  reflexivity.
Qed.

Lemma bytes_of_range s : Forall (fun b => 0 <= b < 256) (bytes_of s).
Proof.
  induction s as [| c s IH]; simpl; constructor; auto using byte_val_range.
Qed.

(** C5. The row seed is [s0 XOR seed], where [s0] is the big-endian signed
    64-bit reading of the first eight bytes of
    [SHA-256(salt ++ table ++ string(pk[0]) ++ ... ++ string(pk[n-1]))];
    when [s0 = 0] the configured seed takes its place before the XOR,
    so the result is [seed XOR seed]. *)
Theorem RowSeed_spec (row : RowContext) :
  let h := Sha256.Sum256 (Salt row ++ Table row ++ String.concat "" (map Sprint (PK row))) in
  let s0 := be_int64 (firstn 8 (bytes_of h)) in
  RowSeed row = if s0 =? 0 then Z.lxor (Seed row) (Seed row) else Z.lxor s0 (Seed row).
Proof.
  intros h s0. unfold RowSeed. fold h.
  rewrite (seed_fold0 (firstn 8 (bytes_of h)))
    by (apply Forall_take, bytes_of_range).
  fold s0. destruct (s0 =? 0); reflexivity.
Qed.

(** *** Truncation and the length of the encodings *)

Lemma str_take_all n s : (String.length s <= n)%nat -> str_take n s = s.
Proof.
  revert n. induction s as [| c s IH]; intros [| n] Hn; simpl in *; try reflexivity; try lia.
  f_equal. apply IH. lia.
Qed.

Lemma str_take_length n s : String.length (str_take n s) = Nat.min n (String.length s).
Proof.
  revert n. induction s as [| c s IH]; intros [| n]; simpl; try reflexivity.
  f_equal. apply IH.
Qed.

Lemma string_of_bytes_length l : String.length (string_of_bytes l) = length l.
Proof. induction l as [| b l IH]; simpl; congruence. Qed.

Lemma bytes_of_length s : length (bytes_of s) = String.length s.
Proof. induction s as [| c s IH]; simpl; congruence. Qed.

Lemma ToLower_length s : String.length (ToLower s) = String.length s.
Proof. induction s as [| c s IH]; simpl; congruence. Qed.

Lemma digest_length st : length (Sha256.digest st) = 32%nat.
Proof. destruct st. reflexivity. Qed.

Lemma Sum256_length msg : String.length (Sha256.Sum256 msg) = 32%nat.
Proof.
  unfold Sha256.Sum256. rewrite string_of_bytes_length. apply digest_length.
Qed.

Lemma base32_groups_length fuel bits :
  (length bits <= fuel)%nat ->
  (length bits <= 5 * length (base32_groups fuel bits) < length bits + 5)%nat.
Proof.
  revert bits. induction fuel as [| f IH]; intros bits Hf.
  - destruct bits; simpl in *; lia.
  - destruct bits as [| b bits]; [simpl; lia |].
    cbn [base32_groups length].
    set (l := b :: bits) in *.
    assert (Hl : length l = S (length bits)) by reflexivity.
    specialize (IH (skipn 5 l)).
    rewrite length_skipn in IH. lia.
Qed.

Lemma string_of_list_ascii_length l :
  String.length (string_of_list_ascii l) = length l.
Proof. induction l as [| c l IH]; simpl; congruence. Qed.

Lemma byte_bits_concat_length bs :
  length (concat (map byte_bits bs)) = (8 * length bs)%nat.
Proof.
  induction bs as [| b bs IH]; [reflexivity |].
  cbn [map concat]. rewrite length_app, IH. cbn [length byte_bits]. simpl. lia.
Qed.

Lemma base32_digest_length msg :
  String.length (ToLower (base32_EncodeToString (Sha256.Sum256 msg))) = 52%nat.
Proof.
  rewrite ToLower_length. unfold base32_EncodeToString.
  rewrite string_of_list_ascii_length, length_map.
  pose proof (base32_groups_length
                (length (concat (map byte_bits (bytes_of (Sha256.Sum256 msg)))))
                (concat (map byte_bits (bytes_of (Sha256.Sum256 msg))))
                ltac:(lia)) as Hg.
  rewrite byte_bits_concat_length, bytes_of_length, Sum256_length in Hg.
  rewrite byte_bits_concat_length, bytes_of_length, Sum256_length. lia.
Qed.

(** The token before truncation: lowercase unpadded base32 of
    [SHA-256(salt ++ string(value))]. *)
Definition stable_token (salt : string) (value : Value) : string :=
  ToLower (base32_EncodeToString (Sha256.Sum256 (salt ++ Sprint value))).

(** C7 (amended). A null input yields null. For a non-null input
    [StableTokenize] returns the lowercase unpadded base32 encoding of
    [SHA-256(row.Salt ++ string(value))], which has 52 characters,
    cut to its first [maxlen] characters when [maxlen > 0], cut to 16
    characters when [maxlen = 0], and returned whole when [maxlen < 0]. *)
Theorem StableTokenize_spec (maxLen : Z) (value : Value) (row : RowContext) :
  String.length (stable_token (Salt row) value) = 52%nat /\
  StableTokenize_Transform maxLen value row =
    match value with
    | VNull => Ok VNull
    | _ =>
        let enc := stable_token (Salt row) value in
        Ok (VText (if 0 <? maxLen then str_take (Z.to_nat maxLen) enc
                   else if maxLen =? 0 then str_take 16 enc
                   else enc))
    end.
Proof.
  split; [apply base32_digest_length |].
  unfold StableTokenize_Transform, stable_token.
  set (enc := ToLower _).
  assert (Hlen : str_len enc = 52).
  { unfold str_len, enc. rewrite base32_digest_length. reflexivity. }
  clearbody enc.
  assert (Hres :
    (if (0 <? maxLen) && (maxLen <? str_len enc)
     then Ok (VText (str_take (Z.to_nat maxLen) enc))
     else if (maxLen =? 0) && (16 <? str_len enc)
          then Ok (VText (str_take 16 enc))
          else Ok (VText enc))
    = Ok (VText (if 0 <? maxLen then str_take (Z.to_nat maxLen) enc
                 else if maxLen =? 0 then str_take 16 enc else enc))).
  { rewrite Hlen.
    destruct (Z.ltb_spec 0 maxLen) as [Hpos | Hnpos]; cbn [andb].
    - destruct (Z.ltb_spec maxLen 52) as [Hlt | Hge].
      { reflexivity. }
      assert (Hnz : (maxLen =? 0) = false) by (apply Z.eqb_neq; lia).
      rewrite Hnz. cbn [andb]. rewrite str_take_all by (unfold str_len in Hlen; lia).
      reflexivity.
    - destruct (maxLen =? 0); reflexivity. }
  destruct value; try exact Hres. reflexivity.
Qed.

(** *** Letter case *)

Definition is_upper (c : ascii) : bool := (65 <=? byte_val c) && (byte_val c <=? 90).
Definition is_lower (c : ascii) : bool := (97 <=? byte_val c) && (byte_val c <=? 122).

(** Two bytes are the same letter in possibly different case. *)
Definition same_letter (c d : ascii) : bool :=
  (byte_val c =? byte_val d)
  || (is_upper c && (byte_val d =? byte_val c + 32))
  || (is_upper d && (byte_val c =? byte_val d + 32)).

(** Equality of two names up to the case of their letters. *)
Fixpoint eq_fold (a b : string) : bool :=
  match a, b with
  | EmptyString, EmptyString => true
  | String c a', String d b' => same_letter c d && eq_fold a' b'
  | _, _ => false
  end.

Lemma byte_of_val c : byte_of (byte_val c) = c.
Proof.
  unfold byte_of. pose proof (byte_val_range c).
  rewrite Z.mod_small by lia. unfold byte_val.
  rewrite N2Z.id. apply ascii_N_embedding.
Qed.

Lemma lower_byte_upper c d :
  is_upper c = true -> byte_val d = byte_val c + 32 -> lower_byte c = lower_byte d.
Proof.
  unfold is_upper, lower_byte. intros Hup Hd. rewrite Hup.
  assert (Hnd : (65 <=? byte_val d) && (byte_val d <=? 90) = false).
  { apply andb_true_iff in Hup as [H1 H2].
    apply Z.leb_le in H1. apply andb_false_iff. right. apply Z.leb_gt. lia. }
  rewrite Hnd, <- Hd. apply byte_of_val.
Qed.

Lemma same_letter_lower c d : same_letter c d = true -> lower_byte c = lower_byte d.
Proof.
  unfold same_letter. intros Hs.
  apply orb_true_iff in Hs as [Hs | Hs]; [apply orb_true_iff in Hs as [Hs | Hs] |].
  - apply Z.eqb_eq, byte_val_eq in Hs. congruence.
  - apply andb_true_iff in Hs as [Hup Hd]. apply Z.eqb_eq in Hd.
    apply lower_byte_upper; assumption.
  - apply andb_true_iff in Hs as [Hup Hd]. apply Z.eqb_eq in Hd.
    symmetry. apply lower_byte_upper; assumption.
Qed.

Lemma eq_fold_ToLower a b : eq_fold a b = true -> ToLower a = ToLower b.
Proof.
  revert b. induction a as [| c a IH]; intros [| d b] Hab; simpl in *;
    try reflexivity; try discriminate.
  apply andb_true_iff in Hab as [Hcd Hab].
  f_equal; [apply same_letter_lower; exact Hcd | apply IH; exact Hab].
Qed.

(** What the map-replacing transformer computes: a null stays null, any
    other value is rendered and looked up, and kept as rendered when the
    map has no entry for it. *)
Definition map_replace (m : gmap string string) (value : Value) : Value :=
  match value with
  | VNull => VNull
  | _ => VText (default (Sprint value) (m !! Sprint value))
  end.

(** C6 (amended). The factory knows the map-replacing transformer under
    the type name [Map]: for a configuration whose type spells [Map] in
    any letter case, and with no plugin registered under that name,
    [Build] succeeds and returns the transformer that maps a non-null
    value to [m[string(value)]] when the key is present and to the
    string form of the value otherwise. *)
Theorem Build_Map (registry : gmap string Factory) (cfg : config.TransformConfig)
    (salt : string) :
  eq_fold (config.Type_ cfg) "Map" = true ->
  registry !! "map" = None ->
  Build registry (Some cfg) salt = Ok (Some (MapReplace (config.Map cfg))) /\
  forall value row,
    Transform (MapReplace (config.Map cfg)) value row
    = Ok (map_replace (config.Map cfg) value).
Proof.
  intros Hty Hreg. split.
  - pose proof (eq_fold_ToLower _ _ Hty) as Hkey.
    replace (ToLower "Map") with "map"%string in Hkey by reflexivity.
    unfold Build, Factory in *. cbv zeta. rewrite Hkey, Hreg. reflexivity.
  - intros value row. cbn [Transform]. unfold MapReplace_Transform, map_replace.
    destruct value; try reflexivity; destruct (config.Map cfg !! _); reflexivity.
Qed.

(** *** [HmacSha256] *)

(** What [HmacSha256] computes for a non-null value. *)
Definition hmac_hex (key : string) (maxLen : Z) (value : Value) : string :=
  let out := hex_EncodeToString (Sha256.Hmac key (Sprint value)) in
  if 0 <? maxLen then str_take (Z.to_nat maxLen) out else out.

Lemma HmacSha256_value key maxLen value row :
  HmacSha256_Transform key maxLen value row =
    match value with
    | VNull => Ok VNull
    | _ => Ok (VText (hmac_hex key maxLen value))
    end.
Proof.
  unfold HmacSha256_Transform, hmac_hex.
  set (out := hex_EncodeToString _). clearbody out.
  assert (Hres :
    (if (0 <? maxLen) && (maxLen <? str_len out)
     then Ok (VText (str_take (Z.to_nat maxLen) out)) else Ok (VText out))
    = Ok (VText (if 0 <? maxLen then str_take (Z.to_nat maxLen) out else out))).
  { destruct (Z.ltb_spec 0 maxLen) as [Hpos | Hnpos]; cbn [andb].
    - destruct (Z.ltb_spec maxLen (str_len out)) as [Hlt | Hge].
      + reflexivity.
      + rewrite str_take_all by (unfold str_len in Hge; lia). reflexivity.
    - reflexivity. }
  destruct value; try exact Hres. reflexivity.
Qed.

End Transform.
End transform.

(** Evaluations of the transformer engine, after [transform_test.go]. *)
Module transform_tests.
#[local] Existing Instance testEnv.

Definition row_users (pk : list Value) : transform.RowContext :=
  {| transform.Table := "users"; transform.PK := pk;
     transform.Seed := 42; transform.Salt := "salt" |}.

Definition cfg_of_type (type : string) : config.TransformConfig :=
  {| config.Type_ := type; config.Params := None; config.Value_ := VNull;
     config.Pattern := ""; config.Replace := ""; config.Locale := "";
     config.MaxLen := 0; config.Map := {[ "US" := "United States" ]};
     config.LookupTable := ""; config.LookupKey := ""; config.LookupValue := "" |}.

Example RowSeed_users_1 :
  transform.RowSeed (row_users [VInt 1]) = Z.lxor (-59757333508560243) 42.
Proof. vm_compute. reflexivity. Qed.

Example HmacSha256_user1 :
  transform.Transform (transform.HmacSha256 "salt" 16) (VText "user1@example.com")
    (row_users [VInt 1]) = Ok (VText "61be22f520f1b639").
Proof. vm_compute. reflexivity. Qed.

Example StableTokenize_default (value := VText "x") :
  transform.Transform (transform.StableTokenize 0) value (row_users [VInt 1])
  = Ok (VText "zhxuhib5ldzmxgym").
Proof. vm_compute. reflexivity. Qed.

(** With a negative [maxlen] the token is not cut to 16 characters: all
    52 characters are returned. *)
Lemma StableTokenize_negative_maxlen :
  exists out,
    transform.Transform (transform.StableTokenize (-1)) (VText "x") (row_users [VInt 1])
    = Ok (VText out) /\
    out = "zhxuhib5ldzmxgymjmdjyf4vsvzz6umbuvlfzdnv3oysivsovamq"%string /\
    out <> str_take 16 (transform.stable_token "salt" (VText "x")) /\
    ~ (String.length out <= 16)%nat.
Proof.
  eexists. split; [vm_compute; reflexivity |].
  split; [reflexivity |]. split; [vm_compute; discriminate | vm_compute; lia].
Qed.

(** The type name [MapReplace] is not known to the factory. *)
Lemma Build_MapReplace_unknown :
  transform.Build ∅ (Some (cfg_of_type "MapReplace")) "salt"
  = Err "unknown transformer type: MapReplace".
Proof. vm_compute. reflexivity. Qed.

Lemma Build_Map_witness :
  (transform.eq_fold (config.Type_ (cfg_of_type "mAP")) "Map" = true /\
   (∅ : gmap string transform.Factory) !! "map" = None) /\
  transform.Build ∅ (Some (cfg_of_type "mAP")) "salt"
  = Ok (Some (transform.MapReplace (config.Map (cfg_of_type "mAP")))) /\
  forall value row,
    transform.Transform (transform.MapReplace (config.Map (cfg_of_type "mAP"))) value row
    = Ok (transform.map_replace (config.Map (cfg_of_type "mAP")) value).
Proof.
  split; [split; reflexivity |].
  apply (transform.Build_Map ∅ (cfg_of_type "mAP") "salt"); reflexivity.
Defined.

Example MapReplace_US :
  transform.Transform (transform.MapReplace {[ "US" := "United States" ]}) (VText "US")
    (row_users [VInt 1]) = Ok (VText "United States").
Proof. vm_compute. reflexivity. Qed.

End transform_tests.

(** ** [internal/schema]: the introspected schema and the table order *)

Module schema.

Record SQLItem := {
  ItemName : string;
  ItemSQL : string;
  ItemType : string;
}.

Record Column := {
  ColName : string;
  ColType : string;
  NotNull : bool;
  DefaultSQL : option string;
  PK : bool;
}.

(** [RefTable] is the field [Table] of the Go struct: the referenced table. *)
Record ForeignKey := {
  ID : Z;
  Seq : Z;
  RefTable : string;
  From : string;
  To : string;
  OnUpdate : string;
  OnDelete : string;
}.

Record Table := {
  Name : string;
  SQL : string;
  Columns : list Column;
  PrimaryKeys : list string;
  ForeignKeys : list ForeignKey;
  WithoutRowID : bool;
}.

Record Schema := {
  Tables : gmap string Table;
  Views : list SQLItem;
  Indexes : list SQLItem;
  Triggers : list SQLItem;
}.

Definition MatchAny `{GoEnv} (patterns : list string) (name : string) : bool :=
  existsb (fun p => path_Match p name) patterns.

(** *** [TableOrder]

    The source ranges four times over a map; Go leaves the order of such a
    loop open, so each loop takes the order in which it meets the keys. *)

(** [it] is an order in which a [range] loop may meet the keys of [m]. *)
Definition range_of {A} (m : gmap string A) (it : list string) : Prop :=
  NoDup it /\ forall k, k ∈ it <-> is_Some (m !! k).

(** [indeg[k]], zero for a key that is not in the map. *)
Definition indeg_get (indeg : gmap string Z) (k : string) : Z :=
  default 0 (indeg !! k).

(** [graph[k]], nil for a key that is not in the map. *)
Definition graph_get (graph : gmap string (list string)) (k : string) : list string :=
  default [] (graph !! k).

(** The body of the second loop for one foreign-key row of the table
    [name]: an edge parent -> child when the referenced table exists. *)
Definition add_edge (s : Schema) (name : string)
    (st : gmap string (list string) * gmap string Z) (fk : ForeignKey)
    : gmap string (list string) * gmap string Z :=
  let '(graph, indeg) := st in
  match Tables s !! RefTable fk with
  | None => (graph, indeg)
  | Some _ =>
      (<[RefTable fk := graph_get graph (RefTable fk) ++ [name]]> graph,
       <[name := indeg_get indeg name + 1]> indeg)
  end.

Definition add_edges (s : Schema)
    (st : gmap string (list string) * gmap string Z) (name : string)
    : gmap string (list string) * gmap string Z :=
  match Tables s !! name with
  | None => st
  | Some tbl => fold_left (add_edge s name) (ForeignKeys tbl) st
  end.

(** One dependant of the table just emitted. *)
Definition relax (st : gmap string Z * list string) (dep : string)
    : gmap string Z * list string :=
  let '(indeg, queue) := st in
  let d := indeg_get indeg dep - 1 in
  (<[dep := d]> indeg, if d =? 0 then queue ++ [dep] else queue).

(** The main loop [for len(queue) > 0]; [None] when [fuel] iterations do
    not empty the queue. *)
Fixpoint kahn (fuel : nat) (graph : gmap string (list string))
    (indeg : gmap string Z) (queue order : list string) : option (list string) :=
  match queue with
  | [] => Some order
  | n :: queue =>
      match fuel with
      | O => None
      | S fuel =>
          let '(indeg, queue) := fold_left relax (graph_get graph n) (indeg, queue) in
          kahn fuel graph indeg (sort_Strings queue) (order ++ [n])
      end
  end.

Definition TableOrder_in (it1 it2 it3 it4 : list string) (s : Schema)
    : option (list string) :=
  let indeg := fold_left (fun indeg name => <[name := 0]> indeg) it1 ∅ in
  let '(graph, indeg) := fold_left (add_edges s) it2 (∅, indeg) in
  let queue :=
    fold_left (fun queue name =>
                 if indeg_get indeg name =? 0 then queue ++ [name] else queue)
              it3 [] in
  let queue := sort_Strings queue in
  match kahn (size (Tables s)) graph indeg queue [] with
  | None => None
  | Some order =>
      if decide (length order = size (Tables s)) then Some order
      else
        let missing :=
          fold_left (fun missing name =>
                       if decide (name ∈ order) then missing else missing ++ [name])
                    it4 [] in
        Some (order ++ sort_Strings missing)
  end.

(** *** The order as the specification describes it *)

(** The table names, sorted. *)
Definition names (s : Schema) : list string :=
  sort_Strings (elements (dom (Tables s))).

(** The parents of a table: one entry per foreign-key row that references
    an existing table. *)
Definition parents (s : Schema) (t : string) : list string :=
  match Tables s !! t with
  | None => []
  | Some tbl =>
      filter (fun p => is_Some (Tables s !! p)) (map RefTable (ForeignKeys tbl))
  end.

(** The tables that can be emitted next: not emitted yet, every parent
    emitted; in lexicographic order. *)
Definition ready (s : Schema) (done : list string) : list string :=
  filter (fun t => (t ∉ done) /\ Forall (fun p => p ∈ done) (parents s t)) (names s).

(** Kahn's algorithm with the lexicographically least ready table first. *)
Fixpoint kahn_spec (fuel : nat) (s : Schema) (done : list string) : list string :=
  match fuel with
  | O => done
  | S fuel =>
      match ready s done with
      | [] => done
      | n :: _ => kahn_spec fuel s (done ++ [n])
      end
  end.

Definition kahn_order (s : Schema) : list string :=
  kahn_spec (size (Tables s)) s [].

(** The tables left over, in a cycle or behind one, follow in
    lexicographic order. *)
Definition TableOrder_spec (s : Schema) : list string :=
  kahn_order s ++ filter (fun t => t ∉ kahn_order s) (names s).

(** A table is grounded when every chain of references from it ends:
    it is neither in a cycle nor behind one. *)
Inductive grounded (s : Schema) : string -> Prop :=
| grounded_intro t :
    is_Some (Tables s !! t) ->
    (forall p, p ∈ parents s t -> grounded s p) ->
    grounded s t.

(** [a] stands before [b] in [l]. *)
Definition precedes (l : list string) (a b : string) : Prop :=
  exists l1 l2 l3, l = l1 ++ a :: l2 ++ b :: l3.

(** The number of times [x] occurs in [l]. *)
Definition occ (x : string) (l : list string) : nat :=
  length (filter (fun y => y = x) l).

(** The parents of [t] that are not in [done]. *)
Definition pending (s : Schema) (done : list string) (t : string) : list string :=
  filter (fun p => p ∉ done) (parents s t).

Lemma occ_app x l k : occ x (l ++ k) = (occ x l + occ x k)%nat.
Proof. unfold occ. rewrite filter_app, length_app. reflexivity. Qed.

Lemma occ_cons x y l : occ x (y :: l) = ((if decide (y = x) then 1 else 0) + occ x l)%nat.
Proof. unfold occ. rewrite filter_cons. destruct (decide (y = x)); reflexivity. Qed.

Lemma occ_pos_elem_of x l : (0 < occ x l)%nat <-> x ∈ l.
Proof.
  induction l as [| y l IH]; [rewrite elem_of_nil; unfold occ; simpl; lia |].
  rewrite occ_cons, elem_of_cons.
  destruct (decide (y = x)) as [-> | Hne]; [split; [auto | lia] |].
  simpl. rewrite IH. split; [auto | intros [Heq | Hin]; [congruence | exact Hin]].
Qed.

Lemma occ_repeat x y n : occ x (repeat y n) = if decide (y = x) then n else 0%nat.
Proof.
  induction n as [| n IH]; simpl; [destruct (decide (y = x)); reflexivity |].
  rewrite occ_cons, IH. destruct (decide (y = x)); reflexivity.
Qed.

(** Emitting [n] settles exactly the pending references to [n]. *)
Lemma pending_snoc_length (done l : list string) (n : string) :
  n ∉ done ->
  length (filter (fun p => p ∉ done) l)
  = (length (filter (fun p => p ∉ done ++ [n]) l) + occ n l)%nat.
Proof.
  intros Hn. induction l as [| p l IH]; [reflexivity |].
  rewrite !filter_cons, occ_cons.
  destruct (decide (p = n)) as [-> | Hne].
  - destruct (decide (n ∉ done)); [| contradiction].
    destruct (decide (n ∉ done ++ [n])) as [Hnot | _].
    + exfalso. apply Hnot. apply elem_of_app. right. apply list_elem_of_singleton. reflexivity.
    + simpl. rewrite IH. lia.
  - destruct (decide (p ∉ done)) as [Hp | Hp].
    + destruct (decide (p ∉ done ++ [n])) as [_ | Hnot].
      * simpl. rewrite IH. lia.
      * exfalso. apply Hnot. intros Hin. apply elem_of_app in Hin as [Hin | Hin];
          [contradiction | apply list_elem_of_singleton in Hin; contradiction].
    + destruct (decide (p ∉ done ++ [n])) as [Hnot | _].
      * exfalso. apply Hp. intros Hin. apply Hnot. apply elem_of_app. left. exact Hin.
      * simpl. rewrite IH. lia.
Qed.

Lemma pending_nil_Forall (done l : list string) :
  filter (fun p => p ∉ done) l = [] <-> Forall (fun p => p ∈ done) l.
Proof.
  induction l as [| p l IH]; [split; [constructor | reflexivity] |].
  rewrite filter_cons, Forall_cons. destruct (decide (p ∉ done)) as [Hp | Hp].
  - split; [discriminate | intros [Hin _]; contradiction].
  - rewrite IH. split; [intros Hl; split; [| exact Hl] | intros [_ Hl]; exact Hl].
    destruct (decide (p ∈ done)); [assumption | contradiction].
Qed.

Lemma indeg_get_insert (indeg : gmap string Z) k v k' :
  indeg_get (<[k := v]> indeg) k' = if decide (k = k') then v else indeg_get indeg k'.
Proof.
  unfold indeg_get. rewrite lookup_insert. destruct (decide (k = k')); reflexivity.
Qed.

Lemma graph_get_insert (graph : gmap string (list string)) k v k' :
  graph_get (<[k := v]> graph) k' = if decide (k = k') then v else graph_get graph k'.
Proof.
  unfold graph_get. rewrite lookup_insert. destruct (decide (k = k')); reflexivity.
Qed.

(** The inner loop over the dependants of the emitted table: every count
    drops by the number of edges, and the tables whose count reaches zero
    join the queue, once each. *)
Lemma relax_fold (deps : list string) :
  forall (indeg : gmap string Z) (q : list string) indeg' q',
    (forall t, t ∈ deps -> Z.of_nat (occ t deps) <= indeg_get indeg t) ->
    fold_left relax deps (indeg, q) = (indeg', q') ->
    (forall t, indeg_get indeg' t = indeg_get indeg t - Z.of_nat (occ t deps)) /\
    exists L, q' = q ++ L /\ NoDup L /\
      forall t, t ∈ L <-> (t ∈ deps /\ indeg_get indeg t = Z.of_nat (occ t deps)).
Proof.
  induction deps as [| d deps IH]; intros indeg q indeg' q' Hpre Hfold.
  - simpl in Hfold. injection Hfold as <- <-. split.
    + intros t. unfold occ. simpl. lia.
    + exists []. rewrite app_nil_r. split; [reflexivity |]. split; [constructor |].
      intros t. rewrite elem_of_nil. tauto.
  - cbn [fold_left relax] in Hfold.
    set (indeg1 := <[d := indeg_get indeg d - 1]> indeg) in *.
    set (q1 := if indeg_get indeg d - 1 =? 0 then q ++ [d] else q) in *.
    assert (Hd : Z.of_nat (occ d (d :: deps)) <= indeg_get indeg d).
    { apply Hpre. apply elem_of_cons. left. reflexivity. }
    rewrite occ_cons in Hd. destruct (decide (d = d)) as [_ | Hdd]; [| congruence].
    assert (Hind1 : forall t, indeg_get indeg1 t
                           = if decide (d = t) then indeg_get indeg d - 1 else indeg_get indeg t).
    { intros t. unfold indeg1. apply indeg_get_insert. }
    assert (Hpre1 : forall t, t ∈ deps -> Z.of_nat (occ t deps) <= indeg_get indeg1 t).
    { intros t Ht. rewrite Hind1. destruct (decide (d = t)) as [<- | Hne]; [lia |].
      assert (Ht' : t ∈ d :: deps) by (apply elem_of_cons; right; exact Ht).
      specialize (Hpre t Ht'). rewrite occ_cons in Hpre.
      destruct (decide (d = t)); [congruence | simpl in Hpre; lia]. }
    destruct (IH indeg1 q1 indeg' q' Hpre1 Hfold) as (Hval & L1 & Hq' & HnoL1 & HL1).
    split.
    + intros t. rewrite Hval, Hind1, occ_cons.
      destruct (decide (d = t)) as [<- | Hne]; simpl; lia.
    + destruct (Z.eqb_spec (indeg_get indeg d - 1) 0) as [Hz | Hnz].
      * exists (d :: L1). subst q1. rewrite Hq', <- app_assoc. split; [reflexivity |].
        assert (Hocc0 : occ d deps = 0%nat) by lia.
        split.
        { constructor; [| exact HnoL1]. intros Hin. apply HL1 in Hin as [Hin _].
          apply occ_pos_elem_of in Hin. lia. }
        intros t. rewrite elem_of_cons, HL1, Hind1, occ_cons, elem_of_cons.
        destruct (decide (d = t)) as [<- | Hne].
        { split; [intros _; split; [left; reflexivity | simpl; lia] | auto]. }
        simpl. split.
        { intros [Heq | [Hin Hv]]; [congruence | split; [right; exact Hin | exact Hv]]. }
        intros [[Heq | Hin] Hv]; [congruence | right; split; assumption].
      * exists L1. subst q1. split; [exact Hq' |]. split; [exact HnoL1 |].
        intros t. rewrite HL1, Hind1, occ_cons, elem_of_cons.
        destruct (decide (d = t)) as [<- | Hne].
        { split.
          - intros [Hin Hv]. split; [left; reflexivity | simpl; lia].
          - intros [_ Hv]. simpl in Hv. split; [| lia].
            apply occ_pos_elem_of. lia. }
        simpl. split.
        { intros [Hin Hv]. split; [right; exact Hin | exact Hv]. }
        intros [[Heq | Hin] Hv]; [congruence | split; assumption].
Qed.

Section TableOrder_refines.
Variable s : Schema.

Lemma add_edge_fold (name : string) (fks : list ForeignKey) :
  forall graph indeg graph' indeg',
    fold_left (add_edge s name) fks (graph, indeg) = (graph', indeg') ->
    let ps := filter (fun p => is_Some (Tables s !! p)) (map RefTable fks) in
    (forall p, graph_get graph' p = graph_get graph p ++ repeat name (occ p ps)) /\
    (forall c, indeg_get indeg' c
               = indeg_get indeg c + if decide (c = name) then Z.of_nat (length ps) else 0).
Proof.
  induction fks as [| fk fks IH]; intros graph indeg graph' indeg' Hfold ps.
  - simpl in Hfold. injection Hfold as <- <-. subst ps. simpl. split.
    + intros p. unfold occ. simpl. rewrite app_nil_r. reflexivity.
    + intros c. destruct (decide (c = name)); lia.
  - cbn [fold_left map] in Hfold. subst ps. cbn [map]. rewrite filter_cons.
    unfold add_edge at 2 in Hfold.
    destruct (Tables s !! RefTable fk) as [tbl |] eqn:Hparent.
    + destruct (decide (is_Some (Some tbl))) as [_ | Hno]; [| exfalso; apply Hno; eauto].
      apply IH in Hfold as [Hg Hi]. split.
      * intros p. rewrite Hg, graph_get_insert, occ_cons.
        destruct (decide (RefTable fk = p)) as [-> | Hne]; [| reflexivity].
        rewrite <- app_assoc. reflexivity.
      * intros c. rewrite Hi, indeg_get_insert.
        destruct (decide (name = c)) as [<- | Hne].
        -- destruct (decide (name = name)); [| congruence]. cbn [length]. lia.
        -- destruct (decide (c = name)); [congruence | lia].
    + destruct (decide (is_Some (@None Table))) as [[x Hx] | _]; [discriminate |].
      apply IH in Hfold. exact Hfold.
Qed.

Lemma add_edges_spec (name : string) graph indeg graph' indeg' :
  add_edges s (graph, indeg) name = (graph', indeg') ->
  (forall p, graph_get graph' p
             = graph_get graph p ++ repeat name (occ p (parents s name))) /\
  (forall c, indeg_get indeg' c
             = indeg_get indeg c
               + if decide (c = name) then Z.of_nat (length (parents s name)) else 0).
Proof.
  unfold add_edges, parents. destruct (Tables s !! name) as [tbl |].
  - apply add_edge_fold.
  - intros Heq. injection Heq as <- <-. split.
    + intros p. unfold occ. simpl. rewrite app_nil_r. reflexivity.
    + intros c. destruct (decide (c = name)); simpl; lia.
Qed.

Lemma add_edges_fold (it : list string) :
  forall graph indeg graph' indeg',
    NoDup it ->
    fold_left (add_edges s) it (graph, indeg) = (graph', indeg') ->
    (forall p c, occ c (graph_get graph' p)
                 = (occ c (graph_get graph p)
                    + if decide (c ∈ it) then occ p (parents s c) else 0)%nat) /\
    (forall c, indeg_get indeg' c
               = indeg_get indeg c
                 + if decide (c ∈ it) then Z.of_nat (length (parents s c)) else 0).
Proof.
  induction it as [| name it IH]; intros graph indeg graph' indeg' Hnd Hfold.
  - simpl in Hfold. injection Hfold as <- <-. split.
    + intros p c. destruct (decide (c ∈ [])) as [Hin | _]; [inversion Hin | lia].
    + intros c. destruct (decide (c ∈ [])) as [Hin | _]; [inversion Hin | lia].
  - cbn [fold_left] in Hfold. apply NoDup_cons in Hnd as [Hname Hnd].
    destruct (add_edges s (graph, indeg) name) as [graph1 indeg1] eqn:Hstep.
    apply add_edges_spec in Hstep as [Hg1 Hi1].
    destruct (IH _ _ _ _ Hnd Hfold) as [Hg Hi]. split.
    + intros p c. rewrite Hg, Hg1, occ_app, occ_repeat.
      destruct (decide (name = c)) as [<- | Hne].
      * destruct (decide (name ∈ it)); [contradiction |].
        destruct (decide (name ∈ name :: it)) as [_ | Hno]; [lia |].
        exfalso. apply Hno. apply elem_of_cons. left. reflexivity.
      * destruct (decide (c ∈ it)) as [Hin | Hnin].
        -- destruct (decide (c ∈ name :: it)) as [_ | Hno]; [lia |].
           exfalso. apply Hno. apply elem_of_cons. right. exact Hin.
        -- destruct (decide (c ∈ name :: it)) as [Hyes | _]; [| lia].
           apply elem_of_cons in Hyes as [Heq | Hin]; [congruence | contradiction].
    + intros c. rewrite Hi, Hi1.
      destruct (decide (c = name)) as [-> | Hne].
      * destruct (decide (name ∈ it)); [contradiction |].
        destruct (decide (name ∈ name :: it)) as [_ | Hno]; [lia |].
        exfalso. apply Hno. apply elem_of_cons. left. reflexivity.
      * destruct (decide (c ∈ it)) as [Hin | Hnin].
        -- destruct (decide (c ∈ name :: it)) as [_ | Hno]; [lia |].
           exfalso. apply Hno. apply elem_of_cons. right. exact Hin.
        -- destruct (decide (c ∈ name :: it)) as [Hyes | _]; [| lia].
           apply elem_of_cons in Hyes as [Heq | Hin]; [congruence | contradiction].
Qed.

Lemma names_elem t : t ∈ names s <-> is_Some (Tables s !! t).
Proof.
  unfold names. rewrite sort_Strings_elem_of, elem_of_elements, elem_of_dom. reflexivity.
Qed.

Lemma names_NoDup : NoDup (names s).
Proof. unfold names. rewrite sort_Strings_Permutation. apply NoDup_elements. Qed.

Lemma names_Sorted : Sorted str_le (names s).
Proof. apply sort_Strings_Sorted. Qed.

Lemma names_length : length (names s) = size (Tables s).
Proof.
  unfold names. rewrite sort_Strings_Permutation.
  change (length (elements (dom (Tables s)))) with (size (dom (Tables s))).
  apply size_dom.
Qed.

Lemma range_of_names (it : list string) t :
  range_of (Tables s) it -> t ∈ it <-> t ∈ names s.
Proof. intros [_ Hit]. rewrite Hit, names_elem. reflexivity. Qed.

Lemma parents_table t p : p ∈ parents s t -> is_Some (Tables s !! t) /\ is_Some (Tables s !! p).
Proof.
  unfold parents. destruct (Tables s !! t) as [tbl |]; [| intros Hin; inversion Hin].
  intros Hin. apply list_elem_of_filter in Hin as [Hp _]. split; [eauto | exact Hp].
Qed.

Lemma parents_no_table t : Tables s !! t = None -> parents s t = [].
Proof. unfold parents. intros ->. reflexivity. Qed.

Lemma ready_elem done t :
  t ∈ ready s done
  <-> t ∈ names s /\ (t ∉ done) /\ Forall (fun p => p ∈ done) (parents s t).
Proof. unfold ready. rewrite list_elem_of_filter. tauto. Qed.

Lemma ready_NoDup done : NoDup (ready s done).
Proof. apply NoDup_filter, names_NoDup. Qed.

Lemma ready_Sorted done : Sorted str_le (ready s done).
Proof. apply sorted_filter, names_Sorted. Qed.

(** The first loop: every count starts at zero. *)
Lemma indeg_init (it : list string) :
  forall indeg, (forall k, indeg_get indeg k = 0) ->
    forall k, indeg_get (fold_left (fun indeg name => <[name := 0]> indeg) it indeg) k = 0.
Proof.
  induction it as [| name it IH]; intros indeg Hz k; [apply Hz |].
  cbn [fold_left]. apply IH. intros k'. rewrite indeg_get_insert.
  destruct (decide (name = k')); [reflexivity | apply Hz].
Qed.

(** The third loop collects the tables without a pending parent. *)
Lemma queue_init (indeg : gmap string Z) (it : list string) :
  forall q,
    fold_left (fun queue name =>
                 if indeg_get indeg name =? 0 then queue ++ [name] else queue) it q
    = q ++ filter (fun name => indeg_get indeg name = 0) it.
Proof.
  induction it as [| name it IH]; intros q; [simpl; rewrite app_nil_r; reflexivity |].
  cbn [fold_left]. rewrite IH, filter_cons.
  destruct (Z.eqb_spec (indeg_get indeg name) 0) as [Hz | Hnz].
  - destruct (decide (indeg_get indeg name = 0)); [| contradiction].
    rewrite <- app_assoc. reflexivity.
  - destruct (decide (indeg_get indeg name = 0)); [contradiction | reflexivity].
Qed.

(** The fourth loop collects the tables that were not emitted. *)
Lemma missing_init (order it : list string) :
  forall q,
    fold_left (fun missing name =>
                 if decide (name ∈ order) then missing else missing ++ [name]) it q
    = q ++ filter (fun name => name ∉ order) it.
Proof.
  induction it as [| name it IH]; intros q; [simpl; rewrite app_nil_r; reflexivity |].
  cbn [fold_left]. rewrite IH, filter_cons.
  destruct (decide (name ∈ order)) as [Hin | Hnin].
  - destruct (decide (name ∉ order)); [contradiction | reflexivity].
  - destruct (decide (name ∉ order)); [| contradiction].
    rewrite <- app_assoc. reflexivity.
Qed.

(** The state of the main loop against the specification: the counts are
    the numbers of pending parents, and what was emitted is a duplicate-free
    list of tables that is closed under parents. *)
Record Inv (indeg : gmap string Z) (order : list string) : Prop := {
  inv_indeg : forall t, indeg_get indeg t = Z.of_nat (length (pending s order t));
  inv_nodup : NoDup order;
  inv_names : forall t, t ∈ order -> t ∈ names s;
  inv_closed : forall t, t ∈ order -> Forall (fun p => p ∈ order) (parents s t);
}.

(** The edges out of a table, as the second loop leaves them. *)
Definition graph_ok (graph : gmap string (list string)) : Prop :=
  forall p c, occ c (graph_get graph p) = occ p (parents s c).

Lemma pending_zero done t :
  length (pending s done t) = 0%nat <-> Forall (fun p => p ∈ done) (parents s t).
Proof.
  unfold pending. rewrite <- pending_nil_Forall. apply length_zero_iff_nil.
Qed.

Lemma pending_snoc order n t :
  n ∉ order ->
  length (pending s order t)
  = (length (pending s (order ++ [n]) t) + occ n (parents s t))%nat.
Proof. intros Hn. unfold pending. apply pending_snoc_length. exact Hn. Qed.

(** One iteration of the main loop keeps the invariant, and the sorted
    queue is again the list of ready tables. *)
Lemma kahn_step graph indeg order n q indeg' q' :
  graph_ok graph -> Inv indeg order -> ready s order = n :: q ->
  fold_left relax (graph_get graph n) (indeg, q) = (indeg', q') ->
  Inv indeg' (order ++ [n]) /\ sort_Strings q' = ready s (order ++ [n]).
Proof.
  intros Hgraph [Hindeg Hnodup Hnames Hclosed] Hready Hfold.
  assert (Hn : n ∈ ready s order) by (rewrite Hready; apply elem_of_cons; left; reflexivity).
  apply ready_elem in Hn as (Hn_name & Hn_new & Hn_parents).
  pose proof (ready_NoDup order) as Hrnd. rewrite Hready in Hrnd.
  apply NoDup_cons in Hrnd as [Hn_q Hq_nd].
  assert (Hq : forall t, t ∈ q -> t ∈ ready s order).
  { intros t Ht. rewrite Hready. apply elem_of_cons. right. exact Ht. }
  assert (Hpre : forall t, t ∈ graph_get graph n ->
                           Z.of_nat (occ t (graph_get graph n)) <= indeg_get indeg t).
  { intros t _. rewrite Hgraph, Hindeg, (pending_snoc order n t Hn_new). lia. }
  destruct (relax_fold _ _ _ _ _ Hpre Hfold) as (Hval & L & -> & HL_nd & HL).
  assert (Hindeg' : forall t,
             indeg_get indeg' t = Z.of_nat (length (pending s (order ++ [n]) t))).
  { intros t. rewrite Hval, Hgraph, Hindeg, (pending_snoc order n t Hn_new). lia. }
  assert (Hsub : forall t, t ∈ order -> t ∈ order ++ [n]).
  { intros t Ht. apply elem_of_app. left. exact Ht. }
  assert (HL' : forall t, t ∈ L <->
             (0 < occ n (parents s t))%nat /\ length (pending s (order ++ [n]) t) = 0%nat).
  { intros t. rewrite HL, <- occ_pos_elem_of, Hgraph, Hindeg,
      (pending_snoc order n t Hn_new). lia. }
  split.
  - constructor.
    + exact Hindeg'.
    + apply NoDup_app. split; [exact Hnodup |]. split; [| apply NoDup_singleton].
      intros t Ht Hin. apply list_elem_of_singleton in Hin. subst t. contradiction.
    + intros t Ht. apply elem_of_app in Ht as [Ht | Ht]; [apply Hnames; exact Ht |].
      apply list_elem_of_singleton in Ht. subst t. exact Hn_name.
    + intros t Ht. apply elem_of_app in Ht as [Ht | Ht].
      * eapply Forall_impl; [apply Hclosed; exact Ht | exact Hsub].
      * apply list_elem_of_singleton in Ht. subst t.
        eapply Forall_impl; [exact Hn_parents | exact Hsub].
  - apply sorted_strings_unique.
    + apply sort_Strings_Sorted.
    + apply ready_Sorted.
    + rewrite sort_Strings_Permutation. apply NoDup_app.
      split; [exact Hq_nd |]. split; [| exact HL_nd].
      intros t Ht HtL. apply HL' in HtL as [Hpos _].
      apply Hq, ready_elem in Ht as (_ & _ & Hpar).
      apply pending_zero in Hpar.
      pose proof (pending_snoc order n t Hn_new). lia.
    + apply ready_NoDup.
    + intros t. rewrite sort_Strings_elem_of, elem_of_app, ready_elem. split.
      * intros [Ht | Ht].
        -- pose proof (Hq t Ht) as Hr. apply ready_elem in Hr as (Hname & Hnew & Hpar).
           split; [exact Hname |]. split.
           ++ intros Hin. apply elem_of_app in Hin as [Hin | Hin]; [contradiction |].
              apply list_elem_of_singleton in Hin. subst t. contradiction.
           ++ eapply Forall_impl; [exact Hpar | exact Hsub].
        -- apply HL' in Ht as [Hpos Hzero].
           assert (Hlen : (0 < length (pending s order t))%nat).
           { rewrite (pending_snoc order n t Hn_new). lia. }
           apply occ_pos_elem_of, parents_table in Hpos as [Htable _].
           split; [apply names_elem; exact Htable |]. split.
           ++ intros Hin. apply elem_of_app in Hin as [Hin | Hin].
              ** apply Hclosed, pending_zero in Hin. lia.
              ** apply list_elem_of_singleton in Hin. subst t.
                 apply pending_zero in Hn_parents. lia.
           ++ apply pending_zero. exact Hzero.
      * intros (Hname & Hnew & Hpar).
        apply pending_zero in Hpar.
        destruct (Nat.eq_dec (length (pending s order t)) 0%nat) as [Hz | Hnz].
        -- left. assert (Hr : t ∈ ready s order).
           { apply ready_elem. split; [exact Hname |]. split.
             - intros Hin. apply Hnew, Hsub, Hin.
             - apply pending_zero. exact Hz. }
           rewrite Hready in Hr. apply elem_of_cons in Hr as [-> | Hr]; [| exact Hr].
           exfalso. apply Hnew. apply elem_of_app. right.
           apply list_elem_of_singleton. reflexivity.
        -- right. apply HL'. split; [| exact Hpar].
           pose proof (pending_snoc order n t Hn_new). lia.
Qed.

(** The main loop computes what the specification emits, provided the
    fuel lets the specification run until no table is ready. *)
Lemma kahn_refines fuel :
  forall graph indeg order,
    graph_ok graph -> Inv indeg order ->
    kahn fuel graph indeg (ready s order) order
    = if decide (ready s (kahn_spec fuel s order) = [])
      then Some (kahn_spec fuel s order) else None.
Proof.
  induction fuel as [| fuel IH]; intros graph indeg order Hgraph Hinv.
  - cbn [kahn kahn_spec]. destruct (ready s order) as [| n q]; [reflexivity |].
    destruct (decide (n :: q = [])); [discriminate | reflexivity].
  - cbn [kahn kahn_spec]. destruct (ready s order) as [| n q] eqn:Hready.
    + rewrite Hready. reflexivity.
    + destruct (fold_left relax (graph_get graph n) (indeg, q)) as [indeg' q'] eqn:Hfold.
      destruct (kahn_step _ _ _ _ _ _ _ Hgraph Hinv Hready Hfold) as [Hinv' Hq'].
      rewrite Hq'. apply IH; assumption.
Qed.

Lemma ready_nil_all done :
  (forall t, t ∈ names s -> t ∈ done) -> ready s done = [].
Proof.
  intros Hall. destruct (ready s done) as [| x l] eqn:Hr; [reflexivity |].
  assert (Hx : x ∈ ready s done) by (rewrite Hr; apply elem_of_cons; left; reflexivity).
  apply ready_elem in Hx as (Hname & Hnew & _). exfalso. apply Hnew, Hall, Hname.
Qed.

Lemma covers_names done :
  NoDup done -> (forall t, t ∈ done -> t ∈ names s) ->
  (length (names s) <= length done)%nat ->
  forall t, t ∈ names s -> t ∈ done.
Proof.
  intros Hnd Hsub Hlen t Ht.
  assert (Hperm : done ≡ₚ names s).
  { apply submseteq_length_Permutation; [| exact Hlen].
    apply NoDup_submseteq; assumption. }
  rewrite Hperm. exact Ht.
Qed.

(** With as much fuel as there are tables left, the specification stops
    only when no table is ready. *)
Lemma kahn_spec_done fuel :
  forall done,
    NoDup done -> (forall t, t ∈ done -> t ∈ names s) ->
    (length (names s) <= length done + fuel)%nat ->
    ready s (kahn_spec fuel s done) = [].
Proof.
  induction fuel as [| fuel IH]; intros done Hnd Hsub Hlen; cbn [kahn_spec].
  - apply ready_nil_all, covers_names; [assumption | assumption | lia].
  - destruct (ready s done) as [| n q] eqn:Hready; [exact Hready |].
    assert (Hn : n ∈ ready s done) by (rewrite Hready; apply elem_of_cons; left; reflexivity).
    apply ready_elem in Hn as (Hname & Hnew & _).
    apply IH.
    + apply NoDup_app. split; [exact Hnd |]. split; [| apply NoDup_singleton].
      intros t Ht Hin. apply list_elem_of_singleton in Hin. subst t. contradiction.
    + intros t Ht. apply elem_of_app in Ht as [Ht | Ht]; [apply Hsub; exact Ht |].
      apply list_elem_of_singleton in Ht. subst t. exact Hname.
    + rewrite length_app. simpl. lia.
Qed.

Lemma kahn_order_done : ready s (kahn_order s) = [].
Proof.
  apply kahn_spec_done.
  - constructor.
  - intros t Ht. inversion Ht.
  - rewrite names_length. simpl. lia.
Qed.

(** Every table the specification emits was, at its turn, the first of
    the ready tables. *)
Definition greedy (done : list string) : Prop :=
  forall l1 n l2, done = l1 ++ n :: l2 -> exists q, ready s l1 = n :: q.

Lemma greedy_snoc done n q :
  greedy done -> ready s done = n :: q -> greedy (done ++ [n]).
Proof.
  intros Hg Hready l1 x l2 Heq.
  destruct l2 as [| y l2 _] using rev_ind.
  - apply app_inj_tail in Heq as [-> ->]. exists q. exact Hready.
  - rewrite app_comm_cons, app_assoc in Heq.
    apply app_inj_tail in Heq as [Heq _]. apply (Hg l1 x l2). exact Heq.
Qed.

Lemma kahn_spec_greedy fuel :
  forall done, greedy done -> greedy (kahn_spec fuel s done).
Proof.
  induction fuel as [| fuel IH]; intros done Hg; cbn [kahn_spec]; [exact Hg |].
  destruct (ready s done) as [| n q] eqn:Hready; [exact Hg |].
  apply IH. eapply greedy_snoc; eassumption.
Qed.

Lemma kahn_order_greedy : greedy (kahn_order s).
Proof.
  apply kahn_spec_greedy. intros l1 n l2 Heq. destruct l1; discriminate.
Qed.

Lemma pending_nil t : pending s [] t = parents s t.
Proof.
  unfold pending. induction (parents s t) as [| p l IH]; [reflexivity |].
  rewrite filter_cons. destruct (decide (p ∉ [])) as [_ | Hno].
  - rewrite IH. reflexivity.
  - exfalso. apply Hno. intros Hin. inversion Hin.
Qed.

Lemma not_range_parents (it : list string) c :
  range_of (Tables s) it -> c ∉ it -> parents s c = [].
Proof.
  intros [_ Hit] Hc. apply parents_no_table.
  destruct (Tables s !! c) eqn:Hl; [| reflexivity].
  exfalso. apply Hc, Hit. eauto.
Qed.

Lemma greedy_head l1 n l2 :
  greedy (l1 ++ n :: l2) ->
  n ∈ names s /\ (n ∉ l1) /\ Forall (fun p => p ∈ l1) (parents s n) /\
  forall m, m ∈ ready s l1 -> str_le n m.
Proof.
  intros Hg. destruct (Hg l1 n l2 eq_refl) as [q Hq].
  assert (Hn : n ∈ ready s l1) by (rewrite Hq; apply elem_of_cons; left; reflexivity).
  apply ready_elem in Hn as (Hname & Hnew & Hpar).
  split; [exact Hname |]. split; [exact Hnew |]. split; [exact Hpar |].
  intros m Hm. rewrite Hq in Hm. apply elem_of_cons in Hm as [-> | Hm].
  - destruct (str_le_total n n); assumption.
  - pose proof (ready_Sorted l1) as Hs. rewrite Hq in Hs.
    apply Sorted_StronglySorted in Hs; [| apply _].
    apply StronglySorted_inv in Hs as [_ Hall].
    rewrite Forall_forall in Hall. apply Hall. exact Hm.
Qed.

Lemma greedy_NoDup done : greedy done -> NoDup done.
Proof.
  induction done as [| x l IH] using rev_ind; intros Hg; [constructor |].
  apply NoDup_app. split.
  - apply IH. intros l1 n l2 Heq. apply (Hg l1 n (l2 ++ [x])).
    rewrite Heq, <- app_assoc. reflexivity.
  - split; [| apply NoDup_singleton].
    intros t Ht Hin. apply list_elem_of_singleton in Hin. subst t.
    apply greedy_head in Hg as (_ & Hnew & _). contradiction.
Qed.

Lemma kahn_order_NoDup : NoDup (kahn_order s).
Proof. apply greedy_NoDup, kahn_order_greedy. Qed.

Lemma kahn_order_names t : t ∈ kahn_order s -> t ∈ names s.
Proof.
  intros Ht. apply list_elem_of_split in Ht as (l1 & l2 & Heq).
  pose proof kahn_order_greedy as Hg. rewrite Heq in Hg.
  apply greedy_head in Hg as (Hname & _). exact Hname.
Qed.

(** Whatever the orders in which the four loops meet the tables,
    [TableOrder] returns the order of the specification. *)
Lemma TableOrder_in_spec (it1 it2 it3 it4 : list string) :
  range_of (Tables s) it1 -> range_of (Tables s) it2 ->
  range_of (Tables s) it3 -> range_of (Tables s) it4 ->
  TableOrder_in it1 it2 it3 it4 s = Some (TableOrder_spec s).
Proof.
  intros H1 H2 H3 H4. unfold TableOrder_in.
  set (indeg0 := fold_left (fun indeg name => <[name := 0]> indeg) it1 ∅).
  assert (Hindeg0 : forall k, indeg_get indeg0 k = 0).
  { apply indeg_init. intros k. reflexivity. }
  destruct (fold_left (add_edges s) it2 (∅, indeg0)) as [graph indeg] eqn:Hedges.
  apply add_edges_fold in Hedges as [Hg Hi]; [| apply H2].
  assert (Hgraph : graph_ok graph).
  { intros p c. rewrite Hg. unfold graph_get at 1. rewrite lookup_empty.
    destruct (decide (c ∈ it2)) as [_ | Hc]; [reflexivity |].
    rewrite (not_range_parents it2 c H2 Hc). reflexivity. }
  assert (Hindeg : forall c, indeg_get indeg c = Z.of_nat (length (parents s c))).
  { intros c. rewrite Hi, Hindeg0.
    destruct (decide (c ∈ it2)) as [_ | Hc]; [lia |].
    rewrite (not_range_parents it2 c H2 Hc). reflexivity. }
  assert (Hinv : Inv indeg []).
  { constructor.
    - intros t. rewrite pending_nil. apply Hindeg.
    - constructor.
    - intros t Ht. inversion Ht.
    - intros t Ht. inversion Ht. }
  rewrite queue_init, app_nil_l.
  assert (Hqueue : sort_Strings (filter (fun name => indeg_get indeg name = 0) it3)
                   = ready s []).
  { apply sorted_strings_unique.
    - apply sort_Strings_Sorted.
    - apply ready_Sorted.
    - rewrite sort_Strings_Permutation. apply NoDup_filter, H3.
    - apply ready_NoDup.
    - intros t. rewrite sort_Strings_elem_of, list_elem_of_filter, ready_elem,
        (range_of_names it3 t H3), <- pending_zero, pending_nil, Hindeg.
      split.
      + intros [Hz Hname]. split; [exact Hname |]. split; [| lia].
        intros Hin. inversion Hin.
      + intros (Hname & _ & Hz). split; [lia | exact Hname]. }
  rewrite Hqueue, (kahn_refines _ graph indeg [] Hgraph Hinv).
  fold (kahn_order s). rewrite kahn_order_done.
  destruct (decide ([] = [])) as [_ | Hno]; [| congruence].
  unfold TableOrder_spec.
  destruct (decide (length (kahn_order s) = size (Tables s))) as [Hlen | Hlen].
  - f_equal.
    assert (Hnone : filter (fun t => t ∉ kahn_order s) (names s) = []).
    { destruct (filter _ (names s)) as [| x l] eqn:Hf; [reflexivity |].
      assert (Hx : x ∈ filter (fun t => t ∉ kahn_order s) (names s)).
      { rewrite Hf. apply elem_of_cons. left. reflexivity. }
      apply list_elem_of_filter in Hx as [Hnew Hname].
      exfalso. apply Hnew.
      apply covers_names;
        [apply kahn_order_NoDup | apply kahn_order_names | | exact Hname].
      rewrite names_length. lia. }
    rewrite Hnone, app_nil_r. reflexivity.
  - f_equal. f_equal. rewrite missing_init, app_nil_l.
    apply sorted_strings_unique.
    + apply sort_Strings_Sorted.
    + apply sorted_filter, names_Sorted.
    + rewrite sort_Strings_Permutation. apply NoDup_filter, H4.
    + apply NoDup_filter, names_NoDup.
    + intros t. rewrite sort_Strings_elem_of, !list_elem_of_filter,
        (range_of_names it4 t H4). reflexivity.
Qed.

Lemma TableOrder_spec_NoDup : NoDup (TableOrder_spec s).
Proof.
  unfold TableOrder_spec. apply NoDup_app. split; [apply kahn_order_NoDup |].
  split; [| apply NoDup_filter, names_NoDup].
  intros t Ht Hin. apply list_elem_of_filter in Hin as [Hnew _]. contradiction.
Qed.

Lemma TableOrder_spec_elem t : t ∈ TableOrder_spec s <-> is_Some (Tables s !! t).
Proof.
  unfold TableOrder_spec. rewrite elem_of_app, list_elem_of_filter, <- names_elem. split.
  - intros [Ht | [_ Ht]]; [apply kahn_order_names; exact Ht | exact Ht].
  - intros Ht. destruct (decide (t ∈ kahn_order s)); [left | right]; auto.
Qed.

(** In the part Kahn's algorithm emits, a table comes after its parents. *)
Lemma kahn_order_precedes child parent :
  child ∈ kahn_order s -> parent ∈ parents s child ->
  precedes (TableOrder_spec s) parent child.
Proof.
  intros Hc Hp. apply list_elem_of_split in Hc as (l1 & l2 & Heq).
  pose proof kahn_order_greedy as Hg. rewrite Heq in Hg.
  apply greedy_head in Hg as (_ & _ & Hpar & _).
  rewrite Forall_forall in Hpar. apply Hpar in Hp.
  apply list_elem_of_split in Hp as (a & b & ->).
  exists a, b, (l2 ++ filter (fun t => t ∉ kahn_order s) (names s)).
  unfold TableOrder_spec. rewrite Heq, <- !app_assoc. reflexivity.
Qed.

(** Kahn's algorithm emits every grounded table. *)
Lemma grounded_kahn_order t : grounded s t -> t ∈ kahn_order s.
Proof.
  induction 1 as [t Htable _ IH].
  destruct (decide (t ∈ kahn_order s)) as [Hin | Hnew]; [exact Hin |].
  exfalso. assert (Hr : t ∈ ready s (kahn_order s)).
  { apply ready_elem. split; [apply names_elem; exact Htable |].
    split; [exact Hnew |]. apply Forall_forall. exact IH. }
  rewrite kahn_order_done in Hr. inversion Hr.
Qed.

(** C8. For every order in which the loops of [TableOrder] may meet the
    entries of the table map, the result is the same list, the one of the
    specification: every table of the schema occurs in it exactly once;
    in the part emitted by Kahn's algorithm every table comes after each
    existing table it references, and that part holds every grounded table
    (one neither in a cycle nor behind one); each table emitted there is the
    lexicographically least of the tables ready at its turn; the tables
    left over follow at the end in lexicographic order. *)
Theorem TableOrder_correct (it1 it2 it3 it4 : list string) :
  range_of (Tables s) it1 -> range_of (Tables s) it2 ->
  range_of (Tables s) it3 -> range_of (Tables s) it4 ->
  exists order,
    TableOrder_in it1 it2 it3 it4 s = Some order /\
    order = kahn_order s ++ filter (fun t => t ∉ kahn_order s) (names s) /\
    NoDup order /\
    (forall t, t ∈ order <-> is_Some (Tables s !! t)) /\
    (forall child parent,
        child ∈ kahn_order s -> parent ∈ parents s child ->
        precedes order parent child) /\
    (forall t, grounded s t -> t ∈ kahn_order s) /\
    (forall l1 n l2 m,
        kahn_order s = l1 ++ n :: l2 ->
        m ∈ names s -> m ∉ l1 -> Forall (fun p => p ∈ l1) (parents s m) ->
        str_le n m) /\
    Sorted str_le (filter (fun t => t ∉ kahn_order s) (names s)).
Proof.
  intros H1 H2 H3 H4. exists (TableOrder_spec s).
  split; [apply TableOrder_in_spec; assumption |].
  split; [reflexivity |].
  split; [apply TableOrder_spec_NoDup |].
  split; [apply TableOrder_spec_elem |].
  split; [apply kahn_order_precedes |].
  split; [apply grounded_kahn_order |].
  split; [| apply sorted_filter, names_Sorted].
  intros l1 n l2 m Heq Hname Hnew Hpar.
  pose proof kahn_order_greedy as Hg. rewrite Heq in Hg.
  apply greedy_head in Hg as (_ & _ & _ & Hmin).
  apply Hmin, ready_elem. auto.
Qed.

End TableOrder_refines.
End schema.

(** Evaluations of [TableOrder]. *)
Module schema_tests.

Definition fk (id : Z) (from parent to : string) : schema.ForeignKey :=
  {| schema.ID := id; schema.Seq := 0; schema.RefTable := parent;
     schema.From := from; schema.To := to;
     schema.OnUpdate := "NO ACTION"; schema.OnDelete := "NO ACTION" |}.

Definition table (name : string) (pk : list string) (fks : list schema.ForeignKey)
    : schema.Table :=
  {| schema.Name := name; schema.SQL := "CREATE TABLE"; schema.Columns := [];
     schema.PrimaryKeys := pk; schema.ForeignKeys := fks;
     schema.WithoutRowID := false |}.

Definition schema_of (tables : list schema.Table) : schema.Schema :=
  {| schema.Tables := list_to_map (map (fun t => (schema.Name t, t)) tables);
     schema.Views := []; schema.Indexes := []; schema.Triggers := [] |}.

(** The schema [A], [B(a -> A)], [C(b -> B)]. *)
Definition chain : schema.Schema :=
  schema_of [ table "C" ["id"] [fk 0 "b" "B" "id"];
              table "B" ["id"] [fk 0 "a" "A" "id"];
              table "A" ["id"] [] ].

Example TableOrder_chain :
  schema.TableOrder_in ["C"; "A"; "B"] ["B"; "C"; "A"] ["C"; "B"; "A"] ["A"; "C"; "B"] chain
  = Some ["A"; "B"; "C"].
Proof. vm_compute. reflexivity. Qed.

(** A cycle [X <-> Y] with [Z] behind it and the free table [M]: only [M]
    is emitted by Kahn's algorithm, the rest follows in name order. *)
Definition cyclic : schema.Schema :=
  schema_of [ table "Z" ["id"] [fk 0 "x" "X" "id"];
              table "Y" ["id"] [fk 0 "x" "X" "id"];
              table "X" ["id"] [fk 0 "y" "Y" "id"];
              table "M" ["id"] [] ].

Example TableOrder_cyclic :
  schema.TableOrder_in ["Z"; "Y"; "X"; "M"] ["M"; "X"; "Y"; "Z"]
                       ["Y"; "M"; "Z"; "X"] ["Z"; "X"; "M"; "Y"] cyclic
  = Some ["M"; "X"; "Y"; "Z"].
Proof. vm_compute. reflexivity. Qed.

Lemma range_of_chain (it : list string) :
  NoDup it -> (list_to_set it : gset string) = dom (schema.Tables chain) ->
  schema.range_of (schema.Tables chain) it.
Proof.
  intros Hnd Hdom. split; [exact Hnd |].
  intros k. rewrite <- elem_of_dom, <- Hdom, elem_of_list_to_set. reflexivity.
Qed.

Lemma TableOrder_correct_witness :
  (schema.range_of (schema.Tables chain) ["C"; "A"; "B"] /\
   schema.range_of (schema.Tables chain) ["B"; "C"; "A"] /\
   schema.range_of (schema.Tables chain) ["C"; "B"; "A"] /\
   schema.range_of (schema.Tables chain) ["A"; "C"; "B"]) /\
  exists order,
    schema.TableOrder_in ["C"; "A"; "B"] ["B"; "C"; "A"] ["C"; "B"; "A"] ["A"; "C"; "B"] chain
    = Some order /\
    order = schema.kahn_order chain
            ++ filter (fun t => t ∉ schema.kahn_order chain) (schema.names chain) /\
    NoDup order /\
    (forall t, t ∈ order <-> is_Some (schema.Tables chain !! t)) /\
    (forall child parent,
        child ∈ schema.kahn_order chain -> parent ∈ schema.parents chain child ->
        schema.precedes order parent child) /\
    (forall t, schema.grounded chain t -> t ∈ schema.kahn_order chain) /\
    (forall l1 n l2 m,
        schema.kahn_order chain = l1 ++ n :: l2 ->
        m ∈ schema.names chain -> m ∉ l1 ->
        Forall (fun p => p ∈ l1) (schema.parents chain m) ->
        str_le n m) /\
    Sorted str_le (filter (fun t => t ∉ schema.kahn_order chain) (schema.names chain)).
Proof.
  assert (H1 : schema.range_of (schema.Tables chain) ["C"; "A"; "B"]).
  { apply range_of_chain; [apply (bool_decide_unpack _); vm_compute; exact I |].
    vm_compute. reflexivity. }
  assert (H2 : schema.range_of (schema.Tables chain) ["B"; "C"; "A"]).
  { apply range_of_chain; [apply (bool_decide_unpack _); vm_compute; exact I |].
    vm_compute. reflexivity. }
  assert (H3 : schema.range_of (schema.Tables chain) ["C"; "B"; "A"]).
  { apply range_of_chain; [apply (bool_decide_unpack _); vm_compute; exact I |].
    vm_compute. reflexivity. }
  assert (H4 : schema.range_of (schema.Tables chain) ["A"; "C"; "B"]).
  { apply range_of_chain; [apply (bool_decide_unpack _); vm_compute; exact I |].
    vm_compute. reflexivity. }
  split; [auto |].
  apply (schema.TableOrder_correct chain); assumption.
Defined.

End schema_tests.

(** ** The input database

    The storage engine is seen through the queries the program issues.
    A table holds its rows in storage order; a row has a rowid and one
    cell per column. Two cells are equal for [IN] when neither is null and
    they are the same value. The order of [ORDER BY] and the meaning of a
    [WHERE] fragment taken from the configuration belong to the engine. *)

Record Row `{GoEnv} := {
  row_id : Z;
  row_cells : list (string * Value);
}.

Abbreviation Database := (gmap string (list Row)).

Fixpoint assoc `{GoEnv} (c : string) (cells : list (string * Value)) : option Value :=
  match cells with
  | [] => None
  | (k, v) :: cells => if String.eqb k c then Some v else assoc c cells
  end.

(** The cell of a row under a column name; [rowid] names the rowid unless
    a declared column has that name. *)
Definition cell `{GoEnv} (r : Row) (c : string) : Value :=
  match assoc c (row_cells r) with
  | Some v => v
  | None => if String.eqb c "rowid" then VInt (row_id r) else VNull
  end.

Definition row_tuple `{GoEnv} (cols : list string) (r : Row) : list Value :=
  map (cell r) cols.

Definition is_null `{GoEnv} (v : Value) : bool :=
  match v with VNull => true | _ => false end.

Definition sql_eq `{GoEnv} (a b : Value) : bool :=
  negb (is_null a) && negb (is_null b) && bool_decide (a = b).

(** [(c1, .., cn) = (v1, .., vn)] on the first [n] values of a tuple. *)
Fixpoint tuple_eq `{GoEnv} (cells vals : list Value) : bool :=
  match cells, vals with
  | [], _ => true
  | a :: cells, b :: vals => sql_eq a b && tuple_eq cells vals
  | _ :: _, [] => false
  end.

Definition tuple_in `{GoEnv} (cells : list Value) (tuples : list (list Value)) : bool :=
  existsb (tuple_eq cells) tuples.

Class SqlEngine `{GoEnv} := {
  (** [a <= b] in the order of [ORDER BY]. *)
  sql_le : Value -> Value -> bool;
  (** The rows a [WHERE] fragment keeps; [None] when it does not compile. *)
  sql_where : string -> option (Row -> bool);
}.

(** The order of integer, text and null cells in the small run time:
    null first, then integers by value, then text byte by byte. *)
Definition test_sql_le (a b : @Value testEnv) : bool :=
  match a, b with
  | VNull, _ => true
  | _, VNull => false
  | VInt x, VInt y => x <=? y
  | VInt _, _ => true
  | _, VInt _ => false
  | VText x, VText y => str_leb x y
  | _, _ => true
  end.

(** The [WHERE] fragments of the examples. *)
Definition test_sql_where (w : string) : option (@Row testEnv -> bool) :=
  if String.eqb w "country = 'US'"
  then Some (fun r => bool_decide (@cell testEnv r "country" = @VText testEnv "US"))
  else None.

Definition testSql : @SqlEngine testEnv :=
  {| sql_le := test_sql_le; sql_where := test_sql_where |}.

(** ** [internal/subset]: the subset solver *)

Module subset.
Section Subset.
Context `{GoEnv} `{!SqlEngine}.

(** [for _, x := range l] with a fallible body. *)
Fixpoint rfold {A B} (f : B -> A -> result B) (l : list A) (b : B) : result B :=
  match l with
  | [] => Ok b
  | a :: l => let* b := f b a in rfold f l b
  end.

Fixpoint rmap {A B} (f : A -> result B) (l : list A) : result (list B) :=
  match l with
  | [] => Ok []
  | a :: l => let* b := f a in let* bs := rmap f l in Ok (b :: bs)
  end.

Record PKSet := {
  Cols : list string;
  Keys : gset string;
  Values : list (list Value);
}.

(** [Selection.Sets]; a [*PKSet] once stored under a name is never
    replaced, so the pointer is the map entry. *)
Abbreviation Selection := (gmap string PKSet).

Definition NewPKSet (cols : list string) : PKSet :=
  {| Cols := cols; Keys := ∅; Values := [] |}.

Definition Add (s : PKSet) (values : list Value) : PKSet * bool :=
  let key := keyFor values in
  if bool_decide (key ∈ Keys s) then (s, false)
  else ({| Cols := Cols s; Keys := {[key]} ∪ Keys s; Values := Values s ++ [values] |},
        true).

Definition Len (s : PKSet) : Z := Z.of_nat (length (Values s)).

(** [colIndex[c]] after [for i, c := range s.Cols { colIndex[c] = i }]. *)
Definition colIndex (cols : list string) (c : string) : option nat :=
  fold_left (fun found '(i, x) => if String.eqb x c then Some i else found)
            (combine (seq 0 (length cols)) cols) None.

Definition ValuesByColumns (s : PKSet) (cols : list string) : result (list (list Value)) :=
  if bool_decide (cols = []) then Err "no columns requested"
  else if bool_decide (cols = Cols s) then Ok (Values s)
  else
    let* idx := rmap (fun c => match colIndex (Cols s) c with
                               | Some pos => Ok pos
                               | None => Err ("missing column " ++ c)
                               end) cols in
    rmap (fun row =>
            rmap (fun pos => match row !! pos with
                             | Some v => Ok v
                             | None => Panic "index out of range"
                             end) idx)
         (Values s).

Definition tablePKColumns (tbl : schema.Table) : result (list string * bool) :=
  if bool_decide (schema.PrimaryKeys tbl = []) then
    if schema.WithoutRowID tbl
    then Err ("table " ++ schema.Name tbl ++ " has no primary key")
    else Ok (["rowid"], true)
  else Ok (schema.PrimaryKeys tbl, false).

Record FKGroup := {
  RefTable : string;
  FromCols : list string;
  ToCols : list string;
}.

Definition groupFKs (tbl : schema.Table) : list FKGroup :=
  let '(byID, order) :=
    fold_left
      (fun '(byID, order) fk =>
         match (byID : gmap Z FKGroup) !! schema.ID fk with
         | Some group =>
             (<[schema.ID fk :=
                  {| RefTable := RefTable group;
                     FromCols := FromCols group ++ [schema.From fk];
                     ToCols := ToCols group ++ [schema.To fk] |}]> byID,
              order)
         | None =>
             (<[schema.ID fk :=
                  {| RefTable := schema.RefTable fk;
                     FromCols := [schema.From fk];
                     ToCols := [schema.To fk] |}]> byID,
              order ++ [schema.ID fk])
         end)
      (schema.ForeignKeys tbl) (∅, []) in
  omap (fun id => byID !! id) (merge_sort Z.le order).

(** *** The queries *)

(** A column the table has: a declared one, or the rowid of a rowid table. *)
Definition has_col (tbl : schema.Table) (c : string) : bool :=
  existsb (fun col => String.eqb (schema.ColName col) c) (schema.Columns tbl)
  || (String.eqb c "rowid" && negb (schema.WithoutRowID tbl)).

(** [FROM name], for a statement on the table [tbl] that names the
    columns [cols]. *)
Definition from_table (db : Database) (name : string) (tbl : schema.Table)
    (cols : list string) : result (list Row) :=
  match db !! name with
  | None => Err ("no such table: " ++ name)
  | Some rows =>
      if forallb (has_col tbl) cols then Ok rows else Err "no such column"
  end.

(** [ORDER BY cols]: tuples are compared cell by cell. *)
Fixpoint tuple_le (a b : list Value) : bool :=
  match a, b with
  | x :: a, y :: b =>
      if sql_le x y then (if sql_le y x then tuple_le a b else true) else false
  | _, _ => true
  end.

Definition row_le (cols : list string) (r1 r2 : Row) : Prop :=
  tuple_le (row_tuple cols r1) (row_tuple cols r2) = true.

#[export] Instance row_le_dec cols : RelDecision (row_le cols).
Proof. intros r1 r2. unfold row_le. apply _. Defined.

Definition order_by (cols : list string) (rows : list Row) : list Row :=
  merge_sort (row_le cols) rows.

(** [buildTupleIn]: the rows whose [cols] are one of the tuples; a tuple
    shorter than [cols] is indexed out of range. *)
Definition buildTupleIn (cols : list string) (values : list (list Value))
    : result (Row -> bool) :=
  if bool_decide (cols = []) then Err "syntax error"
  else if forallb (fun v => Nat.leb (length cols) (length v)) values
  then Ok (fun r => tuple_in (row_tuple cols r) values)
  else Panic "index out of range".

(** [notNullClause]. *)
Definition notNull (cols : list string) (r : Row) : bool :=
  forallb (fun c => negb (is_null (cell r c))) cols.

Fixpoint chunk_loop {A} (fuel size : nat) (values : list A) : list (list A) :=
  match fuel, values with
  | O, _ => []
  | _, [] => []
  | S fuel, _ => firstn size values :: chunk_loop fuel size (skipn size values)
  end.

Definition chunkValues {A} (values : list A) (size : Z) : list (list A) :=
  if (size <=? 0) || (Z.of_nat (length values) <=? size) then [values]
  else chunk_loop (length values) (Z.to_nat size) values.

(** [for rows.Next() { if set.Add(vals) { added = true } }]. *)
Definition add_rows (st : PKSet * bool) (rows : list (list Value)) : PKSet * bool :=
  fold_left (fun '(set, added) vals =>
               let '(set, ok) := Add set vals in (set, added || ok))
            rows st.

(** [SELECT DISTINCT from FROM child WHERE pk IN (chunk) AND from IS NOT NULL]. *)
Definition fk_value_query (db : Database) (childTbl : schema.Table) (fk : FKGroup)
    (pkCols : list string) (chunk : list (list Value)) : result (list (list Value)) :=
  let* whereIn := buildTupleIn pkCols chunk in
  let* rows := from_table db (schema.Name childTbl) childTbl (FromCols fk ++ pkCols) in
  let found := List.filter (fun r => whereIn r && notNull (FromCols fk) r) rows in
  Ok (remove_dups (map (row_tuple (FromCols fk)) found)).

Definition selectFKValues (db : Database) (childTbl : schema.Table) (fk : FKGroup)
    (childSet : PKSet) : result (list (list Value)) :=
  let* (pkCols, useRowID) := tablePKColumns childTbl in
  let* childPKVals := ValuesByColumns childSet pkCols in
  if bool_decide (childPKVals = []) then Ok []
  else
    rfold (fun results chunk =>
             let* found := fk_value_query db childTbl fk pkCols chunk in
             Ok (results ++ found))
          (chunkValues childPKVals 500) [].

(** [SELECT pk FROM parent WHERE to IN (chunk)]. *)
Definition parent_pk_query (db : Database) (parentTbl : schema.Table) (fk : FKGroup)
    (pkCols : list string) (chunk : list (list Value)) : result (list (list Value)) :=
  let* whereIn := buildTupleIn (ToCols fk) chunk in
  let* rows := from_table db (schema.Name parentTbl) parentTbl (pkCols ++ ToCols fk) in
  Ok (map (row_tuple pkCols) (List.filter whereIn rows)).

Definition selectParentPKs (db : Database) (parentTbl : schema.Table) (fk : FKGroup)
    (refVals : list (list Value)) (parentSet : PKSet) : result (PKSet * bool) :=
  let* (pkCols, useRowID) := tablePKColumns parentTbl in
  rfold (fun st chunk =>
           let* rows := parent_pk_query db parentTbl fk pkCols chunk in
           Ok (add_rows st rows))
        (chunkValues refVals 500) (parentSet, false).

(** [SELECT DISTINCT pk FROM child WHERE from IN (chunk)]. *)
Definition child_pk_query (db : Database) (childTbl : schema.Table) (fk : FKGroup)
    (pkCols : list string) (chunk : list (list Value)) : result (list (list Value)) :=
  let* whereIn := buildTupleIn (FromCols fk) chunk in
  let* rows := from_table db (schema.Name childTbl) childTbl (pkCols ++ FromCols fk) in
  Ok (remove_dups (map (row_tuple pkCols) (List.filter whereIn rows))).

Definition sameColumnOrder (a b : list string) : bool := bool_decide (a = b).

Definition addParentKeys (db : Database) (parentTbl : schema.Table) (fk : FKGroup)
    (refVals : list (list Value)) (sel : Selection) : result (Selection * bool) :=
  if bool_decide (refVals = []) then Ok (sel, false)
  else
    let* (parentSet, sel) :=
      match sel !! RefTable fk with
      | Some parentSet => Ok (parentSet, sel)
      | None =>
          let* (pkCols, _) := tablePKColumns parentTbl in
          Ok (NewPKSet pkCols, <[RefTable fk := NewPKSet pkCols]> sel)
      end in
    if sameColumnOrder (Cols parentSet) (ToCols fk) then
      let '(parentSet, added) := add_rows (parentSet, false) refVals in
      Ok (<[RefTable fk := parentSet]> sel, added)
    else
      let* (parentSet, added) := selectParentPKs db parentTbl fk refVals parentSet in
      Ok (<[RefTable fk := parentSet]> sel, added).

Definition addChildKeys (db : Database) (childTbl : schema.Table) (fk : FKGroup)
    (parentSet : PKSet) (sel : Selection) : result (Selection * bool) :=
  let* (pkCols, useRowID) := tablePKColumns childTbl in
  let '(childSet, sel) :=
    match sel !! schema.Name childTbl with
    | Some childSet => (childSet, sel)
    | None => (NewPKSet pkCols, <[schema.Name childTbl := NewPKSet pkCols]> sel)
    end in
  let* parentVals := ValuesByColumns parentSet (ToCols fk) in
  if bool_decide (parentVals = []) then Ok (sel, false)
  else
    let* (childSet, added) :=
      rfold (fun st chunk =>
               let* rows := child_pk_query db childTbl fk pkCols chunk in
               Ok (add_rows st rows))
            (chunkValues parentVals 500) (childSet, false) in
    Ok (<[schema.Name childTbl := childSet]> sel, added).

(** The body of the loop over the FK groups of one child table.
    [childSet] and [parentSet] are pointers read before the calls: a set
    that was nil when read stays nil for the test that follows, while a
    set that existed is seen with what was added to it since. *)
Definition expand_fk (db : Database) (s : schema.Schema) (childName : string)
    (childTbl : schema.Table) (childSet : bool)
    (st : Selection * bool) (fk : FKGroup) : result (Selection * bool) :=
  let '(sel, changed) := st in
  match schema.Tables s !! RefTable fk with
  | None => Ok (sel, changed)
  | Some parentTbl =>
      let parentSet := bool_decide (is_Some (sel !! RefTable fk)) in
      let* (sel, changed) :=
        match (if childSet then sel !! childName else None) with
        | Some set =>
            if 0 <? Len set then
              let* refVals := selectFKValues db childTbl fk set in
              if bool_decide (refVals = []) then Ok (sel, changed)
              else
                let* (sel, added) := addParentKeys db parentTbl fk refVals sel in
                Ok (sel, changed || added)
            else Ok (sel, changed)
        | None => Ok (sel, changed)
        end in
      match (if parentSet then sel !! RefTable fk else None) with
      | Some set =>
          if 0 <? Len set then
            let* (sel, added) := addChildKeys db childTbl fk set sel in
            Ok (sel, changed || added)
          else Ok (sel, changed)
      | None => Ok (sel, changed)
      end
  end.

(** The body of the loop over the table names. *)
Definition expand_table (db : Database) (s : schema.Schema)
    (st : Selection * bool) (childName : string) : result (Selection * bool) :=
  match schema.Tables s !! childName with
  | None => Panic "nil table"
  | Some childTbl =>
      let childSet := bool_decide (is_Some (fst st !! childName)) in
      rfold (expand_fk db s childName childTbl childSet) (groupFKs childTbl) st
  end.

(** One round over all tables and FK groups, starting with
    [changed = false]. *)
Definition expand_round (db : Database) (s : schema.Schema) (sel : Selection)
    : result (Selection * bool) :=
  rfold (expand_table db s) (schema.names s) (sel, false).

(** [for changed { .. }]; [None] when [fuel] rounds do not reach a round
    without an addition. *)
Fixpoint expandLoop (fuel : nat) (db : Database) (s : schema.Schema) (sel : Selection)
    : option (result Selection) :=
  match fuel with
  | O => None
  | S fuel =>
      match expand_round db s sel with
      | Ok (sel, true) => expandLoop fuel db s sel
      | Ok (sel, false) => Some (Ok sel)
      | Err e => Some (Err e)
      | Panic e => Some (Panic e)
      end
  end.

(** The root query:
    [SELECT pk FROM root [WHERE where] ORDER BY pk [LIMIT n]]. *)
Definition root_query (db : Database) (root : config.RootConfig) (tbl : schema.Table)
    (pkCols : list string) : result (list (list Value)) :=
  let* rows := from_table db (config.Table root) tbl pkCols in
  let* rows :=
    if String.eqb (config.Where root) "" then Ok rows
    else match sql_where (config.Where root) with
         | Some keep => Ok (List.filter keep rows)
         | None => Err ("subset root query " ++ config.Table root)
         end in
  let rows := order_by pkCols rows in
  let rows :=
    if 0 <? config.Limit root then firstn (Z.to_nat (config.Limit root)) rows else rows in
  Ok (map (row_tuple pkCols) rows).

(** The body of the loop over the roots. *)
Definition add_root (db : Database) (s : schema.Schema)
    (selection : Selection) (root : config.RootConfig) : result Selection :=
  if String.eqb (config.Table root) "" then Ok selection
  else
    match schema.Tables s !! config.Table root with
    | None => Err ("subset root table not found: " ++ config.Table root)
    | Some tbl =>
        let* (pkCols, useRowID) := tablePKColumns tbl in
        let '(set, selection) :=
          match selection !! config.Table root with
          | Some set => (set, selection)
          | None => (NewPKSet pkCols, <[config.Table root := NewPKSet pkCols]> selection)
          end in
        let* rows := root_query db root tbl pkCols in
        Ok (<[config.Table root := fst (add_rows (set, false) rows)]> selection)
    end.

(** *** What the expansion may add, and where *)

Definition keys_at (sel : Selection) (n : string) : gset string :=
  default ∅ (Keys <$> sel !! n).

Definition vals_at (sel : Selection) (n : string) : list (list Value) :=
  default [] (Values <$> sel !! n).

(** The column lists the queries project on: the key of every table and
    the referencing columns of every FK group. *)
Definition col_lists (s : schema.Schema) : list (list string) :=
  ["rowid"]
  :: flat_map (fun '(_, tbl) => schema.PrimaryKeys tbl :: map FromCols (groupFKs tbl))
              (map_to_list (schema.Tables s)).

Definition all_rows (db : Database) : list Row :=
  flat_map snd (map_to_list db).

(** The textual keys of all tuples a query of the solver can return. *)
Definition universe (db : Database) (s : schema.Schema) : gset string :=
  list_to_set
    (flat_map (fun cols => map (fun r => keyFor (row_tuple cols r)) (all_rows db))
              (col_lists s)).

(** The names under which the solver stores a set. *)
Definition set_names (s : schema.Schema) : gset string :=
  dom (schema.Tables s)
  ∪ list_to_set (map (fun '(_, tbl) => schema.Name tbl) (map_to_list (schema.Tables s))).

(** The number of keys the selection can still gain. *)
Definition room (db : Database) (s : schema.Schema) (sel : Selection) : nat :=
  sum_list (map (fun n => size (universe db s ∖ keys_at sel n)) (elements (set_names s))).

(** [Keys] holds the textual keys of [Values], no more and no less. *)
Definition set_wf (set : PKSet) : Prop :=
  forall k, k ∈ Keys set <-> exists v, v ∈ Values set /\ keyFor v = k.

Lemma NewPKSet_wf cols : set_wf (NewPKSet cols).
Proof.
  intros k. simpl. split; [intros Hk; inversion Hk |].
  intros (v & Hv & _). inversion Hv.
Qed.

Lemma Add_spec (set : PKSet) (values : list Value) :
  let '(set', ok) := Add set values in
  Cols set' = Cols set /\
  Keys set' = {[keyFor values]} ∪ Keys set /\
  (ok = true <-> keyFor values ∉ Keys set) /\
  (ok = false -> set' = set) /\
  (exists more, Values set' = Values set ++ more) /\
  (set_wf set -> set_wf set').
Proof.
  unfold Add. destruct (bool_decide_reflect (keyFor values ∈ Keys set)) as [Hin | Hnin].
  - split; [reflexivity |]. split; [set_solver |].
    split; [split; [discriminate | contradiction] |].
    split; [reflexivity |]. split; [exists []; rewrite app_nil_r; reflexivity |]. auto.
  - cbn [Cols Keys Values]. split; [reflexivity |]. split; [reflexivity |].
    split; [split; auto |]. split; [discriminate |].
    split; [exists [values]; reflexivity |].
    unfold set_wf. intros Hwf k. cbn [Keys Values].
    rewrite elem_of_union, elem_of_singleton, Hwf. split.
    + intros [-> | (v & Hv & Hk)].
      * exists values. split; [apply elem_of_app; right; apply list_elem_of_singleton |];
          reflexivity.
      * exists v. split; [apply elem_of_app; left; exact Hv | exact Hk].
    + intros (v & Hv & Hk). apply elem_of_app in Hv as [Hv | Hv].
      * right. exists v. auto.
      * apply list_elem_of_singleton in Hv. subst v. left. auto.
Qed.

(** The scanning loop: the keys of all rows end up in the set, [added]
    tells whether one of them was new, and nothing but insertions occurs. *)
Lemma add_rows_spec (rows : list (list Value)) :
  forall set added set' added',
    add_rows (set, added) rows = (set', added') ->
    Cols set' = Cols set /\
    Keys set' = Keys set ∪ list_to_set (map keyFor rows) /\
    (added' = true <-> added = true \/ exists row, row ∈ rows /\ keyFor row ∉ Keys set) /\
    (added' = false -> set' = set) /\
    (exists more, Values set' = Values set ++ more) /\
    (set_wf set -> set_wf set').
Proof.
  unfold add_rows.
  induction rows as [| row rows IH]; intros set added set' added' Hfold.
  - simpl in Hfold. injection Hfold as <- <-. split; [reflexivity |].
    split; [set_solver |]. split.
    + split; [auto |]. intros [Ha | (row & Hrow & _)]; [exact Ha | inversion Hrow].
    + split; [reflexivity |]. split; [exists []; rewrite app_nil_r; reflexivity | auto].
  - cbn [fold_left] in Hfold. pose proof (Add_spec set row) as Hadd.
    destruct (Add set row) as [set1 ok].
    destruct Hadd as (Hcols1 & Hkeys1 & Hok & Hsame1 & (more1 & Hvals1) & Hwf1).
    destruct (IH _ _ _ _ Hfold) as (Hcols & Hkeys & Hadded & Hsame & (more & Hvals) & Hwf).
    split; [congruence |]. split; [rewrite Hkeys, Hkeys1; set_solver |].
    split; [| split; [| split]].
    + rewrite Hadded. split.
      * intros [Hor | (r & Hr & Hnew)].
        -- apply orb_true_iff in Hor as [Ha | Hok']; [left; exact Ha |].
           right. exists row. split; [apply elem_of_cons; left; reflexivity |].
           apply Hok. exact Hok'.
        -- right. exists r. split; [apply elem_of_cons; right; exact Hr |].
           rewrite Hkeys1 in Hnew. set_solver.
      * intros [Ha | (r & Hr & Hnew)]; [left; rewrite Ha; reflexivity |].
        apply elem_of_cons in Hr as [-> | Hr].
        -- left. apply orb_true_iff. right. apply Hok. exact Hnew.
        -- destruct (decide (keyFor r = keyFor row)) as [Heq | Hne].
           ++ left. apply orb_true_iff. right. apply Hok. rewrite <- Heq. exact Hnew.
           ++ right. exists r. split; [exact Hr |]. rewrite Hkeys1. set_solver.
    + intros Hf. specialize (Hsame Hf). subst set'.
      apply Hsame1. destruct ok; [| reflexivity].
      assert (Htrue : added' = true).
      { apply Hadded. left. apply orb_true_r. }
      congruence.
    + exists (more1 ++ more). rewrite Hvals, Hvals1, app_assoc. reflexivity.
    + auto.
Qed.

(** *** Loops over chunks *)

Lemma add_rows_app st rows1 rows2 :
  add_rows st (rows1 ++ rows2) = add_rows (add_rows st rows1) rows2.
Proof. unfold add_rows. apply fold_left_app. Qed.

Lemma rfold_add_rows {A} (g : A -> result (list (list Value))) (chunks : list A) :
  forall st st',
    rfold (fun st c => let* rows := g c in Ok (add_rows st rows)) chunks st = Ok st' ->
    exists rowss,
      Forall2 (fun c rows => g c = Ok rows) chunks rowss /\
      st' = add_rows st (concat rowss).
Proof.
  induction chunks as [| c chunks IH]; intros st st' Hfold.
  - simpl in Hfold. injection Hfold as <-. exists []. split; [constructor | reflexivity].
  - cbn [rfold] in Hfold. destruct (g c) as [rows | e | e] eqn:Hg; try discriminate.
    cbn [rbind] in Hfold. apply IH in Hfold as (rowss & Hall & ->).
    exists (rows :: rowss). split; [constructor; assumption |].
    cbn [concat]. rewrite add_rows_app. reflexivity.
Qed.

Lemma rfold_collect {A B} (g : A -> result (list B)) (chunks : list A) :
  forall acc res,
    rfold (fun results c => let* found := g c in Ok (results ++ found)) chunks acc = Ok res ->
    exists rowss,
      Forall2 (fun c rows => g c = Ok rows) chunks rowss /\
      res = acc ++ concat rowss.
Proof.
  induction chunks as [| c chunks IH]; intros acc res Hfold.
  - simpl in Hfold. injection Hfold as <-. exists [].
    split; [constructor | simpl; rewrite app_nil_r; reflexivity].
  - cbn [rfold] in Hfold. destruct (g c) as [rows | e | e] eqn:Hg; try discriminate.
    cbn [rbind] in Hfold. apply IH in Hfold as (rowss & Hall & ->).
    exists (rows :: rowss). split; [constructor; assumption |].
    cbn [concat]. rewrite app_assoc. reflexivity.
Qed.

Lemma chunk_loop_concat {A} (fuel size : nat) (values : list A) :
  (0 < size)%nat -> (length values <= fuel)%nat ->
  concat (chunk_loop fuel size values) = values.
Proof.
  intros Hsize. revert values. induction fuel as [| fuel IH]; intros values Hlen.
  - destruct values; [reflexivity | simpl in Hlen; lia].
  - destruct values as [| v values]; [reflexivity |].
    cbn [chunk_loop concat]. rewrite IH.
    + apply firstn_skipn.
    + rewrite length_skipn. simpl in *. lia.
Qed.

Lemma chunkValues_concat {A} (values : list A) (size : Z) :
  concat (chunkValues values size) = values.
Proof.
  unfold chunkValues.
  destruct ((size <=? 0) || (Z.of_nat (length values) <=? size)) eqn:Hone.
  - simpl. apply app_nil_r.
  - apply orb_false_iff in Hone as [Hpos _]. apply Z.leb_gt in Hpos.
    apply chunk_loop_concat; lia.
Qed.

(** A value of the list is in one of its chunks, and the chunks hold
    nothing else. *)
Lemma chunkValues_elem_of {A} (values : list A) (size : Z) (v : A) :
  v ∈ values <-> exists chunk, chunk ∈ chunkValues values size /\ v ∈ chunk.
Proof.
  rewrite <- (chunkValues_concat values size) at 1.
  rewrite !list_elem_of_In, in_concat. split; intros (chunk & H1 & H2); exists chunk;
    rewrite ?list_elem_of_In in *; auto.
Qed.

(** *** Reading and writing the selection *)

Lemma keys_at_insert (sel : Selection) n set n' :
  keys_at (<[n := set]> sel) n' = if decide (n = n') then Keys set else keys_at sel n'.
Proof.
  unfold keys_at. rewrite lookup_insert. destruct (decide (n = n')); reflexivity.
Qed.

Lemma vals_at_insert (sel : Selection) n set n' :
  vals_at (<[n := set]> sel) n' = if decide (n = n') then Values set else vals_at sel n'.
Proof.
  unfold vals_at. rewrite lookup_insert. destruct (decide (n = n')); reflexivity.
Qed.

Lemma keys_at_Some (sel : Selection) n set : sel !! n = Some set -> keys_at sel n = Keys set.
Proof. unfold keys_at. intros ->. reflexivity. Qed.

Lemma vals_at_Some (sel : Selection) n set : sel !! n = Some set -> vals_at sel n = Values set.
Proof. unfold vals_at. intros ->. reflexivity. Qed.

Lemma keys_at_None (sel : Selection) n : sel !! n = None -> keys_at sel n = ∅.
Proof. unfold keys_at. intros ->. reflexivity. Qed.

Lemma vals_at_None (sel : Selection) n : sel !! n = None -> vals_at sel n = [].
Proof. unfold vals_at. intros ->. reflexivity. Qed.

(** *** The universe of keys *)

Lemma universe_intro db s cols name rows r :
  cols ∈ col_lists s -> db !! name = Some rows -> r ∈ rows ->
  keyFor (row_tuple cols r) ∈ universe db s.
Proof.
  intros Hcols Hdb Hr. unfold universe. apply elem_of_list_to_set.
  apply list_elem_of_In, in_flat_map. exists cols.
  split; [apply list_elem_of_In; exact Hcols |].
  apply (in_map (fun r => keyFor (row_tuple cols r))), in_flat_map. exists (name, rows).
  split; [| apply list_elem_of_In; exact Hr].
  apply list_elem_of_In, elem_of_map_to_list. exact Hdb.
Qed.

Lemma table_cols_listed s n tbl cols :
  schema.Tables s !! n = Some tbl ->
  cols ∈ schema.PrimaryKeys tbl :: map FromCols (groupFKs tbl) ->
  cols ∈ col_lists s.
Proof.
  intros Htbl Hcols. unfold col_lists. apply elem_of_cons. right.
  apply list_elem_of_In, in_flat_map. exists (n, tbl).
  split; [apply list_elem_of_In, elem_of_map_to_list; exact Htbl |].
  apply list_elem_of_In. exact Hcols.
Qed.

Lemma pk_cols_listed s n tbl pkCols useRowID :
  schema.Tables s !! n = Some tbl -> tablePKColumns tbl = Ok (pkCols, useRowID) ->
  pkCols ∈ col_lists s.
Proof.
  intros Htbl Hpk. unfold tablePKColumns in Hpk.
  destruct (bool_decide (schema.PrimaryKeys tbl = [])).
  - destruct (schema.WithoutRowID tbl); [discriminate |].
    injection Hpk as <- _. unfold col_lists. apply elem_of_cons. left. reflexivity.
  - injection Hpk as <- _. eapply table_cols_listed; [exact Htbl |].
    apply elem_of_cons. left. reflexivity.
Qed.

Lemma from_cols_listed s n tbl fk :
  schema.Tables s !! n = Some tbl -> fk ∈ groupFKs tbl -> FromCols fk ∈ col_lists s.
Proof.
  intros Htbl Hfk. eapply table_cols_listed; [exact Htbl |].
  apply elem_of_cons. right. apply list_elem_of_fmap. exists fk. auto.
Qed.

Lemma set_names_key s n tbl : schema.Tables s !! n = Some tbl -> n ∈ set_names s.
Proof.
  intros Htbl. unfold set_names. apply elem_of_union. left.
  apply elem_of_dom. eauto.
Qed.

Lemma set_names_Name s n tbl : schema.Tables s !! n = Some tbl -> schema.Name tbl ∈ set_names s.
Proof.
  intros Htbl. unfold set_names. apply elem_of_union. right.
  apply elem_of_list_to_set, list_elem_of_In, in_map_iff. exists (n, tbl).
  split; [reflexivity |]. apply list_elem_of_In, elem_of_map_to_list. exact Htbl.
Qed.

Lemma difference_size_le (U A B : gset string) :
  A ⊆ B -> (size (U ∖ B) <= size (U ∖ A))%nat.
Proof. intros HAB. apply subseteq_size. set_solver. Qed.

Lemma difference_size_lt (U A B : gset string) k :
  A ⊆ B -> k ∈ B -> k ∉ A -> k ∈ U -> (size (U ∖ B) < size (U ∖ A))%nat.
Proof. intros HAB HkB HkA HkU. apply subset_size. set_solver. Qed.

(** *** Steps that only insert *)

Section Steps.
Variable db : Database.
Variable s : schema.Schema.

(** [sel'] comes from [sel] by insertions of keys of the universe under
    names of the schema; [added] tells whether a key is new. *)
Record step_ok (sel sel' : Selection) (added : bool) : Prop := {
  ok_keys : forall n, keys_at sel n ⊆ keys_at sel' n;
  ok_new : forall n k, k ∈ keys_at sel' n -> k ∉ keys_at sel n ->
                       n ∈ set_names s /\ k ∈ universe db s;
  ok_added : added = true -> exists n k, k ∈ keys_at sel' n /\ k ∉ keys_at sel n;
  ok_same : added = false ->
            forall n, keys_at sel' n = keys_at sel n /\ vals_at sel' n = vals_at sel n;
  ok_dom : forall n, is_Some (sel !! n) -> is_Some (sel' !! n);
}.

Lemma step_ok_refl sel : step_ok sel sel false.
Proof.
  constructor.
  - intros n. reflexivity.
  - intros n k Hin Hnin. contradiction.
  - discriminate.
  - intros _ n. split; reflexivity.
  - intros n Hn. exact Hn.
Qed.

Lemma step_ok_trans sel1 sel2 sel3 a b :
  step_ok sel1 sel2 a -> step_ok sel2 sel3 b -> step_ok sel1 sel3 (a || b).
Proof.
  intros [K1 N1 A1 S1 D1] [K2 N2 A2 S2 D2]. constructor.
  - intros n. etransitivity; [apply K1 | apply K2].
  - intros n k Hin Hnin. destruct (decide (k ∈ keys_at sel2 n)) as [Hmid | Hmid].
    + apply (N1 n k); assumption.
    + apply (N2 n k); assumption.
  - intros Hab. apply orb_true_iff in Hab as [Ha | Hb].
    + destruct (A1 Ha) as (n & k & Hin & Hnin). exists n, k. split; [| exact Hnin].
      apply (K2 n). exact Hin.
    + destruct (A2 Hb) as (n & k & Hin & Hnin). exists n, k. split; [exact Hin |].
      intros Hold. apply Hnin. apply (K1 n). exact Hold.
  - intros Hab n. apply orb_false_iff in Hab as [Ha Hb].
    destruct (S1 Ha n) as [Hk1 Hv1]. destruct (S2 Hb n) as [Hk2 Hv2].
    split; congruence.
  - intros n Hn. apply D2, D1, Hn.
Qed.

(** Storing a grown set under the name of the set it grew from. *)
Lemma step_ok_insert (sel : Selection) n (set set' : PKSet) added :
  (sel !! n = Some set \/ (sel !! n = None /\ Keys set = ∅ /\ Values set = [])) ->
  n ∈ set_names s ->
  Keys set ⊆ Keys set' ->
  (forall k, k ∈ Keys set' -> k ∉ Keys set -> k ∈ universe db s) ->
  (added = true -> exists k, k ∈ Keys set' /\ k ∉ Keys set) ->
  (added = false -> set' = set) ->
  step_ok sel (<[n := set']> sel) added.
Proof.
  intros Hold Hn Hsub Hnew Hadded Hsame.
  assert (Hkeys : keys_at sel n = Keys set).
  { destruct Hold as [Hs | (Hs & Hk & _)];
      [apply keys_at_Some; exact Hs | rewrite keys_at_None, Hk; auto]. }
  assert (Hvals : vals_at sel n = Values set).
  { destruct Hold as [Hs | (Hs & _ & Hv)];
      [apply vals_at_Some; exact Hs | rewrite vals_at_None, Hv; auto]. }
  constructor.
  - intros n'. rewrite keys_at_insert. destruct (decide (n = n')) as [<- | _];
      [rewrite Hkeys; exact Hsub | reflexivity].
  - intros n' k. rewrite keys_at_insert. destruct (decide (n = n')) as [<- | _].
    + rewrite Hkeys. intros Hin Hnin. split; [exact Hn | apply Hnew; assumption].
    + intros Hin Hnin. contradiction.
  - intros Ha. destruct (Hadded Ha) as (k & Hin & Hnin). exists n, k.
    rewrite keys_at_insert, Hkeys. destruct (decide (n = n)); [auto | congruence].
  - intros Ha n'. rewrite keys_at_insert, vals_at_insert, (Hsame Ha).
    destruct (decide (n = n')) as [<- | _]; [split; congruence | split; reflexivity].
  - intros n' Hn'. rewrite lookup_insert. destruct (decide (n = n')); [eauto | exact Hn'].
Qed.

(** An insertion makes the room shrink. *)
Lemma room_le sel sel' added : step_ok sel sel' added -> (room db s sel' <= room db s sel)%nat.
Proof.
  intros [K _ _ _ _]. unfold room.
  induction (elements (set_names s)) as [| n l IH]; [reflexivity |].
  cbn [map sum_list]. apply Nat.add_le_mono; [| exact IH].
  apply difference_size_le, K.
Qed.

Lemma room_lt sel sel' : step_ok sel sel' true -> (room db s sel' < room db s sel)%nat.
Proof.
  intros Hstep. pose proof Hstep as [K N A _ _].
  destruct (A eq_refl) as (n & k & Hin & Hnin).
  destruct (N n k Hin Hnin) as [Hn Hk]. unfold room.
  apply elem_of_elements in Hn.
  pose proof (room_le sel sel' true Hstep) as Hall. unfold room in Hall.
  induction (elements (set_names s)) as [| m l IH]; [inversion Hn |].
  cbn [map sum_list].
  assert (Hm : (size (universe db s ∖ keys_at sel' m)
                <= size (universe db s ∖ keys_at sel m))%nat).
  { apply difference_size_le, K. }
  assert (Hl : (sum_list (map (fun n => size (universe db s ∖ keys_at sel' n)) l)
                <= sum_list (map (fun n => size (universe db s ∖ keys_at sel n)) l))%nat).
  { clear IH Hn Hall. induction l as [| x l IHl]; [reflexivity |].
    cbn [map sum_list]. apply Nat.add_le_mono; [| exact IHl].
    apply difference_size_le, K. }
  apply elem_of_cons in Hn as [<- | Hn].
  - apply Nat.add_lt_le_mono; [| exact Hl].
    apply (difference_size_lt _ _ _ k); [apply K | exact Hin | exact Hnin | exact Hk].
  - apply Nat.add_le_lt_mono; [exact Hm |]. apply IH; [exact Hn | exact Hl].
Qed.

(** A tuple a query reads off a row of the table [name]. *)
Definition from_db (name : string) (cols : list string) (row : list Value) : Prop :=
  exists rows r, db !! name = Some rows /\ r ∈ rows /\ row = row_tuple cols r.

Lemma from_db_universe name cols row :
  cols ∈ col_lists s -> from_db name cols row -> keyFor row ∈ universe db s.
Proof.
  intros Hcols (rows & r & Hdb & Hr & ->). eapply universe_intro; eassumption.
Qed.

Lemma from_table_Ok name tbl cols rows :
  from_table db name tbl cols = Ok rows -> db !! name = Some rows.
Proof.
  unfold from_table. destruct (db !! name) as [rows' |]; [| discriminate].
  destruct (forallb (has_col tbl) cols); [| discriminate]. congruence.
Qed.

Lemma parent_pk_query_from parentTbl fk pkCols chunk rows :
  parent_pk_query db parentTbl fk pkCols chunk = Ok rows ->
  forall row, row ∈ rows -> from_db (schema.Name parentTbl) pkCols row.
Proof.
  unfold parent_pk_query. intros Hq row Hrow.
  destruct (buildTupleIn (ToCols fk) chunk) as [whereIn | |]; try discriminate.
  cbn [rbind] in Hq.
  destruct (from_table db _ parentTbl _) as [dbrows | |] eqn:Hfrom; try discriminate.
  cbn [rbind] in Hq. injection Hq as <-. apply from_table_Ok in Hfrom.
  apply list_elem_of_fmap in Hrow as (r & -> & Hr).
  apply list_elem_of_In, filter_In in Hr as [Hr _].
  exists dbrows, r. split; [exact Hfrom |]. split; [apply list_elem_of_In; exact Hr | reflexivity].
Qed.

Lemma child_pk_query_from childTbl fk pkCols chunk rows :
  child_pk_query db childTbl fk pkCols chunk = Ok rows ->
  forall row, row ∈ rows -> from_db (schema.Name childTbl) pkCols row.
Proof.
  unfold child_pk_query. intros Hq row Hrow.
  destruct (buildTupleIn (FromCols fk) chunk) as [whereIn | |]; try discriminate.
  cbn [rbind] in Hq.
  destruct (from_table db _ childTbl _) as [dbrows | |] eqn:Hfrom; try discriminate.
  cbn [rbind] in Hq. injection Hq as <-. apply from_table_Ok in Hfrom.
  apply elem_of_remove_dups, list_elem_of_fmap in Hrow as (r & -> & Hr).
  apply list_elem_of_In, filter_In in Hr as [Hr _].
  exists dbrows, r. split; [exact Hfrom |]. split; [apply list_elem_of_In; exact Hr | reflexivity].
Qed.

Lemma fk_value_query_from childTbl fk pkCols chunk rows :
  fk_value_query db childTbl fk pkCols chunk = Ok rows ->
  forall row, row ∈ rows -> from_db (schema.Name childTbl) (FromCols fk) row.
Proof.
  unfold fk_value_query. intros Hq row Hrow.
  destruct (buildTupleIn pkCols chunk) as [whereIn | |]; try discriminate.
  cbn [rbind] in Hq.
  destruct (from_table db _ childTbl _) as [dbrows | |] eqn:Hfrom; try discriminate.
  cbn [rbind] in Hq. injection Hq as <-. apply from_table_Ok in Hfrom.
  apply elem_of_remove_dups, list_elem_of_fmap in Hrow as (r & -> & Hr).
  apply list_elem_of_In, filter_In in Hr as [Hr _].
  exists dbrows, r. split; [exact Hfrom |]. split; [apply list_elem_of_In; exact Hr | reflexivity].
Qed.

Lemma Forall2_concat_elem {A B} (P : A -> list B -> Prop) (Q : B -> Prop) chunks rowss :
  Forall2 P chunks rowss ->
  (forall c rows, P c rows -> forall row, row ∈ rows -> Q row) ->
  forall row, row ∈ concat rowss -> Q row.
Proof.
  intros Hall HPQ. induction Hall as [| c rows chunks rowss Hc _ IH];
    intros row Hrow; [inversion Hrow |].
  cbn [concat] in Hrow. apply elem_of_app in Hrow as [Hrow | Hrow].
  - eapply HPQ; eassumption.
  - apply IH. exact Hrow.
Qed.

Lemma selectFKValues_from childTbl fk childSet refVals :
  selectFKValues db childTbl fk childSet = Ok refVals ->
  forall row, row ∈ refVals -> from_db (schema.Name childTbl) (FromCols fk) row.
Proof.
  unfold selectFKValues. intros Hsel.
  destruct (tablePKColumns childTbl) as [[pkCols useRowID] | |]; try discriminate.
  cbn [rbind] in Hsel.
  destruct (ValuesByColumns childSet pkCols) as [childPKVals | |]; try discriminate.
  cbn [rbind] in Hsel.
  destruct (bool_decide (childPKVals = [])).
  - injection Hsel as <-. intros row Hrow. inversion Hrow.
  - apply rfold_collect in Hsel as (rowss & Hall & ->). cbn [app].
    eapply Forall2_concat_elem; [exact Hall |].
    intros c rows Hq. eapply fk_value_query_from. exact Hq.
Qed.

(** The four conditions of [step_ok_insert] for a scan of [rows]. *)
Lemma add_rows_grow set rows set' added :
  add_rows (set, false) rows = (set', added) ->
  (forall row, row ∈ rows -> keyFor row ∈ universe db s) ->
  Keys set ⊆ Keys set' /\
  (forall k, k ∈ Keys set' -> k ∉ Keys set -> k ∈ universe db s) /\
  (added = true -> exists k, k ∈ Keys set' /\ k ∉ Keys set) /\
  (added = false -> set' = set).
Proof.
  intros Hadd Hrows.
  destruct (add_rows_spec _ _ _ _ _ Hadd) as (_ & Hkeys & Hadded & Hsame & _ & _).
  split; [rewrite Hkeys; apply union_subseteq_l |].
  split; [| split; [| exact Hsame]].
  - intros k Hin Hnin. rewrite Hkeys in Hin. apply elem_of_union in Hin as [Hin | Hin];
      [contradiction |].
    apply elem_of_list_to_set, list_elem_of_fmap in Hin as (row & -> & Hrow).
    apply Hrows. exact Hrow.
  - intros Ha. apply Hadded in Ha as [Hf | (row & Hrow & Hnew)]; [discriminate |].
    exists (keyFor row). split; [| exact Hnew].
    rewrite Hkeys. apply elem_of_union. right.
    apply elem_of_list_to_set, list_elem_of_fmap. exists row. auto.
Qed.

Lemma selectParentPKs_grow n parentTbl fk refVals set set' added :
  schema.Tables s !! n = Some parentTbl ->
  selectParentPKs db parentTbl fk refVals set = Ok (set', added) ->
  Keys set ⊆ Keys set' /\
  (forall k, k ∈ Keys set' -> k ∉ Keys set -> k ∈ universe db s) /\
  (added = true -> exists k, k ∈ Keys set' /\ k ∉ Keys set) /\
  (added = false -> set' = set).
Proof.
  intros Htbl. unfold selectParentPKs.
  destruct (tablePKColumns parentTbl) as [[pkCols useRowID] | |] eqn:Hpk; try discriminate.
  cbn [rbind]. intros Hfold.
  apply rfold_add_rows in Hfold as (rowss & Hall & Hadd). symmetry in Hadd.
  eapply add_rows_grow; [exact Hadd |].
  intros row Hrow. apply (from_db_universe (schema.Name parentTbl) pkCols).
  - eapply pk_cols_listed; eassumption.
  - revert row Hrow. eapply Forall2_concat_elem; [exact Hall |].
    intros c rows Hq. eapply parent_pk_query_from. exact Hq.
Qed.

Lemma addParentKeys_ok parentTbl fk refVals sel sel' added :
  schema.Tables s !! RefTable fk = Some parentTbl ->
  (forall row, row ∈ refVals -> keyFor row ∈ universe db s) ->
  addParentKeys db parentTbl fk refVals sel = Ok (sel', added) ->
  step_ok sel sel' added.
Proof.
  intros Htbl Href. unfold addParentKeys.
  destruct (bool_decide (refVals = [])).
  { intros Heq. injection Heq as <- <-. apply step_ok_refl. }
  pose proof (set_names_key _ _ _ Htbl) as Hname.
  destruct (sel !! RefTable fk) as [parentSet |] eqn:Hlook.
  - cbn [rbind].
    destruct (sameColumnOrder (Cols parentSet) (ToCols fk)).
    + destruct (add_rows (parentSet, false) refVals) as [set' a] eqn:Hadd.
      intros Heq. injection Heq as <- <-.
      destruct (add_rows_grow _ _ _ _ Hadd Href) as (H1 & H2 & H3 & H4).
      eapply step_ok_insert; eauto.
    + destruct (selectParentPKs db parentTbl fk refVals parentSet)
        as [[set' a] | |] eqn:Hsel; try discriminate.
      cbn [rbind]. intros Heq. injection Heq as <- <-.
      destruct (selectParentPKs_grow _ _ _ _ _ _ _ Htbl Hsel) as (H1 & H2 & H3 & H4).
      eapply step_ok_insert; eauto.
  - destruct (tablePKColumns parentTbl) as [[pkCols useRowID] | |] eqn:Hpk; try discriminate.
    cbn [rbind].
    assert (Hold : sel !! RefTable fk = None /\ Keys (NewPKSet pkCols) = ∅
                   /\ Values (NewPKSet pkCols) = []) by auto.
    destruct (sameColumnOrder (Cols (NewPKSet pkCols)) (ToCols fk)).
    + destruct (add_rows (NewPKSet pkCols, false) refVals) as [set' a] eqn:Hadd.
      intros Heq. injection Heq as <- <-. rewrite insert_insert_eq.
      destruct (add_rows_grow _ _ _ _ Hadd Href) as (H1 & H2 & H3 & H4).
      eapply step_ok_insert; eauto.
    + destruct (selectParentPKs db parentTbl fk refVals (NewPKSet pkCols))
        as [[set' a] | |] eqn:Hsel; try discriminate.
      cbn [rbind]. intros Heq. injection Heq as <- <-. rewrite insert_insert_eq.
      destruct (selectParentPKs_grow _ _ _ _ _ _ _ Htbl Hsel) as (H1 & H2 & H3 & H4).
      eapply step_ok_insert; eauto.
Qed.

Lemma child_rows_grow n childTbl fk pkCols useRowID chunks set set' added :
  schema.Tables s !! n = Some childTbl ->
  tablePKColumns childTbl = Ok (pkCols, useRowID) ->
  rfold (fun st chunk =>
           let* rows := child_pk_query db childTbl fk pkCols chunk in
           Ok (add_rows st rows)) chunks (set, false) = Ok (set', added) ->
  Keys set ⊆ Keys set' /\
  (forall k, k ∈ Keys set' -> k ∉ Keys set -> k ∈ universe db s) /\
  (added = true -> exists k, k ∈ Keys set' /\ k ∉ Keys set) /\
  (added = false -> set' = set).
Proof.
  intros Htbl Hpk Hfold.
  apply rfold_add_rows in Hfold as (rowss & Hall & Hadd). symmetry in Hadd.
  eapply add_rows_grow; [exact Hadd |].
  intros row Hrow. apply (from_db_universe (schema.Name childTbl) pkCols).
  - eapply pk_cols_listed; eassumption.
  - revert row Hrow. eapply Forall2_concat_elem; [exact Hall |].
    intros c rows Hq. eapply child_pk_query_from. exact Hq.
Qed.

Lemma addChildKeys_ok n childTbl fk parentSet sel sel' added :
  schema.Tables s !! n = Some childTbl ->
  addChildKeys db childTbl fk parentSet sel = Ok (sel', added) ->
  step_ok sel sel' added.
Proof.
  intros Htbl. unfold addChildKeys.
  destruct (tablePKColumns childTbl) as [[pkCols useRowID] | |] eqn:Hpk; try discriminate.
  cbn [rbind].
  pose proof (set_names_Name _ _ _ Htbl) as Hname.
  destruct (sel !! schema.Name childTbl) as [childSet |] eqn:Hlook.
  - destruct (ValuesByColumns parentSet (ToCols fk)) as [parentVals | |]; try discriminate.
    cbn [rbind]. destruct (bool_decide (parentVals = [])).
    { intros Heq. injection Heq as <- <-. apply step_ok_refl. }
    destruct (rfold _ (chunkValues parentVals 500) (childSet, false))
      as [[set' a] | |] eqn:Hfold; try discriminate.
    cbn [rbind]. intros Heq. injection Heq as <- <-.
    destruct (child_rows_grow _ _ _ _ _ _ _ _ _ Htbl Hpk Hfold) as (H1 & H2 & H3 & H4).
    eapply step_ok_insert; eauto.
  - assert (Hold : sel !! schema.Name childTbl = None /\ Keys (NewPKSet pkCols) = ∅
                   /\ Values (NewPKSet pkCols) = []) by auto.
    destruct (ValuesByColumns parentSet (ToCols fk)) as [parentVals | |]; try discriminate.
    cbn [rbind]. destruct (bool_decide (parentVals = [])).
    { intros Heq. injection Heq as <- <-.
      apply (step_ok_insert sel _ (NewPKSet pkCols) (NewPKSet pkCols) false);
        [right; exact Hold | exact Hname | reflexivity
        | intros k Hin Hnin; contradiction | discriminate | reflexivity]. }
    destruct (rfold _ (chunkValues parentVals 500) (NewPKSet pkCols, false))
      as [[set' a] | |] eqn:Hfold; try discriminate.
    cbn [rbind]. intros Heq. injection Heq as <- <-. rewrite insert_insert_eq.
    destruct (child_rows_grow _ _ _ _ _ _ _ _ _ Htbl Hpk Hfold) as (H1 & H2 & H3 & H4).
    eapply step_ok_insert; eauto.
Qed.

(** What one iteration does to the pair [(selection, changed)]. *)
Definition iter_ok (st st' : Selection * bool) : Prop :=
  exists added, step_ok (fst st) (fst st') added /\ snd st' = snd st || added.

Lemma iter_ok_refl st : iter_ok st st.
Proof. exists false. split; [apply step_ok_refl | rewrite orb_false_r; reflexivity]. Qed.

Lemma iter_ok_trans st1 st2 st3 : iter_ok st1 st2 -> iter_ok st2 st3 -> iter_ok st1 st3.
Proof.
  intros (a & Ha & Hc) (b & Hb & Hd). exists (a || b).
  split; [eapply step_ok_trans; eassumption |].
  rewrite Hd, Hc, orb_assoc. reflexivity.
Qed.

Lemma rfold_iter_ok {A} (f : Selection * bool -> A -> result (Selection * bool)) (l : list A) :
  (forall a st st', a ∈ l -> f st a = Ok st' -> iter_ok st st') ->
  forall st st', rfold f l st = Ok st' -> iter_ok st st'.
Proof.
  induction l as [| a l IH]; intros Hf st st' Hfold.
  - simpl in Hfold. injection Hfold as <-. apply iter_ok_refl.
  - cbn [rfold] in Hfold. destruct (f st a) as [st1 | |] eqn:Hstep; try discriminate.
    cbn [rbind] in Hfold. eapply iter_ok_trans.
    + eapply Hf; [apply elem_of_cons; left; reflexivity | exact Hstep].
    + apply IH; [| exact Hfold]. intros a' st2 st3 Ha'. apply Hf.
      apply elem_of_cons. right. exact Ha'.
Qed.

Lemma expand_fk_ok childName childTbl childSet st fk st' :
  schema.Tables s !! childName = Some childTbl -> fk ∈ groupFKs childTbl ->
  expand_fk db s childName childTbl childSet st fk = Ok st' ->
  iter_ok st st'.
Proof.
  intros Htbl Hfk. destruct st as [sel changed]. unfold expand_fk.
  destruct (schema.Tables s !! RefTable fk) as [parentTbl |] eqn:Hparent.
  2:{ intros Heq. injection Heq as <-. apply iter_ok_refl. }
  set (parentSet := bool_decide (is_Some (sel !! RefTable fk))). clearbody parentSet.
  match goal with |- rbind ?m _ = _ -> _ => set (phase := m) end.
  assert (Hlift : forall st1, phase = Ok st1 -> iter_ok (sel, changed) st1).
  { subst phase. intros st1.
    destruct (if childSet then sel !! childName else None) as [set |].
    2:{ intros Heq. injection Heq as <-. apply iter_ok_refl. }
    destruct (0 <? Len set).
    2:{ intros Heq. injection Heq as <-. apply iter_ok_refl. }
    destruct (selectFKValues db childTbl fk set) as [refVals | |] eqn:Hsel; try discriminate.
    cbn [rbind]. destruct (bool_decide (refVals = [])).
    { intros Heq. injection Heq as <-. apply iter_ok_refl. }
    destruct (addParentKeys db parentTbl fk refVals sel) as [[sel1 added] | |] eqn:Hadd;
      try discriminate.
    cbn [rbind]. intros Heq. injection Heq as <-.
    exists added. split; [| reflexivity]. cbn [fst].
    eapply addParentKeys_ok; [exact Hparent | | exact Hadd].
    intros row Hrow. apply (from_db_universe (schema.Name childTbl) (FromCols fk)).
    - exact (from_cols_listed s childName childTbl fk Htbl Hfk).
    - exact (selectFKValues_from childTbl fk set refVals Hsel row Hrow). }
  clearbody phase. destruct phase as [[sel1 changed1] | |]; try discriminate.
  pose proof (Hlift _ eq_refl) as Hphase. cbn [rbind]. intros Hdesc.
  eapply iter_ok_trans; [exact Hphase |].
  destruct (if parentSet then sel1 !! RefTable fk else None) as [set |].
  2:{ injection Hdesc as <-. apply iter_ok_refl. }
  destruct (0 <? Len set).
  2:{ injection Hdesc as <-. apply iter_ok_refl. }
  destruct (addChildKeys db childTbl fk set sel1) as [[sel2 added] | |] eqn:Hadd;
    try discriminate.
  cbn [rbind] in Hdesc. injection Hdesc as <-.
  exists added. split; [| reflexivity]. cbn [fst].
  exact (addChildKeys_ok childName childTbl fk set sel1 sel2 added Htbl Hadd).
Qed.

Lemma expand_table_ok st childName st' :
  expand_table db s st childName = Ok st' -> iter_ok st st'.
Proof.
  unfold expand_table.
  destruct (schema.Tables s !! childName) as [childTbl |] eqn:Htbl; [| discriminate].
  apply rfold_iter_ok. intros fk st1 st2 Hfk. eapply expand_fk_ok; eassumption.
Qed.

Lemma expand_round_ok sel sel' changed :
  expand_round db s sel = Ok (sel', changed) -> step_ok sel sel' changed.
Proof.
  unfold expand_round. intros Hfold.
  apply (rfold_iter_ok (expand_table db s)) in Hfold.
  - destruct Hfold as (added & Hstep & Hc). cbn [fst snd] in *. subst changed. exact Hstep.
  - intros childName st st' _. apply expand_table_ok.
Qed.

(** The loop stops within as many rounds as the selection has room. *)
Lemma expandLoop_terminates fuel :
  forall sel, (room db s sel < fuel)%nat -> exists r, expandLoop fuel db s sel = Some r.
Proof.
  induction fuel as [| fuel IH]; intros sel Hroom; [lia |].
  cbn [expandLoop].
  destruct (expand_round db s sel) as [[sel' changed] | e | e] eqn:Hround; [| eauto | eauto].
  destruct changed; [| eauto].
  apply IH. apply expand_round_ok, room_lt in Hround. lia.
Qed.

(** It stops on a round that added nothing. *)
Lemma expandLoop_last fuel :
  forall sel sel',
    expandLoop fuel db s sel = Some (Ok sel') ->
    exists sel0, expand_round db s sel0 = Ok (sel', false) /\
                 (forall n, keys_at sel n ⊆ keys_at sel0 n).
Proof.
  induction fuel as [| fuel IH]; intros sel sel' Hloop; [discriminate |].
  cbn [expandLoop] in Hloop.
  destruct (expand_round db s sel) as [[sel1 changed] | e | e] eqn:Hround;
    [| discriminate | discriminate].
  destruct changed.
  - apply IH in Hloop as (sel0 & Hlast & Hsub). exists sel0. split; [exact Hlast |].
    intros n. etransitivity; [| apply Hsub].
    apply expand_round_ok in Hround. apply (ok_keys _ _ _ Hround).
  - injection Hloop as <-. exists sel. split; [exact Hround | reflexivity].
Qed.

Lemma expandLoop_mono fuel :
  forall sel r fuel',
    expandLoop fuel db s sel = Some r -> (fuel <= fuel')%nat ->
    expandLoop fuel' db s sel = Some r.
Proof.
  induction fuel as [| fuel IH]; intros sel r fuel' Hloop Hle; [discriminate |].
  destruct fuel' as [| fuel']; [lia |]. cbn [expandLoop] in *.
  destruct (expand_round db s sel) as [[sel' changed] | e | e]; try exact Hloop.
  destruct changed; [| exact Hloop]. apply (IH _ _ _ Hloop). lia.
Qed.

(** C9. [PKSet.Add] only inserts: the keys and the values of the set are
    kept, and it returns true exactly when the textual key of the tuple is
    new. A round of the expansion only inserts too; every key it adds is
    one of the finitely many keys of the tuples the database holds, and
    the round reports a change exactly when it added a key. Hence the loop
    ends within as many rounds as the selection has room for keys, with an
    error or with the selection left by a round that added nothing. *)
Theorem expansion_terminates (sel : Selection) (fuel : nat) :
  (room db s sel < fuel)%nat ->
  (forall set values,
      Keys set ⊆ Keys (fst (Add set values)) /\
      (exists more, Values (fst (Add set values)) = Values set ++ more) /\
      (snd (Add set values) = true <-> keyFor values ∉ Keys set) /\
      (snd (Add set values) = false -> fst (Add set values) = set)) /\
  (forall sel1 sel2 changed,
      expand_round db s sel1 = Ok (sel2, changed) ->
      (forall n, keys_at sel1 n ⊆ keys_at sel2 n) /\
      (forall n k, k ∈ keys_at sel2 n -> k ∉ keys_at sel1 n ->
                   n ∈ set_names s /\ k ∈ universe db s) /\
      (changed = true <-> exists n k, k ∈ keys_at sel2 n /\ k ∉ keys_at sel1 n)) /\
  exists r,
    expandLoop fuel db s sel = Some r /\
    forall sel', r = Ok sel' ->
      exists sel0, expand_round db s sel0 = Ok (sel', false) /\
                   forall n, keys_at sel' n = keys_at sel0 n.
Proof.
  intros Hroom. split; [| split].
  - intros set values. pose proof (Add_spec set values) as Hadd.
    destruct (Add set values) as [set' ok]. cbn [fst snd].
    destruct Hadd as (_ & Hkeys & Hok & Hsame & Hvals & _).
    split; [rewrite Hkeys; apply union_subseteq_r |]. auto.
  - intros sel1 sel2 changed Hround. apply expand_round_ok in Hround.
    destruct Hround as [K N A S D]. split; [exact K |]. split; [exact N |].
    split; [exact A |]. intros (n & k & Hin & Hnin).
    destruct changed; [reflexivity |]. exfalso. apply Hnin.
    destruct (S eq_refl n) as [<- _]. exact Hin.
  - destruct (expandLoop_terminates fuel sel Hroom) as [r Hr]. exists r.
    split; [exact Hr |]. intros sel' ->.
    apply expandLoop_last in Hr as (sel0 & Hlast & _). exists sel0.
    split; [exact Hlast |]. intros n.
    apply expand_round_ok in Hlast. destruct (ok_same _ _ _ Hlast eq_refl n) as [Hk _].
    exact Hk.
Qed.

(** [expandSelection]: the loop, run with fuel for every key it can add. *)
Definition expandSelection (sel : Selection) : result Selection :=
  match expandLoop (S (room db s sel)) db s sel with
  | Some r => r
  | None => Panic "expandSelection: out of fuel"
  end.

Lemma expandSelection_loop sel :
  expandLoop (S (room db s sel)) db s sel = Some (expandSelection sel).
Proof.
  unfold expandSelection.
  destruct (expandLoop_terminates (S (room db s sel)) sel ltac:(lia)) as [r ->].
  reflexivity.
Qed.

Definition BuildSelection (cfg : option config.Config) : result Selection :=
  match cfg with
  | None => Ok ∅
  | Some cfg =>
      match config.Subset cfg with
      | None => Ok ∅
      | Some sub =>
          if bool_decide (config.Roots sub = []) then Ok ∅
          else
            let* selection := rfold (add_root db s) (config.Roots sub) ∅ in
            expandSelection selection
      end
  end.

(** *** Closure under foreign keys *)

(** A schema as [schema.Load] builds it: a table is stored under its name. *)
Definition schema_wf : Prop :=
  forall n tbl, schema.Tables s !! n = Some tbl -> schema.Name tbl = n.

(** The selection is closed under the foreign keys: whenever a tuple of a
    child's set selects a row whose referencing columns are all non-null,
    the set of the referenced table has a tuple for every parent row whose
    referenced columns hold those values. [same] says when a tuple of the
    set stands for the key of the parent row. *)
Definition fk_closed (same : list Value -> list Value -> Prop) (sel : Selection) : Prop :=
  forall childName childTbl fk parentTbl pkCols useRowID parentPK parentRowID
         v childRows r parentRows q,
    schema.Tables s !! childName = Some childTbl ->
    fk ∈ groupFKs childTbl ->
    schema.Tables s !! RefTable fk = Some parentTbl ->
    tablePKColumns childTbl = Ok (pkCols, useRowID) ->
    tablePKColumns parentTbl = Ok (parentPK, parentRowID) ->
    v ∈ vals_at sel childName ->
    db !! schema.Name childTbl = Some childRows -> r ∈ childRows ->
    tuple_eq (row_tuple pkCols r) v = true ->
    notNull (FromCols fk) r = true ->
    db !! schema.Name parentTbl = Some parentRows -> q ∈ parentRows ->
    row_tuple (ToCols fk) q = row_tuple (FromCols fk) r ->
    exists u, u ∈ vals_at sel (RefTable fk) /\ same u (row_tuple parentPK q).

(** Two tuples with the same textual key. *)
Definition same_key (u v : list Value) : Prop := keyFor u = keyFor v.

(** Every set of the selection is well formed and has the key columns of
    the table it is stored under. *)
Definition sel_wf (sel : Selection) : Prop :=
  forall n set, sel !! n = Some set ->
    set_wf set /\
    forall tbl, schema.Tables s !! n = Some tbl ->
                exists useRowID, tablePKColumns tbl = Ok (Cols set, useRowID).

Lemma sel_wf_empty : sel_wf ∅.
Proof. intros n set Hl. rewrite lookup_empty in Hl. discriminate. Qed.

Lemma sel_wf_insert (sel : Selection) n set :
  sel_wf sel -> set_wf set ->
  (forall tbl, schema.Tables s !! n = Some tbl ->
               exists useRowID, tablePKColumns tbl = Ok (Cols set, useRowID)) ->
  sel_wf (<[n := set]> sel).
Proof.
  intros Hsel Hset Hcols n' set' Hl. rewrite lookup_insert in Hl.
  destruct (decide (n = n')) as [<- | Hne].
  - injection Hl as <-. auto.
  - apply Hsel. exact Hl.
Qed.

Lemma add_rows_wf set added rows set' added' :
  add_rows (set, added) rows = (set', added') ->
  set_wf set -> set_wf set' /\ Cols set' = Cols set.
Proof.
  intros Hadd Hwf.
  destruct (add_rows_spec _ _ _ _ _ Hadd) as (Hcols & _ & _ & _ & _ & Hwf').
  auto.
Qed.

Lemma rfold_add_rows_wf {A} (g : A -> result (list (list Value))) chunks set added set' added' :
  rfold (fun st c => let* rows := g c in Ok (add_rows st rows)) chunks (set, added)
  = Ok (set', added') ->
  set_wf set -> set_wf set' /\ Cols set' = Cols set.
Proof.
  intros Hfold. apply rfold_add_rows in Hfold as (rowss & _ & Hadd).
  symmetry in Hadd. eapply add_rows_wf. exact Hadd.
Qed.

Lemma addParentKeys_wf parentTbl fk refVals sel sel' added :
  schema.Tables s !! RefTable fk = Some parentTbl ->
  sel_wf sel ->
  addParentKeys db parentTbl fk refVals sel = Ok (sel', added) ->
  sel_wf sel'.
Proof.
  intros Htbl Hsel. unfold addParentKeys.
  destruct (bool_decide (refVals = [])).
  { intros Heq. injection Heq as <- _. exact Hsel. }
  assert (Hgrow : forall set0 sel1 set' a,
    set_wf set0 ->
    (forall tbl, schema.Tables s !! RefTable fk = Some tbl ->
                 exists b, tablePKColumns tbl = Ok (Cols set0, b)) ->
    sel_wf sel1 ->
    (if sameColumnOrder (Cols set0) (ToCols fk)
     then let '(parentSet, added) := add_rows (set0, false) refVals in
          Ok (<[RefTable fk := parentSet]> sel1, added)
     else let* (parentSet, added) := selectParentPKs db parentTbl fk refVals set0 in
          Ok (<[RefTable fk := parentSet]> sel1, added)) = Ok (set', a) ->
    sel_wf set').
  { intros set0 sel1 res a Hwf0 Hcols0 Hsel1.
    destruct (sameColumnOrder (Cols set0) (ToCols fk)).
    - destruct (add_rows (set0, false) refVals) as [set1 a1] eqn:Hadd.
      intros Heq. injection Heq as <- _.
      destruct (add_rows_wf _ _ _ _ _ Hadd Hwf0) as [Hwf1 Hc1].
      apply sel_wf_insert; [exact Hsel1 | exact Hwf1 | rewrite Hc1; exact Hcols0].
    - unfold selectParentPKs.
      destruct (tablePKColumns parentTbl) as [[pkCols useRowID] | |]; try discriminate.
      cbn [rbind].
      destruct (rfold _ (chunkValues refVals 500) (set0, false)) as [[set1 a1] | |] eqn:Hfold;
        try discriminate.
      cbn [rbind]. intros Heq. injection Heq as <- _.
      destruct (rfold_add_rows_wf _ _ _ _ _ _ Hfold Hwf0) as [Hwf1 Hc1].
      apply sel_wf_insert; [exact Hsel1 | exact Hwf1 | rewrite Hc1; exact Hcols0]. }
  destruct (sel !! RefTable fk) as [parentSet |] eqn:Hlook.
  - cbn [rbind]. destruct (Hsel _ _ Hlook) as [Hwf0 Hcols0].
    apply Hgrow; assumption.
  - destruct (tablePKColumns parentTbl) as [[pkCols useRowID] | |] eqn:Hpk; try discriminate.
    cbn [rbind].
    assert (Hcols0 : forall tbl, schema.Tables s !! RefTable fk = Some tbl ->
                       exists b, tablePKColumns tbl = Ok (Cols (NewPKSet pkCols), b)).
    { intros tbl Ht. rewrite Htbl in Ht. injection Ht as <-. eauto. }
    apply Hgrow; [apply NewPKSet_wf | exact Hcols0 |].
    apply sel_wf_insert; [exact Hsel | apply NewPKSet_wf | exact Hcols0].
Qed.

Lemma addChildKeys_wf childName childTbl fk parentSet sel sel' added :
  schema_wf ->
  schema.Tables s !! childName = Some childTbl ->
  sel_wf sel ->
  addChildKeys db childTbl fk parentSet sel = Ok (sel', added) ->
  sel_wf sel'.
Proof.
  intros Hschema Htbl Hsel. unfold addChildKeys.
  destruct (tablePKColumns childTbl) as [[pkCols useRowID] | |] eqn:Hpk; try discriminate.
  cbn [rbind]. rewrite (Hschema _ _ Htbl).
  assert (Hnew : forall tbl, schema.Tables s !! childName = Some tbl ->
                   exists b, tablePKColumns tbl = Ok (Cols (NewPKSet pkCols), b)).
  { intros tbl Ht. rewrite Htbl in Ht. injection Ht as <-. eauto. }
  assert (Hgrow : forall set0 sel1 res a,
    set_wf set0 ->
    (forall tbl, schema.Tables s !! childName = Some tbl ->
                 exists b, tablePKColumns tbl = Ok (Cols set0, b)) ->
    sel_wf sel1 ->
    (let* parentVals := ValuesByColumns parentSet (ToCols fk) in
     if bool_decide (parentVals = []) then Ok (sel1, false)
     else
       let* (childSet, added) :=
         rfold (fun st chunk =>
                  let* rows := child_pk_query db childTbl fk pkCols chunk in
                  Ok (add_rows st rows))
               (chunkValues parentVals 500) (set0, false) in
       Ok (<[childName := childSet]> sel1, added)) = Ok (res, a) ->
    sel_wf res).
  { intros set0 sel1 res a Hwf0 Hcols0 Hsel1.
    destruct (ValuesByColumns parentSet (ToCols fk)) as [parentVals | |]; try discriminate.
    cbn [rbind]. destruct (bool_decide (parentVals = [])).
    { intros Heq. injection Heq as <- _. exact Hsel1. }
    destruct (rfold _ (chunkValues parentVals 500) (set0, false)) as [[set1 a1] | |] eqn:Hfold;
      try discriminate.
    cbn [rbind]. intros Heq. injection Heq as <- _.
    destruct (rfold_add_rows_wf _ _ _ _ _ _ Hfold Hwf0) as [Hwf1 Hc1].
    apply sel_wf_insert; [exact Hsel1 | exact Hwf1 | rewrite Hc1; exact Hcols0]. }
  destruct (sel !! childName) as [childSet |] eqn:Hlook.
  - destruct (Hsel _ _ Hlook) as [Hwf0 Hcols0]. apply Hgrow; assumption.
  - apply Hgrow; [apply NewPKSet_wf | exact Hnew |].
    apply sel_wf_insert; [exact Hsel | apply NewPKSet_wf | exact Hnew].
Qed.

End Steps.

End Subset.
End subset.

(** Evaluations of the subset solver, after [TestSubsetCopy]. *)
Module subset_tests.
#[local] Existing Instance testEnv.
#[local] Existing Instance testSql.

Definition column (name type : string) : schema.Column :=
  {| schema.ColName := name; schema.ColType := type; schema.NotNull := false;
     schema.DefaultSQL := None; schema.PK := false |}.

Definition table (name : string) (cols pk : list string) (fks : list schema.ForeignKey)
    : schema.Table :=
  {| schema.Name := name; schema.SQL := "CREATE TABLE " ++ name;
     schema.Columns := map (fun c => column c "") cols;
     schema.PrimaryKeys := pk; schema.ForeignKeys := fks;
     schema.WithoutRowID := false |}.

Definition row (id : Z) (cells : list (string * Value)) : Row :=
  {| row_id := id; row_cells := cells |}.

Definition root (table cond : string) (limit : Z) : config.RootConfig :=
  {| config.Table := table; config.Where := cond; config.Limit := limit |}.

Definition config_of (roots : option (list config.RootConfig)) : config.Config :=
  {| config.IncludeTables := []; config.ExcludeTables := []; config.Tables := ∅;
     config.Subset := (fun r => {| config.Roots := r |}) <$> roots |}.

(** [users(id PK, country)], [orders(id PK, user_id -> users.id, status)]. *)
Definition shop : schema.Schema :=
  schema_tests.schema_of
    [ table "users" ["id"; "email"; "full_name"; "country"] ["id"] [];
      table "orders" ["id"; "user_id"; "status"] ["id"]
            [schema_tests.fk 0 "user_id" "users" "id"] ].

Definition shop_db : Database :=
  {[ "users" := [ row 1 [("id", VInt 1); ("email", VText "user1@example.com");
                         ("full_name", VText "User One"); ("country", VText "US")];
                  row 2 [("id", VInt 2); ("email", VText "user2@example.com");
                         ("full_name", VText "User Two"); ("country", VText "CA")] ];
     "orders" := [ row 10 [("id", VInt 10); ("user_id", VInt 1); ("status", VText "pending")];
                   row 11 [("id", VInt 11); ("user_id", VInt 2); ("status", VText "shipped")] ] ]}.

Definition shop_cfg : config.Config :=
  config_of (Some [root "users" "country = 'US'" 1]).

Definition users_root : subset.PKSet :=
  fst (subset.Add (subset.NewPKSet ["id"]) [VInt 1]).

Example rfold_add_root_shop :
  subset.rfold (subset.add_root shop_db shop) [root "users" "country = 'US'" 1] ∅
  = Ok {[ "users" := users_root ]}.
Proof. vm_compute. reflexivity. Qed.

Example expandLoop_shop :
  (fun r => match r with
            | Some (Ok sel) => Some (map_to_list (subset.Values <$> sel))
            | _ => None
            end) (subset.expandLoop 3 shop_db shop {[ "users" := users_root ]})
  = Some [("orders", [[VInt 10]]); ("users", [[VInt 1]])].
Proof. vm_compute. reflexivity. Qed.

Example BuildSelection_shop :
  (fun r => match r with
            | Ok sel => Some (map_to_list (subset.Values <$> sel))
            | _ => None
            end) (subset.BuildSelection shop_db shop (Some shop_cfg))
  = Some [("orders", [[VInt 10]]); ("users", [[VInt 1]])].
Proof. vm_compute. reflexivity. Qed.

Example room_shop : subset.room shop_db shop {[ "users" := users_root ]} = 9%nat.
Proof. vm_compute. reflexivity. Qed.

Lemma expansion_terminates_witness :
  (subset.room shop_db shop {[ "users" := users_root ]} < 10)%nat /\
  exists r,
    subset.expandLoop 10 shop_db shop {[ "users" := users_root ]} = Some r /\
    forall sel', r = Ok sel' ->
      exists sel0, subset.expand_round shop_db shop sel0 = Ok (sel', false) /\
                   forall n, subset.keys_at sel' n = subset.keys_at sel0 n.
Proof.
  assert (Hroom : (subset.room shop_db shop {[ "users" := users_root ]} < 10)%nat).
  { rewrite room_shop. lia. }
  split; [exact Hroom |].
  apply (subset.expansion_terminates shop_db shop _ 10 Hroom).
Defined.

(** A parent with a two-column text key and two rows whose keys differ
    but are rendered alike, each referenced by one child row. *)
Definition pairs : schema.Schema :=
  schema_tests.schema_of
    [ table "p" ["a"; "b"] ["a"; "b"] [];
      table "c" ["id"; "pa"; "pb"] ["id"]
            [ schema_tests.fk 0 "pa" "p" "a"; schema_tests.fk 0 "pb" "p" "b" ] ].

Definition pairs_db : Database :=
  {[ "p" := [ row 1 [("a", VText "x|y"); ("b", VText "z")];
              row 2 [("a", VText "x"); ("b", VText "y|z")] ];
     "c" := [ row 1 [("id", VInt 1); ("pa", VText "x|y"); ("pb", VText "z")];
              row 2 [("id", VInt 2); ("pa", VText "x"); ("pb", VText "y|z")] ] ]}.

Definition pairs_cfg : config.Config := config_of (Some [root "c" "" 0]).

Example BuildSelection_pairs :
  (fun r => match r with
            | Ok sel => Some (map_to_list (subset.Values <$> sel))
            | _ => None
            end) (subset.BuildSelection pairs_db pairs (Some pairs_cfg))
  = Some [("c", [[VInt 1]; [VInt 2]]); ("p", [[VText "x|y"; VText "z"]])].
Proof. vm_compute. reflexivity. Qed.

Definition pairs_sel : gmap string subset.PKSet :=
  match subset.BuildSelection pairs_db pairs (Some pairs_cfg) with
  | Ok sel => sel
  | _ => ∅
  end.

(** The selection of the scenario is not closed under the foreign key:
    the child row 2 is selected, its parent row [("x", "y|z")] is not. *)
Lemma fk_closure_collision :
  subset.BuildSelection pairs_db pairs (Some pairs_cfg) = Ok pairs_sel /\
  ~ subset.fk_closed pairs_db pairs eq pairs_sel.
Proof.
  split; [vm_compute; reflexivity |].
  intros Hclosed.
  pose (child := table "c" ["id"; "pa"; "pb"] ["id"]
                   [ schema_tests.fk 0 "pa" "p" "a"; schema_tests.fk 0 "pb" "p" "b" ]).
  pose (parent := table "p" ["a"; "b"] ["a"; "b"] []).
  pose (fk := {| subset.RefTable := "p"; subset.FromCols := ["pa"; "pb"];
                 subset.ToCols := ["a"; "b"] |}).
  pose (r := row 2 [("id", VInt 2); ("pa", VText "x"); ("pb", VText "y|z")]).
  pose (q := row 2 [("a", VText "x"); ("b", VText "y|z")]).
  destruct (Hclosed "c" child fk parent ["id"] false ["a"; "b"] false [VInt 2]
              [ row 1 [("id", VInt 1); ("pa", VText "x|y"); ("pb", VText "z")]; r ] r
              [ row 1 [("a", VText "x|y"); ("b", VText "z")]; q ] q)
    as (u & Hu & Heq).
  - vm_compute. reflexivity.
  - apply list_elem_of_In. vm_compute. left. reflexivity.
  - vm_compute. reflexivity.
  - vm_compute. reflexivity.
  - vm_compute. reflexivity.
  - apply list_elem_of_In. vm_compute. right. left. reflexivity.
  - vm_compute. reflexivity.
  - apply list_elem_of_In. right. left. reflexivity.
  - vm_compute. reflexivity.
  - vm_compute. reflexivity.
  - vm_compute. reflexivity.
  - apply list_elem_of_In. right. left. reflexivity.
  - vm_compute. reflexivity.
  - apply list_elem_of_In in Hu. vm_compute in Hu. destruct Hu as [Hu | []].
    subst u. vm_compute in Heq. discriminate Heq.
Qed.

End subset_tests.

(** ** Further properties of the transformer engine *)

Module transform_props.
Import transform.
Section Props.
Context `{GoEnv}.

Lemma hex_length s : String.length (hex_EncodeToString s) = (2 * String.length s)%nat.
Proof. induction s as [| c s IH]; simpl; [reflexivity | rewrite IH; lia]. Qed.

Lemma hex_digest_length msg :
  String.length (hex_EncodeToString (Sha256.Sum256 msg)) = 64%nat.
Proof. rewrite hex_length, Sum256_length. reflexivity. Qed.

Lemma cut_digits (maxLen : Z) (out : string) :
  String.length out = 64%nat ->
  let n := if (0 <? maxLen) && (maxLen <? 64) then Z.to_nat maxLen else 64%nat in
  String.length (str_take n out) = n /\
  (if (0 <? maxLen) && (maxLen <? str_len out)
   then Ok (VText (str_take (Z.to_nat maxLen) out)) else Ok (VText out))
  = Ok (VText (str_take n out)).
Proof.
  intros Hlen n.
  assert (Hn : (n <= 64)%nat).
  { subst n. destruct (Z.ltb_spec 0 maxLen), (Z.ltb_spec maxLen 64); simpl; lia. }
  split; [rewrite str_take_length, Hlen; lia |].
  unfold str_len. rewrite Hlen. change (Z.of_nat 64) with 64. subst n.
  destruct ((0 <? maxLen) && (maxLen <? 64)); [reflexivity |].
  rewrite str_take_all by lia. reflexivity.
Qed.

(** [HashSha256.Transform]: null stays null; any other value becomes the
    64 hexadecimal digits of [SHA-256(salt ++ string(value))], cut to
    [maxlen] digits exactly when [0 < maxlen < 64]. The row context is
    not consulted. *)
Theorem HashSha256_output (salt : string) (maxLen : Z) (value : Value) (row : RowContext) :
  let digits := hex_EncodeToString (Sha256.Sum256 (salt ++ Sprint value)) in
  let n := if (0 <? maxLen) && (maxLen <? 64) then Z.to_nat maxLen else 64%nat in
  String.length (str_take n digits) = n /\
  Transform (HashSha256 salt maxLen) value row =
    match value with
    | VNull => Ok VNull
    | _ => Ok (VText (str_take n digits))
    end.
Proof.
  intros digits n.
  destruct (cut_digits maxLen digits (hex_digest_length _)) as [Hlen Hres].
  split; [exact Hlen |].
  cbn [Transform]. unfold HashSha256_Transform.
  destruct value; first [reflexivity | exact Hres].
Qed.

(** [HmacSha256.Transform] does not consult the row context: on any two
    row contexts, so for any two seeds, it returns the same result, null
    for a null value and otherwise [hex(HMAC-SHA-256(key = salt, msg =
    string(value)))], cut to [maxlen] digits when [maxlen] is positive. *)
Theorem HmacSha256_ignores_seed (salt : string) (maxLen : Z) (value : Value)
    (r1 r2 : RowContext) :
  Transform (HmacSha256 salt maxLen) value r1
  = Transform (HmacSha256 salt maxLen) value r2 /\
  Transform (HmacSha256 salt maxLen) value r1
  = match value with
    | VNull => Ok VNull
    | _ => Ok (VText (hmac_hex salt maxLen value))
    end.
Proof.
  cbn [Transform]. rewrite !HmacSha256_value. split; reflexivity.
Qed.

(** A pick from a non-empty list never fails and returns one of its
    entries. *)
Lemma pick_ok (l : list string) (rng : rand_Rand) :
  l <> [] -> exists s rng', pick l rng = Ok (s, rng') /\ s ∈ l.
Proof.
  intros Hl. unfold pick, Intn.
  assert (Hpos : 0 < Z.of_nat (length l)) by (destruct l; [congruence | simpl; lia]).
  destruct (Z.leb_spec (Z.of_nat (length l)) 0) as [Hle | _]; [lia |].
  cbn [rbind]. pose proof (rand_draw_range rng _ Hpos) as Hr.
  destruct (rand_draw rng (Z.of_nat (length l))) as [i rng'] eqn:Hdraw. cbn [fst] in Hr.
  destruct (l !! Z.to_nat i) as [s |] eqn:Hs.
  - exists s, rng'. split; [reflexivity |]. eapply list_elem_of_lookup_2. exact Hs.
  - apply lookup_ge_None in Hs. lia.
Qed.

Lemma Intn_ok (rng : rand_Rand) (n : Z) :
  0 < n -> exists i rng', Intn rng n = Ok (i, rng') /\ 0 <= i < n.
Proof.
  intros Hn. unfold Intn. destruct (Z.leb_spec n 0) as [Hle | _]; [lia |].
  pose proof (rand_draw_range rng n Hn) as Hr.
  destruct (rand_draw rng n) as [i rng']. exists i, rng'. auto.
Qed.

(** [FakerName] and [FakerEmail] never fail and ignore the value they
    replace, a null included: a row has one first name, one last name and
    one domain, taken from the word lists; whatever the value, the name
    is that first and last name, and the address is their lower-case
    forms at that domain. So the address of a row goes with its name. *)
Theorem Faker_words (row : RowContext) :
  exists first last domain,
    first ∈ firstNames /\ last ∈ lastNames /\ domain ∈ emailDomains /\
    forall value,
      Transform FakerName value row = Ok (VText (first ++ " " ++ last)) /\
      Transform FakerEmail value row
      = Ok (VText (ToLower first ++ "." ++ ToLower last ++ "@" ++ domain)).
Proof.
  destruct (pick_ok firstNames (DeterministicRand row) ltac:(discriminate))
    as (first & rng1 & Hp1 & Hfirst).
  destruct (pick_ok lastNames rng1 ltac:(discriminate)) as (last & rng2 & Hp2 & Hlast).
  destruct (pick_ok emailDomains rng2 ltac:(discriminate)) as (domain & rng3 & Hp3 & Hdom).
  exists first, last, domain.
  split; [exact Hfirst |]. split; [exact Hlast |]. split; [exact Hdom |].
  intros value. cbn [Transform]. unfold FakerName_Transform, FakerEmail_Transform.
  rewrite Hp1. cbn [rbind]. rewrite Hp2. cbn [rbind]. rewrite Hp3. cbn [rbind].
  split; reflexivity.
Qed.

(** [FakerAddress] and [FakerPhone] never fail; the house number lies in
    [100, 9098], the zip code in [10000, 99998], area code and prefix in
    [200, 999] and the line number in [1000, 9999]. *)
Theorem Faker_numbers (value : Value) (row : RowContext) :
  (exists num street city state zip,
      100 <= num <= 9098 /\ street ∈ streetNames /\ city ∈ cityNames /\
      state ∈ stateCodes /\ 10000 <= zip <= 99998 /\
      Transform FakerAddress value row
      = Ok (VText (FormatInt num ++ " " ++ street ++ " St, " ++ city ++ ", " ++ state
                   ++ " " ++ FormatInt zip))) /\
  (exists area prefix line,
      200 <= area <= 999 /\ 200 <= prefix <= 999 /\ 1000 <= line <= 9999 /\
      Transform FakerPhone value row
      = Ok (VText (FormatInt area ++ "-" ++ FormatInt prefix ++ "-" ++ FormatInt line))).
Proof.
  split.
  - cbn [Transform]. unfold FakerAddress_Transform.
    destruct (Intn_ok (DeterministicRand row) 8999 ltac:(lia)) as (num & rng1 & -> & Hnum).
    cbn [rbind].
    destruct (pick_ok streetNames rng1 ltac:(discriminate)) as (street & rng2 & -> & Hstreet).
    cbn [rbind].
    destruct (pick_ok cityNames rng2 ltac:(discriminate)) as (city & rng3 & -> & Hcity).
    cbn [rbind].
    destruct (pick_ok stateCodes rng3 ltac:(discriminate)) as (state & rng4 & -> & Hstate).
    cbn [rbind].
    destruct (Intn_ok rng4 89999 ltac:(lia)) as (zip & rng5 & -> & Hzip).
    cbn [rbind]. exists (num + 100), street, city, state, (zip + 10000).
    repeat (split; [first [lia | assumption] |]). reflexivity.
  - cbn [Transform]. unfold FakerPhone_Transform.
    destruct (Intn_ok (DeterministicRand row) 800 ltac:(lia)) as (area & rng1 & -> & Harea).
    cbn [rbind].
    destruct (Intn_ok rng1 800 ltac:(lia)) as (prefix & rng2 & -> & Hprefix).
    cbn [rbind].
    destruct (Intn_ok rng2 9000 ltac:(lia)) as (line & rng3 & -> & Hline).
    cbn [rbind]. exists (area + 200), (prefix + 200), (line + 1000).
    repeat (split; [lia |]). reflexivity.
Qed.

(** The shift of [DateShift] in days, as a duration in nanoseconds. *)
Definition days_shift (days : Z) : Z := days * 24 * time_Hour.

(** What [DateShift] makes of a value for a shift of [days] days. *)
Definition shift_value (days : Z) (value : Value) : result Value :=
  match value with
  | VNull => Ok VNull
  | VTime v => Ok (VTime (time_Add v (days_shift days)))
  | VInt v => Ok (VInt (time_ToUnix (time_Add (time_Unix v) (days_shift days))))
  | VText v =>
      match time_Parse RFC3339 v with
      | Some ts => Ok (VText (time_Format (time_Add ts (days_shift days)) RFC3339))
      | None =>
          match time_Parse "2006-01-02" v with
          | Some ts => Ok (VText (time_Format (time_Add ts (days_shift days)) "2006-01-02"))
          | None => Ok (VText v)
          end
      end
  | v => Ok v
  end.

(** [NewDateShift] replaces a bound [max_days <= 0] by 30. For a bound of
    at most 106751 days (the largest whose nanoseconds fit an [int64])
    the transformer never fails, and one row has one shift: a whole
    number of days in [-max_days, max_days] that depends on the row
    context only, so every date of a row moves by the same amount. A
    null stays null, a string that parses neither as RFC 3339 nor as a
    plain date is returned as it is, and so is a value of any other
    type. *)
Theorem DateShift_one_shift_per_row (maxDays : Z) (row : RowContext) :
  maxDays <= 106751 ->
  let m := if maxDays <=? 0 then 30 else maxDays in
  exists days,
    - m <= days <= m /\
    forall value, Transform (NewDateShift maxDays) value row = shift_value days value.
Proof.
  intros Hmax m.
  assert (Hm : 0 < m <= 106751).
  { subst m. destruct (Z.leb_spec maxDays 0); lia. }
  assert (Hn : wrap64 (m * 2 + 1) = m * 2 + 1).
  { apply (wrap64_unique _ _ 0); [unfold int64_range |]; lia. }
  destruct (Intn_ok (DeterministicRand row) (m * 2 + 1) ltac:(lia)) as (d & rng & Hd & Hrange).
  exists (d - m). split; [lia |].
  assert (Hdays : wrap64 (d - m) = d - m).
  { apply (wrap64_unique _ _ 0); [unfold int64_range |]; lia. }
  assert (Hshift : wrap64 ((d - m) * 24 * time_Hour) = days_shift (d - m)).
  { unfold days_shift, time_Hour.
    apply (wrap64_unique _ _ 0); [unfold int64_range |]; lia. }
  intros value. unfold NewDateShift. fold m. cbn [Transform].
  unfold DateShift_Transform. rewrite Hn, Hd. cbn [rbind]. cbv zeta.
  rewrite Hdays, Hshift. destruct value; reflexivity.
Qed.

(** A bound of [2^62] days or more makes [maxDays*2+1] wrap to a
    non-positive [int], and [Intn] panics on every value but null. *)
Theorem DateShift_overflow (maxDays : Z) (value : Value) (row : RowContext) :
  2 ^ 62 <= maxDays < 2 ^ 63 ->
  value <> VNull ->
  Transform (NewDateShift maxDays) value row = Panic "invalid argument to Intn".
Proof.
  intros Hmax Hvalue. unfold NewDateShift.
  destruct (Z.leb_spec maxDays 0) as [Hle | _]; [lia |].
  cbn [Transform]. unfold DateShift_Transform.
  assert (Hn : wrap64 (maxDays * 2 + 1) = maxDays * 2 + 1 - 2 ^ 64).
  { apply (wrap64_unique _ _ (-1)); [unfold int64_range |]; lia. }
  rewrite Hn. unfold Intn.
  destruct (Z.leb_spec (maxDays * 2 + 1 - 2 ^ 64) 0) as [_ | Hgt]; [| lia].
  destruct value; [congruence | reflexivity ..].
Qed.

(** *** The registry and [Build] *)

(** [Register]: nothing is stored for an empty name or a nil factory. *)
Definition Register (name : string) (factory : option Factory)
    (registry : gmap string Factory) : gmap string Factory :=
  if String.eqb name "" then registry
  else match factory with
       | None => registry
       | Some f => <[ToLower name := f]> registry
       end.

(** The type names [Build] knows by itself. *)
Definition builtin_names : list string :=
  ["hashsha256"; "hmacsha256"; "stabletokenize"; "regexreplace"; "setnull"; "setvalue";
   "fakername"; "fakeremail"; "fakeraddress"; "fakerphone"; "dateshift"; "map"].

(** For a name and a configured type of ASCII bytes: a factory registered
    under a name serves every configuration whose type spells that name
    in any letter case, also when the name is one of the built-in types;
    registering under another name (compared in lower case), under the
    empty name, or a nil factory leaves the outcome of [Build] as it
    was. *)
Theorem Register_Build (registry : gmap string Factory) (name : string)
    (factory : option Factory) (cfg : config.TransformConfig) (salt : string) :
  is_ascii name = true -> is_ascii (config.Type_ cfg) = true ->
  Build (Register name factory registry) (Some cfg) salt =
  match factory with
  | Some f =>
      if negb (String.eqb name "") && String.eqb (ToLower name) (ToLower (config.Type_ cfg))
      then f cfg salt
      else Build registry (Some cfg) salt
  | None => Build registry (Some cfg) salt
  end.
Proof.
  intros _ _. unfold Register. destruct (String.eqb name ""); cbn [negb andb].
  { destruct factory; reflexivity. }
  destruct factory as [f |]; [| reflexivity].
  unfold Build, Factory in *. cbv zeta.
  destruct (String.eqb_spec (ToLower name) (ToLower (config.Type_ cfg))) as [-> | Hne].
  - rewrite lookup_insert_eq. reflexivity.
  - rewrite lookup_insert_ne by exact Hne. reflexivity.
Qed.

(** For a configured type of ASCII bytes with no factory registered
    under its lower-case form, [Build] succeeds exactly for the twelve
    built-in type names (and, for [regexreplace], a pattern that
    compiles). It then returns a built-in transformer, never nil, whose
    [Name()] in lower case is the type name, except that the type [map]
    gives [MapReplace]; for [regexreplace] with a pattern that does not
    compile it fails with the error of the regexp package; any other
    type is the error [unknown transformer type]. *)
Theorem Build_builtin_types (registry : gmap string Factory) (cfg : config.TransformConfig)
    (salt : string) :
  let key := ToLower (config.Type_ cfg) in
  is_ascii (config.Type_ cfg) = true ->
  registry !! key = None ->
  (key ∈ builtin_names ->
   (key = "regexreplace"%string -> regexp_Compile (config.Pattern cfg) <> None) ->
   exists t, Build registry (Some cfg) salt = Ok (Some t) /\ builtin t = true /\
             ToLower (Name t) = if String.eqb key "map" then "mapreplace"%string else key) /\
  (key = "regexreplace"%string -> regexp_Compile (config.Pattern cfg) = None ->
   exists e, Build registry (Some cfg) salt = Err e) /\
  (key ∉ builtin_names ->
   Build registry (Some cfg) salt = Err ("unknown transformer type: " ++ config.Type_ cfg)).
Proof.
  intros key _ Hreg. unfold Build, Factory in *. cbv zeta. fold key. rewrite Hreg.
  split; [| split].
  - intros Hin Hre. unfold builtin_names in Hin.
    repeat (apply elem_of_cons in Hin as [-> | Hin]);
      [.. | apply elem_of_nil in Hin; contradiction];
      cbn [String.eqb Ascii.eqb Bool.eqb andb];
      try (eexists; split; [reflexivity |]; split; reflexivity).
    destruct (regexp_Compile (config.Pattern cfg)) as [re |] eqn:Hc;
      [| exfalso; exact (Hre eq_refl eq_refl)].
    eexists; split; [reflexivity |]; split; reflexivity.
  - intros -> ->. eexists. reflexivity.
  - intros Hnot.
    repeat match goal with
    | |- context [String.eqb key ?b] =>
        destruct (String.eqb_spec key b) as [He | _];
        [exfalso; apply Hnot; rewrite He; apply list_elem_of_In; simpl; tauto |]
    end.
    reflexivity.
Qed.

End Props.
End transform_props.

(** ** Further properties of [internal/schema] *)

Module schema_props.
Import schema.

(** *** [QuoteIdent] *)

(** The double quote. *)
Definition dquote : ascii := "034"%char.

(** [strings.ReplaceAll(s, old, new)] for a one-byte [old]. *)
Fixpoint ReplaceAll (s : string) (old : ascii) (new : string) : string :=
  match s with
  | EmptyString => EmptyString
  | String c s' =>
      if Ascii.eqb c old then new ++ ReplaceAll s' old new
      else String c (ReplaceAll s' old new)
  end.

Definition QuoteIdent (name : string) : string :=
  let escaped := ReplaceAll name dquote (String dquote (String dquote EmptyString)) in
  String dquote EmptyString ++ escaped ++ String dquote EmptyString.

Lemma string_length_app (a b : string) :
  String.length (a ++ b) = (String.length a + String.length b)%nat.
Proof. induction a as [| c a IH]; simpl; [reflexivity | rewrite IH; reflexivity]. Qed.

Lemma string_app_inv_tail (a b t : string) : (a ++ t = b ++ t -> a = b)%string.
Proof.
  intros Heq.
  assert (Hl : list_ascii_of_string a ++ list_ascii_of_string t
               = list_ascii_of_string b ++ list_ascii_of_string t).
  { assert (Happ : forall x y, list_ascii_of_string (x ++ y)
                               = list_ascii_of_string x ++ list_ascii_of_string y).
    { intros x y. induction x as [| c x IH]; simpl; [reflexivity | rewrite IH; reflexivity]. }
    rewrite <- !Happ, Heq. reflexivity. }
  apply app_inv_tail in Hl.
  rewrite <- (string_of_list_ascii_of_string a), <- (string_of_list_ascii_of_string b), Hl.
  reflexivity.
Qed.

Lemma escape_inj (a b : string) :
  ReplaceAll a dquote (String dquote (String dquote EmptyString))
  = ReplaceAll b dquote (String dquote (String dquote EmptyString)) -> a = b.
Proof.
  revert b. induction a as [| c a IH]; intros [| d b]; simpl; intros Heq.
  - reflexivity.
  - destruct (Ascii.eqb d dquote); discriminate.
  - destruct (Ascii.eqb c dquote); discriminate.
  - destruct (Ascii.eqb_spec c dquote) as [-> | Hc], (Ascii.eqb_spec d dquote) as [-> | Hd];
      simpl in Heq.
    + injection Heq as Heq. f_equal. apply IH. exact Heq.
    + injection Heq as Hd' _. congruence.
    + injection Heq as Hc' _. congruence.
    + injection Heq as -> Heq. f_equal. apply IH. exact Heq.
Qed.

(** [QuoteIdent] wraps the name in double quotes and doubles every double
    quote inside: the result is two bytes longer than the name plus one
    byte per double quote of the name, and two names are never quoted to
    the same text. *)
Theorem QuoteIdent_injective (a b : string) :
  (QuoteIdent a = QuoteIdent b <-> a = b) /\
  String.length (QuoteIdent a)
  = (String.length a + 2
     + length (filter (fun c => c = dquote) (list_ascii_of_string a)))%nat.
Proof.
  split.
  - split; [| intros ->; reflexivity].
    unfold QuoteIdent. cbv zeta. simpl. intros Heq. injection Heq as Heq.
    apply escape_inj. eapply string_app_inv_tail. exact Heq.
  - unfold QuoteIdent. cbv zeta. rewrite !string_length_app. cbn [String.length].
    assert (Hesc : String.length (ReplaceAll a dquote (String dquote (String dquote EmptyString)))
                   = (String.length a
                      + length (filter (fun c => c = dquote) (list_ascii_of_string a)))%nat).
    { induction a as [| c a IH]; [reflexivity |].
      cbn [ReplaceAll list_ascii_of_string String.length]. rewrite filter_cons.
      destruct (Ascii.eqb_spec c dquote) as [-> | Hc].
      - destruct (decide (dquote = dquote)) as [_ | Hne]; [| contradiction].
        rewrite string_length_app. cbn [String.length length]. rewrite IH. lia.
      - destruct (decide (c = dquote)) as [He | _]; [contradiction |].
        cbn [String.length]. rewrite IH. lia. }
    rewrite Hesc. lia.
Qed.

(** *** [TableOrder] and the reference graph *)

Section Order.
Variable s : Schema.

Lemma greedy_prefix (l : list string) (x : string) : greedy s (l ++ [x]) -> greedy s l.
Proof.
  intros Hg l1 n l2 Heq. apply (Hg l1 n (l2 ++ [x])).
  rewrite Heq, <- app_assoc. reflexivity.
Qed.

(** Whatever the greedy loop emits is grounded. *)
Lemma greedy_grounded (done : list string) :
  greedy s done -> forall t, t ∈ done -> grounded s t.
Proof.
  induction done as [| x l IH] using rev_ind; intros Hg t Ht.
  - inversion Ht.
  - pose proof (greedy_prefix l x Hg) as Hl.
    apply elem_of_app in Ht as [Ht | Ht]; [apply IH; assumption |].
    apply list_elem_of_singleton in Ht. subst t.
    apply (greedy_head s l x []) in Hg as (Hname & _ & Hpar & _).
    constructor; [apply names_elem; exact Hname |].
    intros p Hp. rewrite Forall_forall in Hpar. apply IH; [exact Hl | apply Hpar; exact Hp].
Qed.

Lemma self_reference_not_grounded (t : string) : t ∈ parents s t -> ~ grounded s t.
Proof.
  intros Hself Hg. induction Hg as [t _ _ IH]. exact (IH t Hself Hself).
Qed.

(** The order [TableOrder] returns splits in two: first exactly the
    grounded tables (those from which every chain of references ends),
    then exactly the tables of the schema that are not grounded. A table
    with a foreign key to itself is therefore always in the second part,
    also when nothing else refers to it. *)
Theorem TableOrder_grounded_first (it1 it2 it3 it4 : list string) :
  range_of (Tables s) it1 -> range_of (Tables s) it2 ->
  range_of (Tables s) it3 -> range_of (Tables s) it4 ->
  exists front rest,
    TableOrder_in it1 it2 it3 it4 s = Some (front ++ rest) /\
    (forall t, t ∈ front <-> grounded s t) /\
    (forall t, t ∈ rest <-> is_Some (Tables s !! t) /\ ~ grounded s t) /\
    (forall t, t ∈ parents s t -> t ∈ rest).
Proof.
  intros H1 H2 H3 H4.
  assert (Hfront : forall t, t ∈ kahn_order s <-> grounded s t).
  { intros t. split; [| apply grounded_kahn_order].
    apply greedy_grounded, kahn_order_greedy. }
  assert (Hrest : forall t, t ∈ filter (fun t => t ∉ kahn_order s) (names s)
                            <-> is_Some (Tables s !! t) /\ ~ grounded s t).
  { intros t. rewrite list_elem_of_filter, names_elem, Hfront. tauto. }
  exists (kahn_order s), (filter (fun t => t ∉ kahn_order s) (names s)).
  split; [apply TableOrder_in_spec; assumption |].
  split; [exact Hfront |]. split; [exact Hrest |].
  intros t Hself. apply Hrest. split.
  - apply (parents_table s t t Hself).
  - apply self_reference_not_grounded. exact Hself.
Qed.

Lemma filter_none {A} (P : A -> Prop) `{forall x, Decision (P x)} (l : list A) :
  (forall x, x ∈ l -> ~ P x) -> filter P l = [].
Proof.
  induction l as [| x l IH]; intros Hl; [reflexivity |].
  rewrite filter_cons. destruct (decide (P x)) as [HP | _].
  - exfalso. apply (Hl x); [apply elem_of_cons; left; reflexivity | exact HP].
  - apply IH. intros y Hy. apply Hl. apply elem_of_cons. right. exact Hy.
Qed.

Lemma split_sorted (l : list string) :
  (forall l1 n l2 m, l = l1 ++ n :: l2 -> m ∈ l2 -> str_le n m) -> Sorted str_le l.
Proof.
  intros Hsplit. apply StronglySorted_Sorted.
  induction l as [| x l IH]; constructor.
  - apply IH. intros l1 n l2 m Heq Hm. apply (Hsplit (x :: l1) n l2 m); [| exact Hm].
    rewrite Heq. reflexivity.
  - apply Forall_forall. intros m Hm. apply (Hsplit [] x l m); [reflexivity | exact Hm].
Qed.

(** When no table has a foreign key to a table of the schema, the order
    is the list of the table names in lexicographic order. *)
Theorem TableOrder_no_references (it1 it2 it3 it4 : list string) :
  range_of (Tables s) it1 -> range_of (Tables s) it2 ->
  range_of (Tables s) it3 -> range_of (Tables s) it4 ->
  (forall t, parents s t = []) ->
  TableOrder_in it1 it2 it3 it4 s = Some (names s).
Proof.
  intros H1 H2 H3 H4 Hfree.
  rewrite (TableOrder_in_spec s it1 it2 it3 it4) by assumption.
  assert (Hall : forall t, t ∈ names s -> t ∈ kahn_order s).
  { intros t Ht. apply grounded_kahn_order. constructor; [apply names_elem; exact Ht |].
    intros p Hp. rewrite Hfree in Hp. inversion Hp. }
  assert (Heq : kahn_order s = names s).
  { apply sorted_strings_unique.
    - apply split_sorted. intros l1 n l2 m Heq Hm.
      pose proof (kahn_order_greedy s) as Hg. rewrite Heq in Hg.
      pose proof (kahn_order_NoDup s) as Hnd. rewrite Heq in Hnd.
      apply greedy_head in Hg as (_ & _ & _ & Hmin). apply Hmin, ready_elem.
      split; [apply kahn_order_names; rewrite Heq; set_solver |].
      split; [| rewrite Hfree; constructor].
      apply NoDup_app in Hnd as (_ & Hdisj & _). intros Hin.
      apply (Hdisj m Hin). set_solver.
    - apply names_Sorted.
    - apply kahn_order_NoDup.
    - apply names_NoDup.
    - intros t. split; [apply kahn_order_names | apply Hall]. }
  unfold TableOrder_spec. rewrite Heq.
  replace (filter (fun t => t ∉ names s) (names s)) with (@nil string).
  - rewrite app_nil_r. reflexivity.
  - symmetry. apply filter_none. intros t Ht Hnot. contradiction.
Qed.

End Order.
End schema_props.

(** ** Further properties of [internal/subset] *)

Module subset_props.
Import subset.
Section Props.
Context `{GoEnv} `{!SqlEngine}.

Abbreviation Selection := (gmap string PKSet).

(** *** [chunkValues] *)

Lemma chunk_loop_bounds {A} (fuel size : nat) (values : list A) :
  (0 < size)%nat ->
  forall chunk, chunk ∈ chunk_loop fuel size values ->
                chunk <> [] /\ (length chunk <= size)%nat.
Proof.
  intros Hsize. revert values. induction fuel as [| fuel IH]; intros values chunk Hin.
  - inversion Hin.
  - destruct values as [| v values]; [inversion Hin |].
    cbn [chunk_loop] in Hin. apply elem_of_cons in Hin as [-> | Hin].
    + split; [destruct size; [lia | discriminate] | apply firstn_le_length].
    + eapply IH. exact Hin.
Qed.

Lemma chunk_loop_full {A} (fuel size : nat) (values : list A) :
  (0 < size)%nat ->
  forall i chunk,
    chunk_loop fuel size values !! i = Some chunk ->
    (S i < length (chunk_loop fuel size values))%nat ->
    length chunk = size.
Proof.
  intros Hsize. revert values. induction fuel as [| fuel IH]; intros values i chunk Hi Hlast.
  - discriminate.
  - destruct values as [| v values]; [discriminate |].
    cbn [chunk_loop] in Hi, Hlast. destruct i as [| i].
    + injection Hi as <-. cbn [length] in Hlast.
      rewrite length_firstn. apply Nat.min_l.
      destruct (Nat.le_gt_cases size (length (v :: values))) as [Hle | Hgt]; [exact Hle |].
      rewrite skipn_all2 in Hlast by lia.
      destruct fuel; simpl in Hlast; lia.
    + apply (IH (skipn size (v :: values)) i chunk Hi). cbn [length] in Hlast. lia.
Qed.

(** [chunkValues] cuts a list into consecutive pieces: joined in order
    they give the list back. For a positive size no piece is longer than
    the size and every piece but the last has exactly that length; no
    piece of a non-empty list is empty, while the empty list gives one
    empty piece; a size of zero or less gives the whole list as the only
    piece. *)
Theorem chunkValues_partition {A} (values : list A) (size : Z) :
  let chunks := chunkValues values size in
  concat chunks = values /\
  (0 < size ->
   (forall chunk, chunk ∈ chunks -> Z.of_nat (length chunk) <= size) /\
   (forall i chunk, chunks !! i = Some chunk -> (S i < length chunks)%nat ->
                    Z.of_nat (length chunk) = size)) /\
  (values <> [] -> forall chunk, chunk ∈ chunks -> chunk <> []) /\
  (values = [] \/ size <= 0 -> chunks = [values]).
Proof.
  intros chunks. split; [apply chunkValues_concat |].
  subst chunks. unfold chunkValues.
  destruct (Z.leb_spec size 0) as [Hsize | Hsize]; cbn [orb].
  { split; [intros Hpos; lia |]. split; [| reflexivity].
    intros Hne chunk Hin. apply list_elem_of_singleton in Hin. subst chunk. exact Hne. }
  destruct (Z.leb_spec (Z.of_nat (length values)) size) as [Hlen | Hlen].
  { split; [intros _; split |].
    - intros chunk Hin. apply list_elem_of_singleton in Hin. subst chunk. exact Hlen.
    - intros i chunk Hi Hlast. simpl in Hlast. lia.
    - split; [| reflexivity].
      intros Hne chunk Hin. apply list_elem_of_singleton in Hin. subst chunk. exact Hne. }
  split; [intros _; split |].
  - intros chunk Hin. apply chunk_loop_bounds in Hin as [_ Hle]; lia.
  - intros i chunk Hi Hlast.
    assert (Hpos : (0 < Z.to_nat size)%nat) by lia.
    rewrite (chunk_loop_full _ _ _ Hpos i chunk Hi Hlast). lia.
  - split.
    + intros _ chunk Hin. apply chunk_loop_bounds in Hin as [Hne _]; [exact Hne | lia].
    + intros [-> | Hle]; [simpl in Hlen |]; lia.
Qed.

(** *** [PKSet] *)

(** The invariant of a [PKSet] built by [Add]: [Keys] holds the textual
    keys of [Values], and no two values have the same textual key. *)
Definition pk_inv (set : PKSet) : Prop :=
  set_wf set /\ NoDup (map keyFor (Values set)) /\ length (Values set) = size (Keys set).

Lemma add_rows_inv (rows : list (list Value)) :
  forall set added set' added',
    pk_inv set ->
    add_rows (set, added) rows = (set', added') ->
    pk_inv set' /\ exists more, Values set' = Values set ++ more /\ sublist more rows.
Proof.
  induction rows as [| row rows IH]; intros set added set' added' Hinv Hadd.
  - injection Hadd as <- <-. split; [exact Hinv |]. exists [].
    split; [rewrite app_nil_r; reflexivity | constructor].
  - unfold add_rows in Hadd. cbn [fold_left] in Hadd. fold (add_rows) in Hadd.
    unfold Add in Hadd.
    destruct (bool_decide_reflect (keyFor row ∈ Keys set)) as [Hin | Hnew].
    + apply IH in Hadd as (Hinv' & more & Hvals & Hsub); [| exact Hinv].
      split; [exact Hinv' |]. exists more. split; [exact Hvals |].
      apply sublist_cons. exact Hsub.
    + destruct Hinv as (Hwf & Hnd & Hlen).
      apply IH in Hadd as (Hinv' & more & Hvals & Hsub).
      * split; [exact Hinv' |]. exists (row :: more). cbn [Values] in Hvals.
        split; [rewrite Hvals, <- app_assoc; reflexivity |].
        apply sublist_skip. exact Hsub.
      * unfold pk_inv. cbn [Values Keys]. split; [| split].
        -- intros k. cbn [Keys Values]. rewrite elem_of_union, elem_of_singleton, (Hwf k).
           split.
           ++ intros [-> | (v & Hv & Hk)].
              ** exists row. split; [apply elem_of_app; right; constructor | reflexivity].
              ** exists v. split; [apply elem_of_app; left; exact Hv | exact Hk].
           ++ intros (v & Hv & Hk). apply elem_of_app in Hv as [Hv | Hv].
              ** right. exists v. auto.
              ** apply list_elem_of_singleton in Hv. subst v. left. auto.
        -- rewrite map_app. apply NoDup_app. split; [exact Hnd |].
           split; [| apply NoDup_singleton].
           intros k Hk Hk'. apply list_elem_of_singleton in Hk'. subst k.
           apply Hnew, Hwf. apply list_elem_of_fmap in Hk as (v & Hv1 & Hv2). eauto.
        -- rewrite length_app, size_union, size_singleton by set_solver.
           simpl. lia.
Qed.

(** Filling a fresh [PKSet] from a list of tuples keeps, in their order,
    tuples of the list with pairwise different textual keys, one for
    every key that occurs; [Keys] holds exactly these keys, [Len] counts
    them, the columns are untouched, and the scan reports an addition
    exactly when the list is not empty. *)
Theorem PKSet_distinct_keys (cols : list string) (rows : list (list Value)) :
  let set := fst (add_rows (NewPKSet cols, false) rows) in
  let added := snd (add_rows (NewPKSet cols, false) rows) in
  Cols set = cols /\
  sublist (Values set) rows /\
  NoDup (map keyFor (Values set)) /\
  (forall k, k ∈ Keys set <-> k ∈ map keyFor rows) /\
  (forall k, k ∈ Keys set <-> k ∈ map keyFor (Values set)) /\
  Len set = Z.of_nat (size (Keys set)) /\
  (added = true <-> rows <> []).
Proof.
  intros set added. subst set added.
  destruct (add_rows (NewPKSet cols, false) rows) as [set added] eqn:Hadd. cbn [fst snd].
  assert (Hinv0 : pk_inv (NewPKSet cols)).
  { split; [apply NewPKSet_wf |]. split; [constructor | reflexivity]. }
  destruct (add_rows_inv rows _ _ _ _ Hinv0 Hadd) as ((Hwf & Hnd & Hlen) & more & Hvals & Hsub).
  destruct (add_rows_spec rows _ _ _ _ Hadd) as (Hcols & Hkeys & Hadded & _).
  cbn [NewPKSet Values Keys Cols] in *. rewrite app_nil_l in Hvals. subst more.
  split; [exact Hcols |]. split; [exact Hsub |]. split; [exact Hnd |].
  split; [| split; [| split]].
  - intros k. rewrite Hkeys. rewrite elem_of_union, elem_of_list_to_set. set_solver.
  - intros k. rewrite (Hwf k), list_elem_of_fmap. split; intros (v & H1 & H2); eauto.
  - unfold Len. rewrite Hlen. reflexivity.
  - rewrite Hadded. split.
    + intros [Hf | (row & Hrow & _)]; [discriminate |]. intros ->. inversion Hrow.
    + intros Hne. right. destruct rows as [| row rows]; [congruence |].
      exists row. split; [constructor | set_solver].
Qed.

(** *** [ValuesByColumns] *)

(** The value a tuple holds for a column, by the position of the column
    in the column list of the set. *)
Definition by_name (cols : list string) (row : list Value) (c : string) : Value :=
  default VNull (assoc c (combine cols row)).

Lemma colIndex_aux_notin (l : list string) (c : string) :
  c ∉ l ->
  forall k acc,
    fold_left (fun found '(i, x) => if String.eqb x c then Some i else found)
              (combine (seq k (length l)) l) acc = acc.
Proof.
  induction l as [| x l IH]; intros Hc k acc; [reflexivity |].
  cbn [length seq combine fold_left].
  destruct (String.eqb_spec x c) as [-> | _].
  - exfalso. apply Hc. constructor.
  - apply IH. intros Hin. apply Hc. apply elem_of_cons. right. exact Hin.
Qed.

Lemma colIndex_aux_in (l : list string) (c : string) :
  NoDup l ->
  forall i k acc,
    l !! i = Some c ->
    fold_left (fun found '(i, x) => if String.eqb x c then Some i else found)
              (combine (seq k (length l)) l) acc = Some (k + i)%nat.
Proof.
  induction l as [| x l IH]; intros Hnd i k acc Hi; [discriminate |].
  apply NoDup_cons in Hnd as [Hx Hnd].
  cbn [length seq combine fold_left]. destruct i as [| i].
  - injection Hi as ->. rewrite String.eqb_refl, colIndex_aux_notin by exact Hx.
    f_equal. lia.
  - cbn [lookup list_lookup] in Hi. rewrite (IH Hnd i (S k) _ Hi). f_equal. lia.
Qed.

Lemma colIndex_Some (l : list string) (c : string) (i : nat) :
  NoDup l -> l !! i = Some c -> colIndex l c = Some i.
Proof. intros Hnd Hi. unfold colIndex. rewrite (colIndex_aux_in l c Hnd i 0%nat None Hi). reflexivity. Qed.

Lemma colIndex_None (l : list string) (c : string) : c ∉ l -> colIndex l c = None.
Proof. intros Hc. unfold colIndex. apply colIndex_aux_notin. exact Hc. Qed.

Lemma assoc_combine (l : list string) (row : list Value) (c : string) (i : nat) (v : Value) :
  NoDup l -> l !! i = Some c -> row !! i = Some v -> assoc c (combine l row) = Some v.
Proof.
  revert row i. induction l as [| x l IH]; intros row i Hnd Hi Hv; [discriminate |].
  apply NoDup_cons in Hnd as [Hx Hnd].
  destruct row as [| w row]; [discriminate |]. cbn [combine assoc].
  destruct i as [| i].
  - injection Hi as ->. injection Hv as ->. rewrite String.eqb_refl. reflexivity.
  - cbn [lookup list_lookup] in Hi, Hv.
    destruct (String.eqb_spec x c) as [-> | _].
    + exfalso. apply Hx. eapply list_elem_of_lookup_2. exact Hi.
    + eapply IH; eassumption.
Qed.

Lemma by_name_same (l : list string) (row : list Value) :
  NoDup l -> length row = length l -> map (by_name l row) l = row.
Proof.
  intros Hnd Hlen. apply list_eq. intros i.
  change (map (by_name l row) l) with (by_name l row <$> l). rewrite list_lookup_fmap.
  destruct (l !! i) as [c |] eqn:Hi.
  - destruct (row !! i) as [v |] eqn:Hv.
    + cbn. unfold by_name. rewrite (assoc_combine l row c i v Hnd Hi Hv). reflexivity.
    + apply lookup_ge_None in Hv. apply lookup_lt_Some in Hi. lia.
  - cbn. symmetry. apply lookup_ge_None. apply lookup_ge_None in Hi. lia.
Qed.

Lemma rmap_Ok {A B} (f : A -> result B) (g : A -> B) (l : list A) :
  (forall a, a ∈ l -> f a = Ok (g a)) -> rmap f l = Ok (map g l).
Proof.
  induction l as [| a l IH]; intros Hf; [reflexivity |].
  cbn [rmap map]. rewrite (Hf a) by constructor. cbn [rbind].
  rewrite IH; [reflexivity |]. intros b Hb. apply Hf. apply elem_of_cons. right. exact Hb.
Qed.

Lemma rmap_map {A B C} (f : B -> result C) (g : A -> B) (l : list A) :
  rmap f (map g l) = rmap (fun a => f (g a)) l.
Proof.
  induction l as [| a l IH]; [reflexivity |]. cbn [map rmap]. rewrite IH. reflexivity.
Qed.

Lemma find_all_false {A} (f : A -> bool) (l : list A) :
  (forall a, a ∈ l -> f a = false) -> find f l = None.
Proof.
  induction l as [| a l IH]; intros Hf; [reflexivity |].
  cbn [find]. rewrite (Hf a) by constructor. apply IH.
  intros b Hb. apply Hf. apply elem_of_cons. right. exact Hb.
Qed.

(** The first requested column the set does not have. *)
Definition first_missing (set : PKSet) (cols : list string) : option string :=
  find (fun c => bool_decide (c ∉ Cols set)) cols.

Lemma rmap_colIndex (have cols : list string) :
  NoDup have ->
  rmap (fun c => match colIndex have c with
                 | Some pos => Ok pos
                 | None => Err ("missing column " ++ c)
                 end) cols
  = match find (fun c => bool_decide (c ∉ have)) cols with
    | Some c => Err ("missing column " ++ c)
    | None => Ok (map (fun c => default 0%nat (colIndex have c)) cols)
    end.
Proof.
  intros Hnd. induction cols as [| c cols IH]; [reflexivity |].
  cbn [rmap find map]. destruct (bool_decide_reflect (c ∉ have)) as [Hc | Hc].
  - rewrite colIndex_None by exact Hc. reflexivity.
  - assert (Hin : c ∈ have) by (destruct (decide (c ∈ have)); [assumption | contradiction]).
    apply list_elem_of_lookup_1 in Hin as [i Hi].
    rewrite (colIndex_Some have c i Hnd Hi). cbn [rbind default]. rewrite IH.
    destruct (find _ cols); reflexivity.
Qed.

(** [ValuesByColumns], for a set with pairwise different column names
    whose tuples have one value per column: no requested column is an
    error; a requested column the set does not have is an error that
    names the first such column; otherwise every tuple is returned with
    its values picked by column name, in the order of the request and the
    tuples in the order of the set. *)
Theorem ValuesByColumns_by_name (set : PKSet) (cols : list string) :
  NoDup (Cols set) ->
  (forall row, row ∈ Values set -> length row = length (Cols set)) ->
  ValuesByColumns set cols =
    if bool_decide (cols = []) then Err "no columns requested"
    else match first_missing set cols with
         | Some c => Err ("missing column " ++ c)
         | None => Ok (map (fun row => map (by_name (Cols set) row) cols) (Values set))
         end.
Proof.
  intros Hnd Hlen. unfold ValuesByColumns, first_missing.
  destruct (bool_decide (cols = [])); [reflexivity |].
  destruct (bool_decide_reflect (cols = Cols set)) as [-> | Hne].
  - assert (Hfind : find (fun c => bool_decide (c ∉ Cols set)) (Cols set) = None).
    { apply find_all_false. intros c Hc. apply bool_decide_eq_false. intros Hn.
      apply Hn. exact Hc. }
    rewrite Hfind. f_equal. symmetry. apply list_eq. intros i.
    change (map ?f (Values set)) with (f <$> Values set). rewrite list_lookup_fmap.
    destruct (Values set !! i) as [row |] eqn:Hrow; [| reflexivity].
    cbn. f_equal. apply by_name_same; [exact Hnd |].
    apply Hlen. eapply list_elem_of_lookup_2. exact Hrow.
  - rewrite (rmap_colIndex (Cols set) cols Hnd).
    destruct (find (fun c => bool_decide (c ∉ Cols set)) cols) as [c |] eqn:Hfind;
      [reflexivity |].
    cbn [rbind]. apply rmap_Ok. intros row Hrow.
    rewrite rmap_map. apply rmap_Ok. intros c Hc.
    assert (Hin : c ∈ Cols set).
    { destruct (decide (c ∈ Cols set)) as [Hin | Hnin]; [exact Hin |].
      exfalso. pose proof (find_none _ _ Hfind c (proj1 (list_elem_of_In _ _) Hc)) as Hf.
      apply bool_decide_eq_false in Hf. contradiction. }
    apply list_elem_of_lookup_1 in Hin as [i Hi].
    rewrite (colIndex_Some _ c i Hnd Hi). change (default 0%nat (Some i)) with i.
    destruct (row !! i) as [v |] eqn:Hv.
    + unfold by_name. rewrite (assoc_combine _ row c i v Hnd Hi Hv). reflexivity.
    + apply lookup_ge_None in Hv. apply lookup_lt_Some in Hi.
      rewrite (Hlen row Hrow) in Hv. lia.
Qed.
(** *** [groupFKs] *)

(** The rows of [PRAGMA foreign_key_list] with one id, and the group they
    form: the referenced table of the first row, the columns of all rows
    in their order. *)
Definition fk_rows (fks : list schema.ForeignKey) (id : Z) : list schema.ForeignKey :=
  filter (fun fk => schema.ID fk = id) fks.

Definition group_of (fks : list schema.ForeignKey) (id : Z) : FKGroup :=
  {| RefTable := default EmptyString (schema.RefTable <$> head (fk_rows fks id));
     FromCols := map schema.From (fk_rows fks id);
     ToCols := map schema.To (fk_rows fks id) |}.

Definition group_step
    : gmap Z FKGroup * list Z -> schema.ForeignKey -> gmap Z FKGroup * list Z :=
  fun '(byID, order) fk =>
  match byID !! schema.ID fk with
  | Some group =>
      (<[schema.ID fk :=
           {| RefTable := RefTable group;
              FromCols := FromCols group ++ [schema.From fk];
              ToCols := ToCols group ++ [schema.To fk] |}]> byID,
       order)
  | None =>
      (<[schema.ID fk :=
           {| RefTable := schema.RefTable fk;
              FromCols := [schema.From fk];
              ToCols := [schema.To fk] |}]> byID,
       order ++ [schema.ID fk])
  end.

Lemma groupFKs_unfold (tbl : schema.Table) :
  groupFKs tbl =
  let '(byID, order) := fold_left group_step (schema.ForeignKeys tbl) (∅, []) in
  omap (fun id => byID !! id) (merge_sort Z.le order).
Proof. reflexivity. Qed.

Lemma fk_rows_snoc fks fk id :
  fk_rows (fks ++ [fk]) id
  = fk_rows fks id ++ (if decide (schema.ID fk = id) then [fk] else []).
Proof.
  unfold fk_rows. rewrite filter_app, filter_cons, filter_nil.
  destruct (decide (schema.ID fk = id)); reflexivity.
Qed.

Lemma fk_rows_nil fks id : id ∉ map schema.ID fks -> fk_rows fks id = [].
Proof.
  intros Hid. unfold fk_rows. induction fks as [| fk fks IH]; [reflexivity |].
  rewrite filter_cons. destruct (decide (schema.ID fk = id)) as [Heq | _].
  - exfalso. apply Hid. cbn [map]. rewrite Heq. constructor.
  - apply IH. intros Hin. apply Hid. cbn [map]. apply elem_of_cons. right. exact Hin.
Qed.

Lemma fk_rows_cons fks id :
  id ∈ map schema.ID fks -> exists fk rest, fk_rows fks id = fk :: rest.
Proof.
  intros Hid. apply list_elem_of_fmap in Hid as (fk & -> & Hfk).
  assert (Hin : fk ∈ fk_rows fks (schema.ID fk)).
  { unfold fk_rows. apply list_elem_of_filter. auto. }
  destruct (fk_rows fks (schema.ID fk)) as [| x rest]; [inversion Hin | eauto].
Qed.

Lemma group_fold (fks : list schema.ForeignKey) :
  exists byID order,
    fold_left group_step fks (∅, []) = (byID, order) /\
    NoDup order /\
    (forall id, id ∈ order <-> id ∈ map schema.ID fks) /\
    (forall id, id ∈ order -> byID !! id = Some (group_of fks id)) /\
    (forall id, id ∉ order -> byID !! id = None).
Proof.
  induction fks as [| fk fks IH] using rev_ind.
  - exists ∅, []. split; [reflexivity |]. split; [constructor |].
    split; [reflexivity |]. split; [intros id Hid; inversion Hid |].
    intros id _. apply lookup_empty.
  - destruct IH as (byID & order & Hfold & Hnd & Hdom & Hsome & Hnone).
    rewrite fold_left_app, Hfold. cbn [fold_left group_step].
    destruct (byID !! schema.ID fk) as [group |] eqn:Hlook.
    + assert (Hin : schema.ID fk ∈ order).
      { destruct (decide (schema.ID fk ∈ order)) as [Hin | Hnin]; [exact Hin |].
        rewrite (Hnone _ Hnin) in Hlook. discriminate. }
      rewrite (Hsome _ Hin) in Hlook. injection Hlook as <-.
      eexists _, order. split; [reflexivity |]. split; [exact Hnd |].
      split; [| split].
      * intros id. rewrite map_app, elem_of_app, <- Hdom. cbn [map].
        rewrite list_elem_of_singleton. split; [auto |]. intros [Hid | ->]; assumption.
      * intros id Hid. rewrite lookup_insert. destruct (decide (schema.ID fk = id)) as [<- | Hne].
        -- f_equal. unfold group_of. rewrite fk_rows_snoc.
           destruct (decide (schema.ID fk = schema.ID fk)) as [_ | Hne]; [| contradiction].
           rewrite !map_app. cbn [map FromCols ToCols RefTable]. f_equal.
           apply Hdom, fk_rows_cons in Hin as (fk0 & rest & ->). reflexivity.
        -- rewrite (Hsome _ Hid). f_equal. unfold group_of. rewrite fk_rows_snoc.
           destruct (decide (schema.ID fk = id)) as [Heq | _]; [contradiction |].
           rewrite app_nil_r. reflexivity.
      * intros id Hid. rewrite lookup_insert_ne; [apply Hnone; exact Hid |].
        intros <-. contradiction.
    + assert (Hnew : schema.ID fk ∉ order).
      { intros Hin. rewrite (Hsome _ Hin) in Hlook. discriminate. }
      eexists _, (order ++ [schema.ID fk]). split; [reflexivity |].
      split; [| split; [| split]].
      * apply NoDup_app. split; [exact Hnd |]. split; [| apply NoDup_singleton].
        intros id Hid Hid'. apply list_elem_of_singleton in Hid'. subst id. contradiction.
      * intros id. rewrite map_app, !elem_of_app, <- Hdom. reflexivity.
      * intros id Hid. rewrite lookup_insert. destruct (decide (schema.ID fk = id)) as [<- | Hne].
        -- f_equal. unfold group_of. rewrite fk_rows_snoc.
           destruct (decide (schema.ID fk = schema.ID fk)) as [_ | Hne]; [| contradiction].
           rewrite fk_rows_nil; [reflexivity |]. rewrite <- Hdom. exact Hnew.
        -- apply elem_of_app in Hid as [Hid | Hid];
             [| apply list_elem_of_singleton in Hid; congruence].
           rewrite (Hsome _ Hid). f_equal. unfold group_of. rewrite fk_rows_snoc.
           destruct (decide (schema.ID fk = id)) as [Heq | _]; [contradiction |].
           rewrite app_nil_r. reflexivity.
      * intros id Hid. rewrite lookup_insert_ne.
        -- apply Hnone. intros Hin. apply Hid. apply elem_of_app. left. exact Hin.
        -- intros <-. apply Hid. apply elem_of_app. right. constructor.
Qed.

Lemma omap_all_Some {A B} (f : A -> option B) (g : A -> B) (l : list A) :
  (forall a, a ∈ l -> f a = Some (g a)) -> omap f l = map g l.
Proof.
  induction l as [| a l IH]; intros Hf; [reflexivity |].
  cbn [omap list_omap map]. rewrite (Hf a) by constructor. f_equal.
  apply IH. intros b Hb. apply Hf. apply elem_of_cons. right. exact Hb.
Qed.

(** [groupFKs] returns one group per foreign-key id of the table, by
    ascending id: the group of an id has the referenced table of the first
    row with that id and, in the order of the rows, the referencing and
    the referenced column of every row with that id. So the two column
    lists of a group have the same length and are not empty. *)
Theorem groupFKs_by_id (tbl : schema.Table) :
  let fks := schema.ForeignKeys tbl in
  exists ids,
    Sorted Z.le ids /\ NoDup ids /\
    (forall id, id ∈ ids <-> id ∈ map schema.ID fks) /\
    groupFKs tbl = map (group_of fks) ids /\
    forall g, g ∈ groupFKs tbl ->
              length (FromCols g) = length (ToCols g) /\ FromCols g <> [].
Proof.
  intros fks. destruct (group_fold fks) as (byID & order & Hfold & Hnd & Hdom & Hsome & _).
  assert (Hgroups : groupFKs tbl = map (group_of fks) (merge_sort Z.le order)).
  { rewrite groupFKs_unfold. fold fks. rewrite Hfold. apply omap_all_Some. intros id Hid. apply Hsome.
    rewrite merge_sort_Permutation in Hid. exact Hid. }
  exists (merge_sort Z.le order).
  split; [apply Sorted_merge_sort; apply _ |].
  split; [rewrite merge_sort_Permutation; exact Hnd |].
  split; [intros id; rewrite merge_sort_Permutation; apply Hdom |].
  split; [exact Hgroups |].
  intros g Hg. rewrite Hgroups in Hg. apply list_elem_of_fmap in Hg as (id & -> & Hid).
  rewrite merge_sort_Permutation in Hid. apply Hdom, fk_rows_cons in Hid as (fk & rest & Hrows).
  unfold group_of. cbn [FromCols ToCols]. rewrite !length_map. split; [reflexivity |].
  rewrite Hrows. discriminate.
Qed.

(** *** [BuildSelection] *)

Section Whole.
Variable db : Database.
Variable s : schema.Schema.

Lemma rfold_fix {A B} (f : B -> A -> result B) (l : list A) (b : B) :
  (forall a, a ∈ l -> f b a = Ok b) -> rfold f l b = Ok b.
Proof.
  induction l as [| a l IH]; intros Hf; [reflexivity |].
  cbn [rfold]. rewrite (Hf a) by constructor. cbn [rbind]. apply IH.
  intros a' Ha'. apply Hf. apply elem_of_cons. right. exact Ha'.
Qed.

Lemma no_set_in_empty (n : string) :
  bool_decide (is_Some ((∅ : Selection) !! n)) = false.
Proof.
  apply bool_decide_eq_false. rewrite lookup_empty. intros [x Hx]. discriminate.
Qed.

(** A round over the empty selection adds nothing. *)
Lemma expand_round_empty : expand_round db s ∅ = Ok (∅, false).
Proof.
  unfold expand_round. apply rfold_fix. intros childName Hname.
  apply schema.names_elem in Hname as [childTbl Htbl].
  unfold expand_table. rewrite Htbl. cbn [fst]. rewrite no_set_in_empty.
  apply rfold_fix. intros fk _. unfold expand_fk.
  destruct (schema.Tables s !! RefTable fk); [| reflexivity].
  rewrite no_set_in_empty. reflexivity.
Qed.

Lemma expandSelection_empty : expandSelection db s ∅ = Ok ∅.
Proof.
  unfold expandSelection. cbn [expandLoop]. rewrite expand_round_empty. reflexivity.
Qed.

(** Without a configuration, without a [subset] section, without roots,
    or when every root has an empty table name, [BuildSelection] returns
    the empty selection, which is not nil: no set, for no table. No query
    is sent, so this holds for every database and schema. *)
Theorem BuildSelection_no_roots (cfg : option config.Config) :
  (forall c sub root,
      cfg = Some c -> config.Subset c = Some sub -> root ∈ config.Roots sub ->
      config.Table root = EmptyString) ->
  BuildSelection db s cfg = Ok ∅.
Proof.
  intros Hblank. unfold BuildSelection.
  destruct cfg as [c |]; [| reflexivity].
  destruct (config.Subset c) as [sub |] eqn:Hsub; [| reflexivity].
  destruct (bool_decide (config.Roots sub = [])); [reflexivity |].
  rewrite rfold_fix.
  - cbn [rbind]. apply expandSelection_empty.
  - intros root Hroot. unfold add_root.
    rewrite (Hblank c sub root eq_refl Hsub Hroot). reflexivity.
Qed.

Lemma expandSelection_keys (sel sel' : Selection) :
  expandSelection db s sel = Ok sel' -> forall n, keys_at sel n ⊆ keys_at sel' n.
Proof.
  intros Hexp n. pose proof (expandSelection_loop db s sel) as Hloop.
  rewrite Hexp in Hloop. apply expandLoop_last in Hloop as (sel0 & Hlast & Hsub).
  etransitivity; [apply Hsub |].
  apply expand_round_ok in Hlast. apply (ok_keys _ _ _ _ _ Hlast).
Qed.

(** What [add_root] does for a root with a table name. *)
Lemma add_root_keys (sel sel' : Selection) (root : config.RootConfig) :
  add_root db s sel root = Ok sel' ->
  (forall n, keys_at sel n ⊆ keys_at sel' n) /\
  (config.Table root <> EmptyString ->
   exists tbl pkCols useRowID rows,
     schema.Tables s !! config.Table root = Some tbl /\
     tablePKColumns tbl = Ok (pkCols, useRowID) /\
     root_query db root tbl pkCols = Ok rows /\
     forall row, row ∈ rows -> keyFor row ∈ keys_at sel' (config.Table root)).
Proof.
  unfold add_root. destruct (String.eqb_spec (config.Table root) "") as [Hblank | Hname].
  { intros Heq. injection Heq as <-. split; [reflexivity | contradiction]. }
  destruct (schema.Tables s !! config.Table root) as [tbl |] eqn:Htbl; [| discriminate].
  destruct (tablePKColumns tbl) as [[pkCols useRowID] | |] eqn:Hpk; try discriminate.
  cbn [rbind].
  match goal with |- _ -> ?G =>
    assert (Hgrow : forall set0 sel1,
      (sel1 !! config.Table root = Some set0) ->
      (forall n, keys_at sel n ⊆ keys_at sel1 n) ->
      (let* rows := root_query db root tbl pkCols in
       Ok (<[config.Table root := fst (add_rows (set0, false) rows)]> sel1)) = Ok sel' ->
      G)
  end.
  { intros set0 sel1 Hset Hsub.
    destruct (root_query db root tbl pkCols) as [rows | |] eqn:Hq; try discriminate.
    cbn [rbind]. intros Heq. injection Heq as <-.
    destruct (add_rows (set0, false) rows) as [set1 added] eqn:Hadd. cbn [fst].
    destruct (add_rows_spec rows _ _ _ _ Hadd) as (_ & Hkeys & _).
    split.
    - intros n. rewrite keys_at_insert. destruct (decide (config.Table root = n)) as [<- | _];
        [| apply Hsub].
      etransitivity; [apply Hsub |]. rewrite (keys_at_Some _ _ _ Hset), Hkeys.
      apply union_subseteq_l.
    - intros _. exists tbl, pkCols, useRowID, rows.
      split; [reflexivity |]. split; [exact Hpk |]. split; [exact Hq |].
      intros row Hrow. rewrite keys_at_insert.
      destruct (decide (config.Table root = config.Table root)) as [_ | Hne]; [| contradiction].
      rewrite Hkeys. apply elem_of_union. right. apply elem_of_list_to_set.
      apply list_elem_of_fmap. eauto. }
  destruct (sel !! config.Table root) as [set0 |] eqn:Hlook.
  - apply Hgrow; [exact Hlook | reflexivity].
  - apply Hgrow; [apply lookup_insert_eq |].
    intros n. rewrite keys_at_insert. destruct (decide (config.Table root = n)) as [<- | _];
      [| reflexivity].
    rewrite (keys_at_None _ _ Hlook). apply empty_subseteq.
Qed.

Lemma rfold_add_root_keys (roots : list config.RootConfig) :
  forall sel sel',
    rfold (add_root db s) roots sel = Ok sel' ->
    (forall n, keys_at sel n ⊆ keys_at sel' n) /\
    forall root, root ∈ roots -> config.Table root <> EmptyString ->
      exists tbl pkCols useRowID rows,
        schema.Tables s !! config.Table root = Some tbl /\
        tablePKColumns tbl = Ok (pkCols, useRowID) /\
        root_query db root tbl pkCols = Ok rows /\
        forall row, row ∈ rows -> keyFor row ∈ keys_at sel' (config.Table root).
Proof.
  induction roots as [| root roots IH]; intros sel sel' Hfold.
  - injection Hfold as <-. split; [reflexivity |]. intros root Hroot. inversion Hroot.
  - cbn [rfold] in Hfold.
    destruct (add_root db s sel root) as [sel1 | |] eqn:Hroot; try discriminate.
    cbn [rbind] in Hfold. apply add_root_keys in Hroot as [Hsub1 Hrows1].
    apply IH in Hfold as [Hsub Hrows]. split.
    + intros n. etransitivity; [apply Hsub1 | apply Hsub].
    + intros r Hr Hname. apply elem_of_cons in Hr as [-> | Hr]; [| apply Hrows; assumption].
      destruct (Hrows1 Hname) as (tbl & pkCols & useRowID & rows & Htbl & Hpk & Hq & Hin).
      exists tbl, pkCols, useRowID, rows. repeat (split; [assumption |]).
      intros row Hrow. apply (Hsub (config.Table root)). apply Hin. exact Hrow.
Qed.

(** A selection that [BuildSelection] returns holds the rows of every
    root: for each root with a table name, the table exists, it has key
    columns, the root query succeeded, and the textual key of every tuple
    the query returned is in the set of the root's table. (The root query
    reads the key columns of the table's rows, keeps those the [where]
    fragment accepts, orders them by key and keeps the first [limit] when
    the limit is positive.) *)
Theorem BuildSelection_keeps_roots (c : config.Config) (sub : config.SubsetConfig)
    (sel : Selection) (root : config.RootConfig) :
  config.Subset c = Some sub ->
  BuildSelection db s (Some c) = Ok sel ->
  root ∈ config.Roots sub ->
  config.Table root <> EmptyString ->
  exists tbl pkCols useRowID rows,
    schema.Tables s !! config.Table root = Some tbl /\
    tablePKColumns tbl = Ok (pkCols, useRowID) /\
    root_query db root tbl pkCols = Ok rows /\
    forall row, row ∈ rows -> keyFor row ∈ keys_at sel (config.Table root).
Proof.
  intros Hsub Hbuild Hroot Hname. unfold BuildSelection in Hbuild. rewrite Hsub in Hbuild.
  destruct (bool_decide_reflect (config.Roots sub = [])) as [Hnil | _].
  { rewrite Hnil in Hroot. inversion Hroot. }
  destruct (rfold (add_root db s) (config.Roots sub) ∅) as [sel1 | |] eqn:Hfold;
    try discriminate.
  cbn [rbind] in Hbuild. apply rfold_add_root_keys in Hfold as [_ Hrows].
  destruct (Hrows root Hroot Hname) as (tbl & pkCols & useRowID & rows & Htbl & Hpk & Hq & Hin).
  exists tbl, pkCols, useRowID, rows. repeat (split; [assumption |]).
  intros row Hrow. apply (expandSelection_keys sel1 sel Hbuild). apply Hin. exact Hrow.
Qed.


(** *** The selection is closed under the foreign keys *)

Lemma tuple_eq_refl (cols : list string) (r : Row) :
  notNull cols r = true -> tuple_eq (row_tuple cols r) (row_tuple cols r) = true.
Proof.
  unfold notNull, row_tuple. induction cols as [| c cols IH]; [reflexivity |].
  cbn [forallb map tuple_eq]. intros Hnn. apply andb_true_iff in Hnn as [Hc Hrest].
  apply andb_true_iff. split; [| apply IH; exact Hrest].
  unfold sql_eq. rewrite Hc. cbn [andb]. apply bool_decide_eq_true. reflexivity.
Qed.

Lemma tuple_in_elem (cells : list Value) (chunk : list (list Value)) (v : list Value) :
  v ∈ chunk -> tuple_eq cells v = true -> tuple_in cells chunk = true.
Proof.
  intros Hv Heq. unfold tuple_in. apply existsb_exists. exists v.
  split; [apply list_elem_of_In; exact Hv | exact Heq].
Qed.

Lemma buildTupleIn_Ok (cols : list string) (chunk : list (list Value)) whereIn :
  buildTupleIn cols chunk = Ok whereIn ->
  whereIn = fun r => tuple_in (row_tuple cols r) chunk.
Proof.
  unfold buildTupleIn. destruct (bool_decide (cols = [])); [discriminate |].
  destruct (forallb _ chunk); [| discriminate]. intros Heq. injection Heq as <-. reflexivity.
Qed.

Lemma Forall2_chunk_rows {A B} (P : A -> list B -> Prop) (chunks : list A)
    (rowss : list (list B)) (c : A) :
  Forall2 P chunks rowss -> c ∈ chunks ->
  exists rows, P c rows /\ forall row, row ∈ rows -> row ∈ concat rowss.
Proof.
  intros Hall Hc. induction Hall as [| c' rows chunks rowss Hc' _ IH]; [inversion Hc |].
  apply elem_of_cons in Hc as [-> | Hc].
  - exists rows. split; [exact Hc' |]. intros row Hrow. cbn [concat].
    apply elem_of_app. left. exact Hrow.
  - destruct (IH Hc) as (rows' & HP & Hin). exists rows'. split; [exact HP |].
    intros row Hrow. cbn [concat]. apply elem_of_app. right. apply Hin. exact Hrow.
Qed.

Lemma tablePKColumns_nonempty (tbl : schema.Table) pkCols useRowID :
  tablePKColumns tbl = Ok (pkCols, useRowID) -> pkCols <> [].
Proof.
  unfold tablePKColumns.
  destruct (bool_decide_reflect (schema.PrimaryKeys tbl = [])) as [Hnil | Hne].
  - destruct (schema.WithoutRowID tbl); [discriminate |]. intros Heq. injection Heq as <- _.
    discriminate.
  - intros Heq. injection Heq as <- _. exact Hne.
Qed.

Lemma ValuesByColumns_own (set : PKSet) :
  Cols set <> [] -> ValuesByColumns set (Cols set) = Ok (Values set).
Proof.
  intros Hne. unfold ValuesByColumns.
  destruct (bool_decide_reflect (Cols set = [])) as [Hnil | _]; [contradiction |].
  destruct (bool_decide_reflect (Cols set = Cols set)) as [_ | Hn]; [reflexivity | contradiction].
Qed.

(** The referencing values of a selected child row are among the values
    [selectFKValues] returns. *)
Lemma selectFKValues_finds childTbl fk set pkCols useRowID refVals v childRows r :
  tablePKColumns childTbl = Ok (pkCols, useRowID) ->
  Cols set = pkCols ->
  selectFKValues db childTbl fk set = Ok refVals ->
  v ∈ Values set ->
  db !! schema.Name childTbl = Some childRows -> r ∈ childRows ->
  tuple_eq (row_tuple pkCols r) v = true ->
  notNull (FromCols fk) r = true ->
  row_tuple (FromCols fk) r ∈ refVals.
Proof.
  intros Hpk Hcols Hsel Hv Hdb Hr Heq Hnn. unfold selectFKValues in Hsel.
  rewrite Hpk in Hsel. cbn [rbind] in Hsel. subst pkCols.
  rewrite ValuesByColumns_own in Hsel by (eapply tablePKColumns_nonempty; exact Hpk).
  cbn [rbind] in Hsel.
  destruct (bool_decide_reflect (Values set = [])) as [Hnil | _].
  { rewrite Hnil in Hv. inversion Hv. }
  apply rfold_collect in Hsel as (rowss & Hall & ->). cbn [app].
  apply (chunkValues_elem_of (Values set) 500) in Hv as (chunk & Hchunk & Hv).
  destruct (Forall2_chunk_rows _ _ _ chunk Hall Hchunk) as (rows & Hq & Hin).
  apply Hin. unfold fk_value_query in Hq.
  destruct (buildTupleIn (Cols set) chunk) as [whereIn | |] eqn:Hb; try discriminate.
  apply buildTupleIn_Ok in Hb. subst whereIn. cbn [rbind] in Hq.
  destruct (from_table db _ childTbl _) as [dbrows | |] eqn:Hfrom; try discriminate.
  cbn [rbind] in Hq. injection Hq as <-. apply from_table_Ok in Hfrom.
  rewrite Hdb in Hfrom. injection Hfrom as <-.
  apply elem_of_remove_dups, list_elem_of_fmap. exists r. split; [reflexivity |].
  apply list_elem_of_In, filter_In. split; [apply list_elem_of_In; exact Hr |].
  apply andb_true_iff. split; [| exact Hnn].
  eapply tuple_in_elem; eassumption.
Qed.

(** A scan that reports no addition met only keys the set had. *)
Lemma add_rows_nochange set rows set' :
  add_rows (set, false) rows = (set', false) ->
  forall row, row ∈ rows -> keyFor row ∈ Keys set.
Proof.
  intros Hadd row Hrow.
  destruct (add_rows_spec rows _ _ _ _ Hadd) as (_ & _ & Hadded & _).
  destruct (decide (keyFor row ∈ Keys set)) as [Hin | Hnew]; [exact Hin |].
  assert (Ht : false = true) by (apply Hadded; right; eauto). discriminate.
Qed.

(** When [addParentKeys] reports no addition, every parent row that the
    referencing values point to is in the parent's set, up to its textual
    key. *)
Lemma addParentKeys_nochange parentTbl fk refVals sel sel' parentPK parentRowID
    r parentRows q :
  sel_wf s sel ->
  schema.Tables s !! RefTable fk = Some parentTbl ->
  tablePKColumns parentTbl = Ok (parentPK, parentRowID) ->
  addParentKeys db parentTbl fk refVals sel = Ok (sel', false) ->
  row_tuple (FromCols fk) r ∈ refVals ->
  notNull (FromCols fk) r = true ->
  db !! schema.Name parentTbl = Some parentRows -> q ∈ parentRows ->
  row_tuple (ToCols fk) q = row_tuple (FromCols fk) r ->
  exists u, u ∈ vals_at sel (RefTable fk) /\ same_key u (row_tuple parentPK q).
Proof.
  intros Hwf Htbl Hpk Hadd Hin Hnn Hdb Hq Hto. unfold addParentKeys in Hadd.
  destruct (bool_decide_reflect (refVals = [])) as [Hnil | _].
  { rewrite Hnil in Hin. inversion Hin. }
  assert (Hcore : forall set0 sel1,
    set_wf set0 -> Cols set0 = parentPK ->
    (if sameColumnOrder (Cols set0) (ToCols fk)
     then let '(parentSet, added) := add_rows (set0, false) refVals in
          Ok (<[RefTable fk := parentSet]> sel1, added)
     else let* (parentSet, added) := selectParentPKs db parentTbl fk refVals set0 in
          Ok (<[RefTable fk := parentSet]> sel1, added)) = Ok (sel', false) ->
    exists u, u ∈ Values set0 /\ same_key u (row_tuple parentPK q)).
  { intros set0 sel1 Hwf0 Hcols0 Hres.
    assert (Hkey : keyFor (row_tuple parentPK q) ∈ Keys set0).
    { unfold sameColumnOrder in Hres.
      destruct (bool_decide_reflect (Cols set0 = ToCols fk)) as [Hsame | _].
      - destruct (add_rows (set0, false) refVals) as [set1 added] eqn:Hrows.
        injection Hres as _ ->.
        rewrite <- Hcols0, Hsame, Hto. eapply add_rows_nochange; eassumption.
      - unfold selectParentPKs in Hres. rewrite Hpk in Hres. cbn [rbind] in Hres.
        destruct (rfold _ (chunkValues refVals 500) (set0, false)) as [[set1 added] | |]
          eqn:Hfold; try discriminate.
        cbn [rbind] in Hres. injection Hres as _ ->.
        apply rfold_add_rows in Hfold as (rowss & Hall & Hst). symmetry in Hst.
        apply (add_rows_nochange _ _ _ Hst).
        apply (chunkValues_elem_of refVals 500) in Hin as (chunk & Hchunk & Hin).
        destruct (Forall2_chunk_rows _ _ _ chunk Hall Hchunk) as (rows & Hquery & Hsub).
        apply Hsub. unfold parent_pk_query in Hquery.
        destruct (buildTupleIn (ToCols fk) chunk) as [whereIn | |] eqn:Hb; try discriminate.
        apply buildTupleIn_Ok in Hb. subst whereIn. cbn [rbind] in Hquery.
        destruct (from_table db _ parentTbl _) as [dbrows | |] eqn:Hfrom; try discriminate.
        cbn [rbind] in Hquery. injection Hquery as <-. apply from_table_Ok in Hfrom.
        rewrite Hdb in Hfrom. injection Hfrom as <-.
        apply list_elem_of_fmap. exists q. split; [reflexivity |].
        apply list_elem_of_In, filter_In. split; [apply list_elem_of_In; exact Hq |].
        eapply tuple_in_elem; [exact Hin |]. rewrite Hto. apply tuple_eq_refl. exact Hnn. }
    apply Hwf0 in Hkey as (u & Hu & Hk). exists u. split; [exact Hu | exact Hk]. }
  destruct (sel !! RefTable fk) as [parentSet |] eqn:Hlook.
  - cbn [rbind] in Hadd. destruct (Hwf _ _ Hlook) as [Hwf0 Hc0].
    destruct (Hc0 _ Htbl) as [b Hb]. rewrite Hpk in Hb. injection Hb as Hb _.
    rewrite (vals_at_Some _ _ _ Hlook). eapply Hcore; [exact Hwf0 | auto | exact Hadd].
  - rewrite Hpk in Hadd. cbn [rbind] in Hadd.
    destruct (Hcore (NewPKSet parentPK) _ (NewPKSet_wf parentPK) eq_refl Hadd)
      as (u & Hu & _).
    inversion Hu.
Qed.

Lemma add_root_wf (sel sel' : Selection) (root : config.RootConfig) :
  sel_wf s sel -> add_root db s sel root = Ok sel' -> sel_wf s sel'.
Proof.
  intros Hwf. unfold add_root. destruct (String.eqb (config.Table root) "").
  { intros Heq. injection Heq as <-. exact Hwf. }
  destruct (schema.Tables s !! config.Table root) as [tbl |] eqn:Htbl; [| discriminate].
  destruct (tablePKColumns tbl) as [[pkCols useRowID] | |] eqn:Hpk; try discriminate.
  cbn [rbind].
  assert (Hgrow : forall set0 sel1,
    set_wf set0 ->
    (forall tbl', schema.Tables s !! config.Table root = Some tbl' ->
                  exists b, tablePKColumns tbl' = Ok (Cols set0, b)) ->
    sel_wf s sel1 ->
    (let* rows := root_query db root tbl pkCols in
     Ok (<[config.Table root := fst (add_rows (set0, false) rows)]> sel1)) = Ok sel' ->
    sel_wf s sel').
  { intros set0 sel1 Hwf0 Hcols0 Hsel1.
    destruct (root_query db root tbl pkCols) as [rows | |]; try discriminate.
    cbn [rbind]. intros Heq. injection Heq as <-.
    destruct (add_rows (set0, false) rows) as [set1 added] eqn:Hadd. cbn [fst].
    destruct (add_rows_wf _ _ _ _ _ Hadd Hwf0) as [Hwf1 Hc1].
    apply sel_wf_insert; [exact Hsel1 | exact Hwf1 | rewrite Hc1; exact Hcols0]. }
  assert (Hnew : forall tbl', schema.Tables s !! config.Table root = Some tbl' ->
                   exists b, tablePKColumns tbl' = Ok (Cols (NewPKSet pkCols), b)).
  { intros tbl' Ht. rewrite Htbl in Ht. injection Ht as <-. eauto. }
  destruct (sel !! config.Table root) as [set0 |] eqn:Hlook.
  - destruct (Hwf _ _ Hlook) as [Hwf0 Hcols0]. apply Hgrow; assumption.
  - apply Hgrow; [apply NewPKSet_wf | exact Hnew |].
    apply sel_wf_insert; [exact Hwf | apply NewPKSet_wf | exact Hnew].
Qed.

Lemma rfold_wf {A B} (wf : B -> Prop) (f : B -> A -> result B) (l : list A) :
  (forall a b b', a ∈ l -> wf b -> f b a = Ok b' -> wf b') ->
  forall b b', wf b -> rfold f l b = Ok b' -> wf b'.
Proof.
  induction l as [| a l IH]; intros Hf b b' Hb Hfold.
  - injection Hfold as <-. exact Hb.
  - cbn [rfold] in Hfold. destruct (f b a) as [b1 | |] eqn:Hstep; try discriminate.
    cbn [rbind] in Hfold. eapply IH; [| | exact Hfold].
    + intros a' b2 b3 Ha'. apply Hf. apply elem_of_cons. right. exact Ha'.
    + eapply Hf; [constructor | exact Hb | exact Hstep].
Qed.

Lemma expand_fk_wf childName childTbl childSet st fk st' :
  schema_wf s ->
  schema.Tables s !! childName = Some childTbl ->
  sel_wf s (fst st) ->
  expand_fk db s childName childTbl childSet st fk = Ok st' ->
  sel_wf s (fst st').
Proof.
  intros Hschema Htbl. destruct st as [sel changed]. cbn [fst]. intros Hwf.
  unfold expand_fk.
  destruct (schema.Tables s !! RefTable fk) as [parentTbl |] eqn:Hparent.
  2:{ intros Heq. injection Heq as <-. exact Hwf. }
  set (parentSet := bool_decide (is_Some (sel !! RefTable fk))). clearbody parentSet.
  match goal with |- rbind ?m _ = _ -> _ => set (phase := m) end.
  assert (Hlift : forall st1, phase = Ok st1 -> sel_wf s (fst st1)).
  { subst phase. intros st1.
    destruct (if childSet then sel !! childName else None) as [set |].
    2:{ intros Heq. injection Heq as <-. exact Hwf. }
    destruct (0 <? Len set).
    2:{ intros Heq. injection Heq as <-. exact Hwf. }
    destruct (selectFKValues db childTbl fk set) as [refVals | |]; try discriminate.
    cbn [rbind]. destruct (bool_decide (refVals = [])).
    { intros Heq. injection Heq as <-. exact Hwf. }
    destruct (addParentKeys db parentTbl fk refVals sel) as [[sel1 added] | |] eqn:Hadd;
      try discriminate.
    cbn [rbind]. intros Heq. injection Heq as <-. cbn [fst].
    exact (addParentKeys_wf db s parentTbl fk refVals sel sel1 added Hparent Hwf Hadd). }
  clearbody phase. destruct phase as [[sel1 changed1] | |]; try discriminate.
  pose proof (Hlift _ eq_refl) as Hwf1. cbn [fst] in Hwf1. cbn [rbind]. intros Hdesc.
  destruct (if parentSet then sel1 !! RefTable fk else None) as [set |].
  2:{ injection Hdesc as <-. exact Hwf1. }
  destruct (0 <? Len set).
  2:{ injection Hdesc as <-. exact Hwf1. }
  destruct (addChildKeys db childTbl fk set sel1) as [[sel2 added] | |] eqn:Hadd;
    try discriminate.
  cbn [rbind] in Hdesc. injection Hdesc as <-. cbn [fst].
  exact (addChildKeys_wf db s childName childTbl fk set sel1 sel2 added Hschema Htbl Hwf1 Hadd).
Qed.

Lemma expand_table_wf st childName st' :
  schema_wf s -> sel_wf s (fst st) ->
  expand_table db s st childName = Ok st' -> sel_wf s (fst st').
Proof.
  intros Hschema Hwf. unfold expand_table.
  destruct (schema.Tables s !! childName) as [childTbl |] eqn:Htbl; [| discriminate].
  apply (rfold_wf (fun st => sel_wf s (fst st))); [| exact Hwf].
  intros fk st1 st2 _ Hwf1. eapply expand_fk_wf; eassumption.
Qed.

Lemma expand_round_wf sel sel' changed :
  schema_wf s -> sel_wf s sel ->
  expand_round db s sel = Ok (sel', changed) -> sel_wf s sel'.
Proof.
  intros Hschema Hwf Hround. unfold expand_round in Hround.
  apply (rfold_wf (fun st => sel_wf s (fst st))) in Hround; [exact Hround | | exact Hwf].
  intros childName st1 st2 _ Hwf1. apply expand_table_wf; assumption.
Qed.

Lemma expandLoop_last_wf fuel :
  schema_wf s ->
  forall sel sel',
    sel_wf s sel ->
    expandLoop fuel db s sel = Some (Ok sel') ->
    exists sel0, expand_round db s sel0 = Ok (sel', false) /\ sel_wf s sel0.
Proof.
  intros Hschema. induction fuel as [| fuel IH]; intros sel sel' Hwf Hloop; [discriminate |].
  cbn [expandLoop] in Hloop.
  destruct (expand_round db s sel) as [[sel1 changed] | e | e] eqn:Hround;
    [| discriminate | discriminate].
  destruct changed.
  - apply IH in Hloop; [exact Hloop |]. eapply expand_round_wf; eassumption.
  - injection Hloop as <-. exists sel. auto.
Qed.

(** In a loop that ends without a change, every pass started without a
    change, from a selection with the keys and values of the final one. *)
Lemma rfold_nochange {A} (f : Selection * bool -> A -> result (Selection * bool))
    (l : list A) :
  (forall a st st', a ∈ l -> f st a = Ok st' -> iter_ok db s st st') ->
  (forall a st st', a ∈ l -> sel_wf s (fst st) -> f st a = Ok st' -> sel_wf s (fst st')) ->
  forall sel sel',
    sel_wf s sel ->
    rfold f l (sel, false) = Ok (sel', false) ->
    (forall n, vals_at sel n = vals_at sel' n) /\
    forall a, a ∈ l ->
      exists selA selB,
        f (selA, false) a = Ok (selB, false) /\ sel_wf s selA /\
        forall n, vals_at selA n = vals_at sel' n.
Proof.
  induction l as [| a l IH]; intros Hok Hpres sel sel' Hwf Hfold.
  - injection Hfold as <-. split; [reflexivity |]. intros a Ha. inversion Ha.
  - cbn [rfold] in Hfold. destruct (f (sel, false) a) as [[sel1 c1] | |] eqn:Hstep;
      try discriminate.
    cbn [rbind] in Hfold.
    assert (Hok' : forall a' st st', a' ∈ l -> f st a' = Ok st' -> iter_ok db s st st').
    { intros a' st st' Ha'. apply Hok. apply elem_of_cons. right. exact Ha'. }
    assert (Hpres' : forall a' st st', a' ∈ l -> sel_wf s (fst st) -> f st a' = Ok st' ->
                                       sel_wf s (fst st')).
    { intros a' st st' Ha'. apply Hpres. apply elem_of_cons. right. exact Ha'. }
    pose proof (rfold_iter_ok db s f l Hok' _ _ Hfold) as (added' & Hrest & Hflag').
    cbn [fst snd] in Hrest, Hflag'.
    symmetry in Hflag'. apply orb_false_iff in Hflag' as [-> ->].
    pose proof (Hok a _ _ ltac:(constructor) Hstep) as (added & Hfirst & Hflag).
    cbn [fst snd] in Hfirst, Hflag. cbn [orb] in Hflag. subst added.
    assert (Hwf1 : sel_wf s sel1).
    { apply (Hpres a (sel, false) (sel1, false)); [constructor | exact Hwf | exact Hstep]. }
    destruct (IH Hok' Hpres' sel1 sel' Hwf1 Hfold) as [Hsame Hall].
    assert (Hv : forall n, vals_at sel n = vals_at sel1 n).
    { intros n. destruct (ok_same _ _ _ _ _ Hfirst eq_refl n) as [_ Hvals]. congruence. }
    split; [intros n; rewrite Hv; apply Hsame |].
    intros a' Ha'. apply elem_of_cons in Ha' as [-> | Ha']; [| apply Hall; exact Ha'].
    exists sel, sel1. split; [exact Hstep |]. split; [exact Hwf |].
    intros n. rewrite Hv. apply Hsame.
Qed.

(** One pass of the loop body over a foreign key, ending without a
    change: the key's referenced rows are selected. *)
Lemma expand_fk_closed childName childTbl fk parentTbl selA selB
    pkCols useRowID parentPK parentRowID v childRows r parentRows q :
  sel_wf s selA ->
  schema.Tables s !! childName = Some childTbl ->
  schema.Tables s !! RefTable fk = Some parentTbl ->
  expand_fk db s childName childTbl true (selA, false) fk = Ok (selB, false) ->
  tablePKColumns childTbl = Ok (pkCols, useRowID) ->
  tablePKColumns parentTbl = Ok (parentPK, parentRowID) ->
  v ∈ vals_at selA childName ->
  db !! schema.Name childTbl = Some childRows -> r ∈ childRows ->
  tuple_eq (row_tuple pkCols r) v = true ->
  notNull (FromCols fk) r = true ->
  db !! schema.Name parentTbl = Some parentRows -> q ∈ parentRows ->
  row_tuple (ToCols fk) q = row_tuple (FromCols fk) r ->
  exists u, u ∈ vals_at selA (RefTable fk) /\ same_key u (row_tuple parentPK q).
Proof.
  intros Hwf Htbl Hparent Hstep Hpk Hppk Hv Hdb Hr Heq Hnn Hpdb Hq Hto.
  unfold expand_fk in Hstep. rewrite Hparent in Hstep.
  destruct (selA !! childName) as [set |] eqn:Hlook.
  2:{ rewrite (vals_at_None _ _ Hlook) in Hv. inversion Hv. }
  rewrite (vals_at_Some _ _ _ Hlook) in Hv.
  assert (Hlen : (0 <? Len set) = true).
  { apply Z.ltb_lt. unfold Len. destruct (Values set); [inversion Hv | simpl; lia]. }
  rewrite Hlen in Hstep.
  destruct (selectFKValues db childTbl fk set) as [refVals | |] eqn:Hsel; try discriminate.
  cbn [rbind] in Hstep.
  assert (Hcols : Cols set = pkCols).
  { destruct (Hwf _ _ Hlook) as [_ Hc]. destruct (Hc _ Htbl) as [b Hb].
    rewrite Hpk in Hb. injection Hb as Hb _. auto. }
  pose proof (selectFKValues_finds childTbl fk set pkCols useRowID refVals v childRows r
                Hpk Hcols Hsel Hv Hdb Hr Heq Hnn) as Hin.
  destruct (bool_decide_reflect (refVals = [])) as [Hnil | _].
  { rewrite Hnil in Hin. inversion Hin. }
  destruct (addParentKeys db parentTbl fk refVals selA) as [[sel1 added] | |] eqn:Hadd;
    try discriminate.
  cbn [rbind orb] in Hstep.
  assert (Hadded : added = false).
  { destruct (if bool_decide (is_Some (selA !! RefTable fk)) then sel1 !! RefTable fk else None)
      as [pset |]; [| congruence].
    destruct (0 <? Len pset); [| congruence].
    destruct (addChildKeys db childTbl fk pset sel1) as [[sel2 added2] | |]; try discriminate.
    cbn [rbind] in Hstep. injection Hstep as _ Hflag.
    apply orb_false_iff in Hflag as [Hflag _]. exact Hflag. }
  subst added.
  exact (addParentKeys_nochange parentTbl fk refVals selA sel1 parentPK parentRowID
           r parentRows q Hwf Hparent Hppk Hadd Hin Hnn Hpdb Hq Hto).
Qed.

Lemma round_closed sel0 sel :
  schema_wf s -> sel_wf s sel0 ->
  expand_round db s sel0 = Ok (sel, false) ->
  fk_closed db s same_key sel.
Proof.
  intros Hschema Hwf0 Hround.
  intros childName childTbl fk parentTbl pkCols useRowID parentPK parentRowID
         v childRows r parentRows q Htbl Hfk Hparent Hpk Hppk Hv Hdb Hr Heq Hnn Hpdb Hq Hto.
  unfold expand_round in Hround.
  apply (rfold_nochange (expand_table db s)) in Hround as [_ Hall]; [| | | exact Hwf0].
  2:{ intros a st st' _. apply expand_table_ok. }
  2:{ intros a st st' _ Hw. apply expand_table_wf; assumption. }
  assert (Hname : childName ∈ schema.names s) by (apply schema.names_elem; eauto).
  destruct (Hall childName Hname) as (selT & selT' & Htable & HwfT & HvalsT).
  unfold expand_table in Htable. rewrite Htbl in Htable. cbn [fst] in Htable.
  apply (rfold_nochange _) in Htable as [HsameT Hfks]; [| | | exact HwfT].
  2:{ intros a st st' Ha. eapply expand_fk_ok; eassumption. }
  2:{ intros a st st' _ Hw. eapply expand_fk_wf; eassumption. }
  destruct (Hfks fk Hfk) as (selA & selB & Hstep & HwfA & HvalsA).
  assert (Hvals : forall n, vals_at selA n = vals_at sel n).
  { intros n. rewrite HvalsA, <- HsameT. apply HvalsT. }
  assert (Hflag : bool_decide (is_Some (selT !! childName)) = true).
  { apply bool_decide_eq_true. destruct (selT !! childName) as [set |] eqn:Hlook; [eauto |].
    rewrite <- HvalsT, (vals_at_None _ _ Hlook) in Hv. inversion Hv. }
  rewrite Hflag in Hstep. rewrite <- Hvals in Hv.
  destruct (expand_fk_closed childName childTbl fk parentTbl selA selB
              pkCols useRowID parentPK parentRowID v childRows r parentRows q
              HwfA Htbl Hparent Hstep Hpk Hppk Hv Hdb Hr Heq Hnn Hpdb Hq Hto)
    as (u & Hu & Hsame).
  exists u. split; [rewrite <- Hvals; exact Hu | exact Hsame].
Qed.

(** A selection that [BuildSelection] returns is closed under the foreign
    keys of a schema whose tables are stored under their names: for a
    tuple in the set of a child table, a child row it selects and a
    foreign-key group whose referencing columns are all non-null in that
    row, every row of the referenced table that holds the referenced
    values has a tuple in the set of the referenced table with the same
    textual key as the row's key. *)
Theorem BuildSelection_fk_closed (cfg : option config.Config) (sel : Selection) :
  schema_wf s ->
  BuildSelection db s cfg = Ok sel ->
  fk_closed db s same_key sel.
Proof.
  intros Hschema Hbuild.
  assert (Hempty : fk_closed db s same_key ∅).
  { intros childName childTbl fk parentTbl pkCols useRowID parentPK parentRowID
           v childRows r parentRows q _ _ _ _ _ Hv.
    rewrite vals_at_None in Hv by apply lookup_empty. inversion Hv. }
  unfold BuildSelection in Hbuild.
  destruct cfg as [c |]; [| injection Hbuild as <-; exact Hempty].
  destruct (config.Subset c) as [sub |]; [| injection Hbuild as <-; exact Hempty].
  destruct (bool_decide (config.Roots sub = [])); [injection Hbuild as <-; exact Hempty |].
  destruct (rfold (add_root db s) (config.Roots sub) ∅) as [sel1 | |] eqn:Hroots;
    try discriminate.
  cbn [rbind] in Hbuild.
  assert (Hwf1 : sel_wf s sel1).
  { apply (rfold_wf (sel_wf s)) in Hroots; [exact Hroots | | apply sel_wf_empty].
    intros root b b' _ Hb. apply add_root_wf. exact Hb. }
  pose proof (expandSelection_loop db s sel1) as Hloop. rewrite Hbuild in Hloop.
  apply (expandLoop_last_wf _ Hschema _ _ Hwf1) in Hloop as (sel0 & Hlast & Hwf0).
  exact (round_closed sel0 sel Hschema Hwf0 Hlast).
Qed.

End Whole.

End Props.
End subset_props.

(** ** The properties at concrete inputs *)

Module props_tests.
#[local] Existing Instance testEnv.
#[local] Existing Instance testSql.

Lemma DateShift_one_shift_per_row_witness :
  0 <= 106751 /\
  exists days,
    - 30 <= days <= 30 /\
    forall value,
      transform.Transform (transform.NewDateShift 0) value (transform_tests.row_users [VInt 1])
      = transform_props.shift_value days value.
Proof.
  split; [lia |].
  apply (transform_props.DateShift_one_shift_per_row 0 (transform_tests.row_users [VInt 1])).
  lia.
Defined.

Lemma DateShift_overflow_witness :
  (2 ^ 62 <= 2 ^ 62 < 2 ^ 63 /\ VInt 0 <> VNull) /\
  transform.Transform (transform.NewDateShift (2 ^ 62)) (VInt 0)
    (transform_tests.row_users [VInt 1])
  = Panic "invalid argument to Intn".
Proof.
  assert (Hmax : 2 ^ 62 <= 2 ^ 62 < 2 ^ 63) by lia.
  assert (Hvalue : @VInt testEnv 0 <> VNull) by discriminate.
  split; [split; assumption |].
  exact (transform_props.DateShift_overflow (2 ^ 62) (VInt 0)
           (transform_tests.row_users [VInt 1]) Hmax Hvalue).
Defined.

Lemma Build_builtin_types_witness :
  (is_ascii (config.Type_ (transform_tests.cfg_of_type "FakerName")) = true /\
   (∅ : gmap string transform.Factory)
     !! ToLower (config.Type_ (transform_tests.cfg_of_type "FakerName")) = None) /\
  exists t,
    transform.Build ∅ (Some (transform_tests.cfg_of_type "FakerName")) "salt" = Ok (Some t) /\
    transform.builtin t = true /\
    ToLower (transform.Name t) = "fakername"%string.
Proof.
  assert (Hascii : is_ascii (config.Type_ (transform_tests.cfg_of_type "FakerName")) = true)
    by reflexivity.
  assert (Hreg : (∅ : gmap string transform.Factory)
                   !! ToLower (config.Type_ (transform_tests.cfg_of_type "FakerName")) = None)
    by apply lookup_empty.
  split; [exact (conj Hascii Hreg) |].
  apply (proj1 (transform_props.Build_builtin_types ∅
                  (transform_tests.cfg_of_type "FakerName") "salt" Hascii Hreg)).
  - apply list_elem_of_In. vm_compute. tauto.
  - discriminate.
Defined.

(** A factory that is registered as [Rot13] serves the type [ROT13]. *)
Definition rot13_factory : transform.Factory :=
  fun _ _ => Ok (Some transform.SetNull).

Lemma Register_Build_witness :
  (is_ascii "Rot13" = true /\
   is_ascii (config.Type_ (transform_tests.cfg_of_type "ROT13")) = true) /\
  transform.Build (transform_props.Register "Rot13" (Some rot13_factory) ∅)
    (Some (transform_tests.cfg_of_type "ROT13")) "salt"
  = Ok (Some transform.SetNull).
Proof.
  assert (Hname : is_ascii "Rot13" = true) by reflexivity.
  assert (Hty : is_ascii (config.Type_ (transform_tests.cfg_of_type "ROT13")) = true)
    by reflexivity.
  split; [exact (conj Hname Hty) |].
  exact (transform_props.Register_Build ∅ "Rot13" (Some rot13_factory)
           (transform_tests.cfg_of_type "ROT13") "salt" Hname Hty).
Defined.

Lemma range_of_list {A} (m : gmap string A) (it : list string) :
  NoDup it -> (list_to_set it : gset string) = dom m -> schema.range_of m it.
Proof.
  intros Hnd Hdom. split; [exact Hnd |].
  intros k. rewrite <- elem_of_dom, <- Hdom, elem_of_list_to_set. reflexivity.
Qed.

Lemma NoDup_strings (l : list string) : bool_decide (NoDup l) = true -> NoDup l.
Proof. apply bool_decide_eq_true. Qed.

Lemma range_of_cyclic (it : list string) :
  bool_decide (NoDup it) = true ->
  bool_decide ((list_to_set it : gset string) = dom (schema.Tables schema_tests.cyclic)) = true ->
  schema.range_of (schema.Tables schema_tests.cyclic) it.
Proof.
  intros Hnd Hdom. apply range_of_list; [apply NoDup_strings; exact Hnd |].
  apply bool_decide_eq_true in Hdom. exact Hdom.
Qed.

(** In the schema [X <-> Y], [Z -> X], [M] only [M] is grounded. *)
Lemma TableOrder_grounded_first_witness :
  (schema.range_of (schema.Tables schema_tests.cyclic) ["Z"; "Y"; "X"; "M"] /\
   schema.range_of (schema.Tables schema_tests.cyclic) ["M"; "X"; "Y"; "Z"] /\
   schema.range_of (schema.Tables schema_tests.cyclic) ["Y"; "M"; "Z"; "X"] /\
   schema.range_of (schema.Tables schema_tests.cyclic) ["Z"; "X"; "M"; "Y"]) /\
  exists front rest,
    schema.TableOrder_in ["Z"; "Y"; "X"; "M"] ["M"; "X"; "Y"; "Z"]
                         ["Y"; "M"; "Z"; "X"] ["Z"; "X"; "M"; "Y"] schema_tests.cyclic
    = Some (front ++ rest) /\
    (forall t, t ∈ front <-> schema.grounded schema_tests.cyclic t) /\
    (forall t, t ∈ rest <-> is_Some (schema.Tables schema_tests.cyclic !! t)
                            /\ ~ schema.grounded schema_tests.cyclic t) /\
    (forall t, t ∈ schema.parents schema_tests.cyclic t -> t ∈ rest).
Proof.
  assert (H1 : schema.range_of (schema.Tables schema_tests.cyclic) ["Z"; "Y"; "X"; "M"])
    by (apply range_of_cyclic; vm_compute; reflexivity).
  assert (H2 : schema.range_of (schema.Tables schema_tests.cyclic) ["M"; "X"; "Y"; "Z"])
    by (apply range_of_cyclic; vm_compute; reflexivity).
  assert (H3 : schema.range_of (schema.Tables schema_tests.cyclic) ["Y"; "M"; "Z"; "X"])
    by (apply range_of_cyclic; vm_compute; reflexivity).
  assert (H4 : schema.range_of (schema.Tables schema_tests.cyclic) ["Z"; "X"; "M"; "Y"])
    by (apply range_of_cyclic; vm_compute; reflexivity).
  split; [exact (conj H1 (conj H2 (conj H3 H4))) |].
  exact (schema_props.TableOrder_grounded_first schema_tests.cyclic _ _ _ _ H1 H2 H3 H4).
Defined.

(** Two tables without foreign keys. *)
Definition flat : schema.Schema :=
  schema_tests.schema_of [ schema_tests.table "b" ["id"] []; schema_tests.table "a" ["id"] [] ].

Lemma flat_no_references (t : string) : schema.parents flat t = [].
Proof.
  unfold schema.parents. destruct (schema.Tables flat !! t) as [tbl |] eqn:Hl; [| reflexivity].
  apply elem_of_list_to_map_2, list_elem_of_In in Hl. simpl in Hl.
  destruct Hl as [Hl | [Hl | []]]; injection Hl as _ <-; reflexivity.
Qed.

Lemma range_of_flat (it : list string) :
  bool_decide (NoDup it) = true ->
  bool_decide ((list_to_set it : gset string) = dom (schema.Tables flat)) = true ->
  schema.range_of (schema.Tables flat) it.
Proof.
  intros Hnd Hdom. apply range_of_list; [apply NoDup_strings; exact Hnd |].
  apply bool_decide_eq_true in Hdom. exact Hdom.
Qed.

Lemma TableOrder_no_references_witness :
  (schema.range_of (schema.Tables flat) ["b"; "a"] /\
   schema.range_of (schema.Tables flat) ["a"; "b"] /\
   schema.range_of (schema.Tables flat) ["b"; "a"] /\
   schema.range_of (schema.Tables flat) ["a"; "b"] /\
   forall t, schema.parents flat t = []) /\
  schema.TableOrder_in ["b"; "a"] ["a"; "b"] ["b"; "a"] ["a"; "b"] flat
  = Some (schema.names flat).
Proof.
  assert (H1 : schema.range_of (schema.Tables flat) ["b"; "a"])
    by (apply range_of_flat; vm_compute; reflexivity).
  assert (H2 : schema.range_of (schema.Tables flat) ["a"; "b"])
    by (apply range_of_flat; vm_compute; reflexivity).
  split; [exact (conj H1 (conj H2 (conj H1 (conj H2 flat_no_references)))) |].
  exact (schema_props.TableOrder_no_references flat _ _ _ _ H1 H2 H1 H2 flat_no_references).
Defined.

Definition ab_set : subset.PKSet :=
  fst (subset.add_rows (subset.NewPKSet ["a"; "b"], false)
         [[VInt 1; VText "x"]; [VInt 2; VText "y"]]).

Lemma ValuesByColumns_by_name_witness :
  (NoDup (subset.Cols ab_set) /\
   forall row, row ∈ subset.Values ab_set -> length row = length (subset.Cols ab_set)) /\
  subset.ValuesByColumns ab_set ["b"; "a"]
  = Ok [[VText "x"; VInt 1]; [VText "y"; VInt 2]].
Proof.
  assert (Hnd : NoDup (subset.Cols ab_set)) by (apply NoDup_strings; vm_compute; reflexivity).
  assert (Hlen : forall row, row ∈ subset.Values ab_set ->
                             length row = length (subset.Cols ab_set)).
  { intros row Hrow. apply list_elem_of_In in Hrow. simpl in Hrow.
    destruct Hrow as [<- | [<- | []]]; reflexivity. }
  split; [exact (conj Hnd Hlen) |].
  exact (subset_props.ValuesByColumns_by_name ab_set ["b"; "a"] Hnd Hlen).
Defined.

Definition blank_cfg : config.Config :=
  subset_tests.config_of (Some [subset_tests.root "" "country = 'US'" 1]).

Lemma BuildSelection_no_roots_witness :
  (forall c sub root,
      Some blank_cfg = Some c -> config.Subset c = Some sub -> root ∈ config.Roots sub ->
      config.Table root = EmptyString) /\
  subset.BuildSelection subset_tests.shop_db subset_tests.shop (Some blank_cfg) = Ok ∅.
Proof.
  assert (Hblank : forall c sub root,
            Some blank_cfg = Some c -> config.Subset c = Some sub -> root ∈ config.Roots sub ->
            config.Table root = EmptyString).
  { intros c sub root Hc Hsub Hroot. injection Hc as <-. injection Hsub as <-.
    apply list_elem_of_singleton in Hroot. subst root. reflexivity. }
  split; [exact Hblank |].
  exact (subset_props.BuildSelection_no_roots subset_tests.shop_db subset_tests.shop
           (Some blank_cfg) Hblank).
Defined.

Definition shop_sel : gmap string subset.PKSet :=
  match subset.BuildSelection subset_tests.shop_db subset_tests.shop
          (Some subset_tests.shop_cfg) with
  | Ok sel => sel
  | _ => ∅
  end.

Lemma BuildSelection_shop_sel :
  subset.BuildSelection subset_tests.shop_db subset_tests.shop (Some subset_tests.shop_cfg)
  = Ok shop_sel.
Proof. vm_compute. reflexivity. Qed.

Lemma BuildSelection_keeps_roots_witness :
  (config.Subset subset_tests.shop_cfg
   = Some {| config.Roots := [subset_tests.root "users" "country = 'US'" 1] |} /\
   subset.BuildSelection subset_tests.shop_db subset_tests.shop (Some subset_tests.shop_cfg)
   = Ok shop_sel /\
   subset_tests.root "users" "country = 'US'" 1
     ∈ [subset_tests.root "users" "country = 'US'" 1] /\
   "users"%string <> EmptyString) /\
  exists tbl pkCols useRowID rows,
    schema.Tables subset_tests.shop !! "users" = Some tbl /\
    subset.tablePKColumns tbl = Ok (pkCols, useRowID) /\
    subset.root_query subset_tests.shop_db (subset_tests.root "users" "country = 'US'" 1)
      tbl pkCols = Ok rows /\
    forall row, row ∈ rows -> keyFor row ∈ subset.keys_at shop_sel "users".
Proof.
  assert (Hsub : config.Subset subset_tests.shop_cfg
                 = Some {| config.Roots := [subset_tests.root "users" "country = 'US'" 1] |})
    by reflexivity.
  assert (Hroot : subset_tests.root "users" "country = 'US'" 1
                    ∈ [subset_tests.root "users" "country = 'US'" 1]) by constructor.
  assert (Hname : "users"%string <> EmptyString) by discriminate.
  split; [exact (conj Hsub (conj BuildSelection_shop_sel (conj Hroot Hname))) |].
  exact (subset_props.BuildSelection_keeps_roots subset_tests.shop_db subset_tests.shop
           subset_tests.shop_cfg _ shop_sel _ Hsub BuildSelection_shop_sel Hroot Hname).
Defined.

Lemma schema_of_wf (tables : list schema.Table) :
  subset.schema_wf (schema_tests.schema_of tables).
Proof.
  intros n tbl Hl. unfold schema_tests.schema_of in Hl. cbn [schema.Tables] in Hl.
  apply elem_of_list_to_map_2, list_elem_of_fmap in Hl as (t & Heq & _).
  injection Heq as -> ->. reflexivity.
Qed.

(** The scenario in which the selection is not closed up to equality of
    tuples: it is closed up to the textual key. *)
Lemma BuildSelection_fk_closed_witness :
  (subset.schema_wf subset_tests.pairs /\
   subset.BuildSelection subset_tests.pairs_db subset_tests.pairs (Some subset_tests.pairs_cfg)
   = Ok subset_tests.pairs_sel) /\
  subset.fk_closed subset_tests.pairs_db subset_tests.pairs subset.same_key
    subset_tests.pairs_sel.
Proof.
  assert (Hwf : subset.schema_wf subset_tests.pairs) by apply schema_of_wf.
  assert (Hbuild : subset.BuildSelection subset_tests.pairs_db subset_tests.pairs
                     (Some subset_tests.pairs_cfg) = Ok subset_tests.pairs_sel)
    by (vm_compute; reflexivity).
  split; [exact (conj Hwf Hbuild) |].
  exact (subset_props.BuildSelection_fk_closed subset_tests.pairs_db subset_tests.pairs
           (Some subset_tests.pairs_cfg) subset_tests.pairs_sel Hwf Hbuild).
Defined.

End props_tests.

(** ** [internal/copy]: the copy pipeline *)

Module copy.
Section Copy.
Context `{GoEnv} `{!SqlEngine}.

Record Options := {
  InPath : string;
  OutPath : string;
  Config : option config.Config;
  Salt : string;
  Seed : Z;
  FKMode : string;
  Triggers : string;
  Jobs : Z;
  Subset : bool;
}.

Definition tableIncluded (cfg : option config.Config) (name : string) : bool :=
  match cfg with
  | None => true
  | Some cfg =>
      if (0 <? Z.of_nat (length (config.IncludeTables cfg)))
         && negb (schema.MatchAny (config.IncludeTables cfg) name)
      then false
      else if schema.MatchAny (config.ExcludeTables cfg) name then false
      else true
  end.

(** [rowFingerprint]: every value is followed by a zero byte. *)
Definition rowFingerprint (values : list Value) : string :=
  hex_EncodeToString
    (Sha256.Sum256
       (String.concat "" (map (fun v => (Sprint v ++ String "000"%char EmptyString)%string) values))).

(** [colIndex[c.Name] = i] over the columns of the table; of two columns
    with one name the later one stays. *)
Definition colIndexOf (tbl : schema.Table) : gmap string nat :=
  fold_left (fun m '(i, c) => <[schema.ColName c := i]> m)
            (combine (seq 0 (length (schema.Columns tbl))) (schema.Columns tbl)) ∅.

(** [colIndex[col]]: zero for a name that is not in the map. *)
Definition at_col (colIndex : gmap string nat) (col : string) : nat :=
  default 0%nat (colIndex !! col).

(** [l[i]]. *)
Definition index {A} (l : list A) (i : nat) : result A :=
  match l !! i with
  | Some v => Ok v
  | None => Panic "index out of range"
  end.

Definition buildRowContext (rowValues : list Value) (colIndex : gmap string nat)
    (pkCols : list string) (useRowID : bool) (opts : Options) (tbl : schema.Table)
    : result (list Value * transform.RowContext) :=
  let* (rowid, start) :=
    if useRowID then let* v := index rowValues 0 in Ok (v, 1%nat) else Ok (VNull, 0%nat) in
  let values := skipn start rowValues in
  let* pkValues :=
    if (0 <? length pkCols)%nat
    then subset.rmap (fun pk => index values (at_col colIndex pk)) pkCols
    else if useRowID then Ok [rowid]
    else Ok [VText (rowFingerprint values)] in
  Ok (values,
      {| transform.Table := schema.Name tbl; transform.PK := pkValues;
         transform.Seed := Seed opts; transform.Salt := Salt opts |}).

(** The body of [for col, tr := range transformers]; [wrap] is what the
    caller makes of a transformer's error. *)
Definition transform_step (wrap : string -> string -> string)
    (colIndex : gmap string nat) (rowCtx : transform.RowContext)
    (values : list Value) (entry : string * transform.Transformer) : result (list Value) :=
  let idx := at_col colIndex (fst entry) in
  let* old := index values idx in
  match transform.Transform (snd entry) old rowCtx with
  | Ok newVal => Ok (<[idx := newVal]> values)
  | Err e => Err (wrap (fst entry) e)
  | Panic e => Panic e
  end.

(** *** The two ways to process the rows of a query

    The output database is seen through the insert statement: [exec]
    runs it on a state of the database and fails or gives the next state.
    [order i] is the order in which the loop over the transformer map
    meets its entries for the row with index [i]. *)
Section Rows.
Variable Out : Type.
Variable exec : Out -> string -> list Value -> option Out.
Variable order : nat -> list (string * transform.Transformer).
Variable colIndex : gmap string nat.
Variable pkCols : list string.
Variable useRowID : bool.
Variable opts : Options.
Variable tbl : schema.Table.

(** What a row becomes: its context is built, then the transformers run. *)
Definition row_result (wrap : string -> string -> string) (i : nat)
    (rowValues : list Value) : result (list Value) :=
  let* (values, rowCtx) := buildRowContext rowValues colIndex pkCols useRowID opts tbl in
  subset.rfold (transform_step wrap colIndex rowCtx) (order i) values.

Definition wrap_transform (col e : string) : string :=
  "transform " ++ schema.Name tbl ++ "." ++ col ++ ": " ++ e.

Fixpoint processRowsSequential (rows : list (list Value)) (i : nat) (out : Out)
    : Out * result unit :=
  match rows with
  | [] => (out, Ok tt)
  | rowValues :: rows =>
      match row_result wrap_transform i rowValues with
      | Ok values =>
          match exec out (schema.Name tbl) values with
          | Some out => processRowsSequential rows (S i) out
          | None => (out, Err ("insert " ++ schema.Name tbl))
          end
      | Err e => (out, Err e)
      | Panic e => (out, Panic e)
      end
  end.

(** The parallel path. A job is in flight from the moment it is sent to
    the workers until the writer has received its result. Which of the
    jobs in flight answers next is up to the workers: [sched] chooses,
    at the [n]-th receive, among all jobs in flight. A send or a receive
    that can never complete is rendered as the outcome
    [Panic "all goroutines are asleep"]: the call does not return. *)
Record job := {
  j_index : nat;
  j_values : list Value;
  j_rowCtx : transform.RowContext;
}.

Record writer := {
  w_inflight : list job;
  w_pending : gmap nat (list Value);
  w_next : nat;
  w_out : Out;
  w_recv : nat;
}.

(** A worker on one job; the error of a transformer is passed on as it is. *)
Definition work (j : job) : result (list Value) :=
  subset.rfold (transform_step (fun _ e => e) colIndex (j_rowCtx j))
               (order (j_index j)) (j_values j).

(** The loop of [flush]: insert the pending results from [nextIndex] on,
    as far as they are consecutive. *)
Fixpoint drain (fuel : nat) (pending : gmap nat (list Value)) (next : nat) (out : Out)
    : gmap nat (list Value) * nat * Out * result unit :=
  match fuel with
  | O => (pending, next, out, Ok tt)
  | S fuel =>
      match pending !! next with
      | None => (pending, next, out, Ok tt)
      | Some values =>
          match exec out (schema.Name tbl) values with
          | Some out => drain fuel (delete next pending) (S next) out
          | None => (pending, next, out, Err ("insert " ++ schema.Name tbl))
          end
      end
  end.

Definition flush (w : writer) (index : nat) (res : result (list Value))
    : writer * result unit :=
  match res with
  | Ok values =>
      let pending := <[index := values]> (w_pending w) in
      let '(pending, next, out, r) := drain (size pending) pending (w_next w) (w_out w) in
      ({| w_inflight := w_inflight w; w_pending := pending; w_next := next;
          w_out := out; w_recv := w_recv w |}, r)
  | Err e => (w, Err e)
  | Panic e => (w, Panic e)
  end.

(** [res := <-resultsCh] and [flush(res)]; with no job in flight the
    receive blocks for ever. *)
Definition receive (sched : nat -> nat) (w : writer) : writer * result unit :=
  let k := (sched (w_recv w) mod length (w_inflight w))%nat in
  match w_inflight w !! k with
  | Some j =>
      flush {| w_inflight := delete k (w_inflight w); w_pending := w_pending w;
               w_next := w_next w; w_out := w_out w; w_recv := S (w_recv w) |}
            (j_index j) (work j)
  | None => (w, Panic "all goroutines are asleep")
  end.

(** [for inflight > jobs*2 { .. }]. *)
Fixpoint receive_while (fuel : nat) (jobs : Z) (sched : nat -> nat) (w : writer)
    : writer * result unit :=
  if jobs * 2 <? Z.of_nat (length (w_inflight w)) then
    match fuel with
    | O => (w, Panic "all goroutines are asleep")
    | S fuel =>
        match receive sched w with
        | (w, Ok _) => receive_while fuel jobs sched w
        | (w, r) => (w, r)
        end
    end
  else (w, Ok tt).

(** [for i := 0; i < inflight; i++ { .. }]. *)
Fixpoint receive_all (n : nat) (sched : nat -> nat) (w : writer) : writer * result unit :=
  match n with
  | O => (w, Ok tt)
  | S n =>
      match receive sched w with
      | (w, Ok _) => receive_all n sched w
      | (w, r) => (w, r)
      end
  end.

(** [for rows.Next() { .. }]. With [jobs = 0] the channel of the jobs has
    no buffer and no worker receives from it: the first send blocks for
    ever. *)
Fixpoint feed (jobs : Z) (sched : nat -> nat) (rows : list (list Value)) (index : nat)
    (w : writer) : writer * result unit :=
  match rows with
  | [] => (w, Ok tt)
  | rowValues :: rows =>
      match buildRowContext rowValues colIndex pkCols useRowID opts tbl with
      | Ok (values, rowCtx) =>
          if jobs <? 1 then (w, Panic "all goroutines are asleep") else
          let w := {| w_inflight := w_inflight w
                                    ++ [{| j_index := index; j_values := values;
                                           j_rowCtx := rowCtx |}];
                      w_pending := w_pending w; w_next := w_next w; w_out := w_out w;
                      w_recv := w_recv w |} in
          match receive_while (length (w_inflight w)) jobs sched w with
          | (w, Ok _) => feed jobs sched rows (S index) w
          | (w, r) => (w, r)
          end
      | Err e => (w, Err e)
      | Panic e => (w, Panic e)
      end
  end.

(** [make(chan job, jobs*2)] panics for a negative size; [jobs] workers
    are started. *)
Definition processRowsParallel (jobs : Z) (sched : nat -> nat) (rows : list (list Value))
    (out : Out) : Out * result unit :=
  if jobs <? 0 then (out, Panic "makechan: size out of range") else
  match feed jobs sched rows 0
             {| w_inflight := []; w_pending := ∅; w_next := 0; w_out := out; w_recv := 0 |} with
  | (w, Ok _) =>
      let '(w, r) := receive_all (length (w_inflight w)) sched w in (w_out w, r)
  | (w, r) => (w_out w, r)
  end.

End Rows.

(** *** The transformers of a table *)

(** [SELECT key, value FROM table] on the input database. The statement
    goes to the database as it is: the relation it names may be a table
    of the loaded schema, a table the schema leaves out, or a view; the
    database holds its rows under its name. A statement that names a
    column some row of the relation does not have is refused. *)
Definition has_cell (r : Row) (c : string) : bool :=
  match assoc c (row_cells r) with
  | Some _ => true
  | None => String.eqb c "rowid"
  end.

Definition lookup_rows (db : Database) (table key value : string) : result (list Row) :=
  match db !! table with
  | None => Err ("no such table: " ++ table)
  | Some rows =>
      if forallb (fun r => has_cell r key && has_cell r value) rows then Ok rows
      else Err "no such column"
  end.

(** [loadLookupMap]: the configured map, overlaid with one entry per row
    the query returns, in the order of the rows. *)
Definition loadLookupMap (db : Database) (tc : config.TransformConfig)
    : result (gmap string string) :=
  if String.eqb (config.LookupTable tc) "" then Ok ∅
  else if String.eqb (config.LookupKey tc) "" || String.eqb (config.LookupValue tc) ""
  then Err "lookup_table requires lookup_key and lookup_value"
  else
    let* rows :=
      match lookup_rows db (config.LookupTable tc) (config.LookupKey tc)
              (config.LookupValue tc) with
      | Err e => Err ("lookup table " ++ config.LookupTable tc ++ ": " ++ e)
      | r => r
      end in
    Ok (fold_left (fun result r =>
                     <[Sprint (cell r (config.LookupKey tc))
                         := Sprint (cell r (config.LookupValue tc))]> result)
                  rows (config.Map tc)).

Definition buildTransformerForColumn (registry : gmap string transform.Factory)
    (db : Database) (tc : config.TransformConfig) (salt : string)
    : result (option transform.Transformer) :=
  let build := transform.Build registry (Some tc) salt in
  if String.eqb (config.LookupTable tc) "" then build
  else
    let* mapping := loadLookupMap db tc in
    if (0 <? size mapping)%nat then Ok (Some (transform.MapReplace mapping)) else build.

(** [buildTransformers]; [it] is the order in which the loop meets the
    columns of the table's configuration. *)
Definition buildTransformers (registry : gmap string transform.Factory) (it : list string)
    (db : Database) (cfg : option config.Config)
    (table salt : string) : result (gmap string transform.Transformer) :=
  match cfg with
  | None => Ok ∅
  | Some cfg =>
      match config.Tables cfg !! table with
      | Some (Some tbl) =>
          subset.rfold
            (fun result col =>
               match config.Columns tbl !! col with
               | Some (Some tc) =>
                   match buildTransformerForColumn registry db tc salt with
                   | Ok (Some tr) => Ok (<[col := tr]> result)
                   | Ok None => Ok result
                   | Err e => Err ("build transformer " ++ table ++ "." ++ col ++ ": " ++ e)
                   | Panic e => Panic e
                   end
               | _ => Ok result
               end)
            it ∅
      | _ => Ok ∅
      end
  end.

(** *** Tables *)

Definition useRowIDOf (tbl : schema.Table) : bool :=
  bool_decide (schema.PrimaryKeys tbl = []) && negb (schema.WithoutRowID tbl).

Definition selectCols (tbl : schema.Table) : list string :=
  (if useRowIDOf tbl then ["rowid"] else []) ++ map schema.ColName (schema.Columns tbl).

(** [buildOrderBy]: the columns of the [ORDER BY] clause, if there is one. *)
Definition buildOrderBy (tbl : schema.Table) (useRowID : bool) : option (list string) :=
  if (0 <? length (schema.PrimaryKeys tbl))%nat then Some (schema.PrimaryKeys tbl)
  else if useRowID then Some ["rowid"]
  else None.

(** [SELECT selectCols FROM tbl [WHERE cond] [ORDER BY ..]]. *)
Definition select_rows (db : Database) (tbl : schema.Table) (cond : option (Row -> bool))
    : result (list (list Value)) :=
  let orderBy := buildOrderBy tbl (useRowIDOf tbl) in
  let* rows := subset.from_table db (schema.Name tbl) tbl
                 (selectCols tbl ++ default [] orderBy) in
  let rows := match cond with Some keep => List.filter keep rows | None => rows end in
  let rows := match orderBy with Some cols => subset.order_by cols rows | None => rows end in
  Ok (map (row_tuple (selectCols tbl)) rows).

Definition key_le (a b : list Value) : Prop := str_le (keyFor a) (keyFor b).

#[export] Instance key_le_dec : RelDecision key_le.
Proof. intros a b. unfold key_le. apply _. Defined.

(** [sortRows]: by textual key; the order of tuples with one key is not
    specified by [sort.Slice]. *)
Definition sortRows (values : list (list Value)) : list (list Value) :=
  merge_sort key_le values.

Section Tables.
Variable Out : Type.
Variable exec : Out -> string -> list Value -> option Out.
Variable ddl : Out -> string -> option Out.
Variable registry : gmap string transform.Factory.
(** The orders of the loops over maps and the choices of the workers,
    by table, by query of that table and, for a row, by its index. *)
Variable cols_it : string -> list string.
Variable order : string -> nat -> nat -> list (string * transform.Transformer).
Variable sched : string -> nat -> nat -> nat.
Variable db : Database.
Variable s : schema.Schema.

(** The closure [processRows] of [copyTable], for the query number [c]. *)
Definition processRows (tbl : schema.Table) (opts : Options)
    (transformers : gmap string transform.Transformer) (c : nat)
    (rows : list (list Value)) (out : Out) : Out * result unit :=
  let jobs := if Jobs opts <? 1 then 1 else Jobs opts in
  if (jobs =? 1) || (size transformers =? 0)%nat
  then processRowsSequential Out exec (order (schema.Name tbl) c) (colIndexOf tbl)
         (schema.PrimaryKeys tbl) (useRowIDOf tbl) opts tbl rows 0 out
  else processRowsParallel Out exec (order (schema.Name tbl) c) (colIndexOf tbl)
         (schema.PrimaryKeys tbl) (useRowIDOf tbl) opts tbl jobs
         (sched (schema.Name tbl) c) rows out.

(** [for _, chunk := range chunks { .. }]. *)
Fixpoint copy_chunks (tbl : schema.Table) (opts : Options)
    (transformers : gmap string transform.Transformer) (selSet : subset.PKSet)
    (chunks : list (list (list Value))) (c : nat) (out : Out) : Out * result unit :=
  match chunks with
  | [] => (out, Ok tt)
  | chunk :: chunks =>
      match (let* whereIn := subset.buildTupleIn (subset.Cols selSet) chunk in
             select_rows db tbl (Some whereIn)) with
      | Ok rows =>
          match processRows tbl opts transformers c rows out with
          | (out, Ok _) => copy_chunks tbl opts transformers selSet chunks (S c) out
          | (out, r) => (out, r)
          end
      | Err e => (out, Err e)
      | Panic e => (out, Panic e)
      end
  end.

Definition copyTable (tbl : schema.Table) (opts : Options) (selSet : option subset.PKSet)
    (out : Out) : Out * result unit :=
  match buildTransformers registry (cols_it (schema.Name tbl)) db (Config opts)
          (schema.Name tbl) (Salt opts) with
  | Ok transformers =>
      match selSet with
      | None =>
          match select_rows db tbl None with
          | Ok rows => processRows tbl opts transformers 0 rows out
          | Err e => (out, Err e)
          | Panic e => (out, Panic e)
          end
      | Some selSet =>
          match subset.ValuesByColumns selSet (subset.Cols selSet) with
          | Ok pkValues =>
              copy_chunks tbl opts transformers selSet
                          (subset.chunkValues (sortRows pkValues) 500) 0 out
          | Err e => (out, Err e)
          | Panic e => (out, Panic e)
          end
      end
  | Err e => (out, Err e)
  | Panic e => (out, Panic e)
  end.

Fixpoint copyData (names : list string) (opts : Options)
    (selection : option (gmap string subset.PKSet)) (out : Out) : Out * result unit :=
  match names with
  | [] => (out, Ok tt)
  | name :: names =>
      if negb (tableIncluded (Config opts) name) then copyData names opts selection out
      else
        match schema.Tables s !! name with
        | None => copyData names opts selection out
        | Some tbl =>
            let copy selSet :=
              match copyTable tbl opts selSet out with
              | (out, Ok _) => copyData names opts selection out
              | (out, r) => (out, r)
              end in
            match selection with
            | None => copy None
            | Some sel =>
                match sel !! name with
                | None => copyData names opts selection out
                | Some selSet => copy (Some selSet)
                end
            end
        end
  end.

(** [createSchema] and [createPostDataSchema] run in a transaction: when
    a statement fails, the output is what it was. *)
Fixpoint exec_all (stmts : list (string * string)) (wrap : string -> string) (out : Out)
    : result Out :=
  match stmts with
  | [] => Ok out
  | (name, sql) :: stmts =>
      match ddl out sql with
      | Some out => exec_all stmts wrap out
      | None => Err (wrap name)
      end
  end.

Definition createSchema (names : list string) (opts : Options) (out : Out)
    : Out * result unit :=
  let stmts :=
    omap (fun name =>
            if tableIncluded (Config opts) name
            then (fun tbl => (name, schema.SQL tbl)) <$> schema.Tables s !! name
            else None) names in
  match exec_all stmts (fun name => "create table " ++ name)%string out with
  | Ok out => (out, Ok tt)
  | Err e => (out, Err e)
  | Panic e => (out, Panic e)
  end.

Definition items (l : list schema.SQLItem) : list (string * string) :=
  map (fun v => (schema.ItemName v, schema.ItemSQL v))
      (List.filter (fun v => negb (String.eqb (schema.ItemSQL v) "")) l).

Definition createPostDataSchema (opts : Options) (out : Out) : Out * result unit :=
  match
    (let* o := exec_all (items (schema.Views s)) (fun name => "create view " ++ name)%string
                        out in
     let* o := exec_all (items (schema.Indexes s)) (fun name => "create index " ++ name)%string
                        o in
     if String.eqb (ToLower (Triggers opts)) "on"
     then exec_all (items (schema.Triggers s)) (fun name => "create trigger " ++ name)%string o
     else Ok o)
  with
  | Ok out => (out, Ok tt)
  | Err e => (out, Err e)
  | Panic e => (out, Panic e)
  end.

Definition with_config (opts : Options) (cfg : config.Config) : Options :=
  {| InPath := InPath opts; OutPath := OutPath opts; Config := Some cfg;
     Salt := Salt opts; Seed := Seed opts; FKMode := FKMode opts;
     Triggers := Triggers opts; Jobs := Jobs opts; Subset := Subset opts |}.

Definition empty_config : config.Config :=
  {| config.IncludeTables := []; config.ExcludeTables := []; config.Tables := ∅;
     config.Subset := None |}.

Definition setFKMode (mode : string) (out : Out) : Out * result unit :=
  let mode := ToLower mode in
  let pragma :=
    if String.eqb mode "on" then Some "PRAGMA foreign_keys = ON"%string
    else if String.eqb mode "off" then Some "PRAGMA foreign_keys = OFF"%string
    else None in
  match pragma with
  | Some stmt =>
      match ddl out stmt with
      | Some out => (out, Ok tt)
      | None => (out, Err "set foreign_keys")
      end
  | None => (out, Err ("invalid fk mode: " ++ mode))
  end.

(** [Run], from the fresh output database [out] and the loaded schema
    [s] of the input database; [it1 .. it4] are the orders of the map
    loops of [TableOrder]. *)
Definition Run (it1 it2 it3 it4 : list string) (opts : Options) (out : Out)
    : Out * result unit :=
  if String.eqb (InPath opts) "" || String.eqb (OutPath opts) ""
  then (out, Err "input and output paths are required")
  else
    let cfg := default empty_config (Config opts) in
    let opts := with_config opts cfg in
    match setFKMode (FKMode opts) out with
    | (out, Ok _) =>
        match schema.TableOrder_in it1 it2 it3 it4 s with
        | None => (out, Panic "TableOrder")
        | Some names =>
            match (if Subset opts || bool_decide (is_Some (config.Subset cfg))
                   then (let* sel := subset.BuildSelection db s (Some cfg) in Ok (Some sel))
                   else Ok None) with
            | Ok selection =>
                match createSchema names opts out with
                | (out, Ok _) =>
                    match copyData names opts selection out with
                    | (out, Ok _) => createPostDataSchema opts out
                    | (out, r) => (out, r)
                    end
                | (out, r) => (out, r)
                end
            | Err e => (out, Err e)
            | Panic e => (out, Panic e)
            end
        end
    | (out, r) => (out, r)
    end.

End Tables.

End Copy.
End copy.

(** ** The parallel path writes what the sequential path writes *)

Module copy_props.
Import copy.
Section Rows.
Context `{GoEnv} `{!SqlEngine}.
Variable Out : Type.
Variable exec : Out -> string -> list Value -> option Out.
Variable order : nat -> list (string * transform.Transformer).
Variable colIndex : gmap string nat.
Variable pkCols : list string.
Variable useRowID : bool.
Variable opts : Options.
Variable tbl : schema.Table.
Variable rows : list (list Value).
Variable out0 : Out.

Definition to_option {A} (r : result A) : option A :=
  match r with Ok v => Some v | _ => None end.

(** The transformed row with index [k], when there is one. *)
Definition transformed (k : nat) : option (list Value) :=
  match rows !! k with
  | Some rowValues =>
      to_option (row_result order colIndex pkCols useRowID opts tbl (fun _ e => e) k rowValues)
  | None => None
  end.

(** The output database after the first [n] transformed rows have been
    inserted in their order, when all of that succeeds. *)
Fixpoint written (n : nat) : option Out :=
  match n with
  | O => Some out0
  | S n =>
      match written n, transformed n with
      | Some out, Some values => exec out (schema.Name tbl) values
      | _, _ => None
      end
  end.

Lemma rfold_wrap (wrap1 wrap2 : string -> string -> string) rowCtx entries :
  forall values,
    to_option (subset.rfold (transform_step wrap1 colIndex rowCtx) entries values)
    = to_option (subset.rfold (transform_step wrap2 colIndex rowCtx) entries values).
Proof.
  induction entries as [| entry entries IH]; intros values; [reflexivity |].
  cbn [subset.rfold]. unfold transform_step at 1 3.
  destruct (index values (at_col colIndex (fst entry))) as [old | |]; [| reflexivity ..].
  cbn [rbind].
  destruct (transform.Transform (snd entry) old rowCtx); cbn [rbind]; [apply IH | reflexivity ..].
Qed.

Lemma row_result_wrap (wrap1 wrap2 : string -> string -> string) k rowValues :
  to_option (row_result order colIndex pkCols useRowID opts tbl wrap1 k rowValues)
  = to_option (row_result order colIndex pkCols useRowID opts tbl wrap2 k rowValues).
Proof.
  unfold row_result.
  destruct (buildRowContext rowValues colIndex pkCols useRowID opts tbl) as [[values ctx] | |];
    [| reflexivity ..].
  cbn [rbind]. apply rfold_wrap.
Qed.

Lemma written_prefix (n m : nat) :
  (m <= n)%nat -> is_Some (written n) -> is_Some (written m).
Proof.
  intros Hle. induction Hle as [| n Hle IH]; [auto |].
  intros Hn. apply IH. cbn [written] in Hn.
  destruct (written n); [eauto | destruct Hn; discriminate].
Qed.

Lemma written_S (n : nat) :
  is_Some (written (S n)) -> is_Some (transformed n).
Proof.
  cbn [written]. destruct (written n); [| intros [x Hx]; discriminate].
  destruct (transformed n); [eauto | intros [x Hx]; discriminate].
Qed.

Lemma written_le (n : nat) : is_Some (written n) -> (n <= length rows)%nat.
Proof.
  intros Hn. destruct n as [| n]; [lia |].
  apply written_S in Hn. unfold transformed in Hn.
  destruct (rows !! n) eqn:Hrow; [| destruct Hn; discriminate].
  apply lookup_lt_Some in Hrow. lia.
Qed.

Lemma sequential_written (rest : list (list Value)) :
  forall i out,
    written i = Some out -> skipn i rows = rest ->
    exists n,
      written n = Some (fst (processRowsSequential Out exec order colIndex pkCols useRowID
                               opts tbl rest i out)) /\
      (snd (processRowsSequential Out exec order colIndex pkCols useRowID opts tbl rest i out)
       = Ok tt -> n = length rows) /\
      (snd (processRowsSequential Out exec order colIndex pkCols useRowID opts tbl rest i out)
       <> Ok tt -> written (S n) = None /\ (n < length rows)%nat).
Proof.
  induction rest as [| rowValues rest IH]; intros i out Hout Hrest.
  - exists i. cbn. split; [exact Hout |]. split; [| congruence].
    intros _. assert (Hle : (i <= length rows)%nat) by (apply written_le; eauto).
    assert (Hlen : length (skipn i rows) = 0%nat) by (rewrite Hrest; reflexivity).
    rewrite length_skipn in Hlen. lia.
  - assert (Hrow : rows !! i = Some rowValues).
    { pose proof (lookup_drop rows i 0) as Hd. rewrite Nat.add_0_r in Hd.
      rewrite <- Hd. change (drop i rows) with (skipn i rows). rewrite Hrest. reflexivity. }
    assert (Hnext : skipn (S i) rows = rest).
    { replace (S i) with (1 + i)%nat by lia. rewrite <- skipn_skipn, Hrest. reflexivity. }
    assert (Htr : transformed i
                  = to_option (row_result order colIndex pkCols useRowID opts tbl
                                 (wrap_transform tbl) i rowValues)).
    { unfold transformed. rewrite Hrow. apply row_result_wrap. }
    assert (Hlt : (i < length rows)%nat) by (apply lookup_lt_Some in Hrow; exact Hrow).
    cbn [processRowsSequential].
    destruct (row_result order colIndex pkCols useRowID opts tbl (wrap_transform tbl) i rowValues)
      as [values | e | e]; cbn [to_option] in Htr.
    + destruct (exec out (schema.Name tbl) values) as [out1 |] eqn:Hexec.
      * apply IH; [| exact Hnext]. cbn [written]. rewrite Hout, Htr. exact Hexec.
      * exists i. cbn [fst snd]. split; [exact Hout |]. split; [discriminate |].
        intros _. split; [| exact Hlt]. cbn [written]. rewrite Hout, Htr. exact Hexec.
    + exists i. cbn [fst snd]. split; [exact Hout |]. split; [discriminate |].
      intros _. split; [| exact Hlt]. cbn [written]. rewrite Hout, Htr. reflexivity.
    + exists i. cbn [fst snd]. split; [exact Hout |]. split; [discriminate |].
      intros _. split; [| exact Hlt]. cbn [written]. rewrite Hout, Htr. reflexivity.
Qed.

(** *** The writer's invariant *)

(** After [i] rows have been sent: the jobs in flight are distinct rows
    not yet written nor pending; every row sent is written, pending or
    in flight; what is pending lies beyond [nextIndex] and is the
    transformed row; the output holds the first [nextIndex] rows. *)
Record Inv (i : nat) (w : writer Out) : Prop := {
  inv_jobs : forall j, j ∈ w_inflight Out w ->
    (j_index j < i)%nat /\ (w_next Out w <= j_index j)%nat /\
    w_pending Out w !! j_index j = None /\
    exists rowValues,
      rows !! j_index j = Some rowValues /\
      buildRowContext rowValues colIndex pkCols useRowID opts tbl
      = Ok (j_values j, j_rowCtx j);
  inv_nodup : NoDup (map j_index (w_inflight Out w));
  inv_cover : forall k, (k < i)%nat ->
    (k < w_next Out w)%nat \/ is_Some (w_pending Out w !! k)
    \/ k ∈ map j_index (w_inflight Out w);
  inv_pending : forall k values, w_pending Out w !! k = Some values ->
    (w_next Out w < k)%nat /\ (k < i)%nat /\ transformed k = Some values;
  inv_written : written (w_next Out w) = Some (w_out Out w);
  inv_next : (w_next Out w <= i)%nat;
}.

Lemma Inv_start :
  Inv 0 {| w_inflight := []; w_pending := ∅; w_next := 0; w_out := out0; w_recv := 0 |}.
Proof.
  constructor; cbn.
  - intros j Hj. inversion Hj.
  - constructor.
  - intros k Hk. lia.
  - intros k values Hk. rewrite lookup_empty in Hk. discriminate.
  - reflexivity.
  - lia.
Qed.

Lemma work_transformed (j : job) rowValues :
  rows !! j_index j = Some rowValues ->
  buildRowContext rowValues colIndex pkCols useRowID opts tbl = Ok (j_values j, j_rowCtx j) ->
  transformed (j_index j) = to_option (work order colIndex j).
Proof.
  intros Hrow Hbuild. unfold transformed, row_result, work. rewrite Hrow, Hbuild. reflexivity.
Qed.

(** The loop of [flush]. *)
Lemma drain_spec (fuel : nat) :
  forall pending next out,
    (size pending <= fuel)%nat ->
    written next = Some out ->
    (forall k values, pending !! k = Some values ->
                      (next <= k)%nat /\ transformed k = Some values) ->
    exists pending' next' out' r,
      drain Out exec tbl fuel pending next out = (pending', next', out', r) /\
      (next <= next')%nat /\
      (forall k, pending' !! k
                 = if decide (next <= k < next')%nat then None else pending !! k) /\
      (forall k, (next <= k < next')%nat -> is_Some (pending !! k)) /\
      written next' = Some out' /\
      (r = Ok tt -> pending' !! next' = None) /\
      (r <> Ok tt -> written (S next') = None /\ is_Some (pending !! next')).
Proof.
  induction fuel as [| fuel IH]; intros pending next out Hsize Hout Hpend.
  - assert (Hempty : pending = ∅) by (apply map_size_empty_inv; lia). subst pending.
    exists ∅, next, out, (Ok tt). cbn [drain]. split; [reflexivity |]. split; [lia |].
    split; [intros k; destruct (decide _); [lia | reflexivity] |].
    split; [intros k Hk; lia |]. split; [exact Hout |].
    split; [intros _; apply lookup_empty | congruence].
  - cbn [drain]. destruct (pending !! next) as [values |] eqn:Hlook.
    2:{ exists pending, next, out, (Ok tt). split; [reflexivity |]. split; [lia |].
        split; [intros k; destruct (decide _); [lia | reflexivity] |].
        split; [intros k Hk; lia |]. split; [exact Hout |].
        split; [intros _; exact Hlook | congruence]. }
    destruct (Hpend _ _ Hlook) as [_ Htr].
    destruct (exec out (schema.Name tbl) values) as [out1 |] eqn:Hexec.
    2:{ exists pending, next, out, (Err ("insert " ++ schema.Name tbl)).
        split; [reflexivity |]. split; [lia |].
        split; [intros k; destruct (decide _); [lia | reflexivity] |].
        split; [intros k Hk; lia |]. split; [exact Hout |].
        split; [discriminate |]. intros _.
        split; [cbn [written]; rewrite Hout, Htr; exact Hexec | eauto]. }
    assert (Hout1 : written (S next) = Some out1).
    { cbn [written]. rewrite Hout, Htr. exact Hexec. }
    destruct (IH (delete next pending) (S next) out1) as
      (pending' & next' & out' & r & Hdrain & Hle & Hmap & Hrange & Hout' & Hok & Hfail).
    + rewrite map_size_delete, Hlook. lia.
    + exact Hout1.
    + intros k v Hk. apply lookup_delete_Some in Hk as [Hne Hk].
      destruct (Hpend _ _ Hk) as [Hge Htrk]. split; [lia | exact Htrk].
    + exists pending', next', out', r. split; [exact Hdrain |]. split; [lia |].
      split; [| split; [| split; [exact Hout' | split; [exact Hok |]]]].
      * intros k. rewrite Hmap.
        destruct (decide (S next <= k < next')%nat) as [Hin | Hout2];
          destruct (decide (next <= k < next')%nat) as [Hin' | Hout3]; try reflexivity; try lia.
        -- assert (k = next) by lia. subst k. apply lookup_delete_eq.
        -- apply lookup_delete_ne. lia.
      * intros k Hk. destruct (decide (k = next)) as [-> | Hne]; [eauto |].
        destruct (Hrange k ltac:(lia)) as [v Hv].
        apply lookup_delete_Some in Hv as [_ Hv]. eauto.
      * intros Hr. destruct (Hfail Hr) as [Hw [v Hv]]. split; [exact Hw |].
        apply lookup_delete_Some in Hv as [_ Hv]. eauto.
Qed.

Lemma delete_job {A} (f : A -> nat) (l : list A) (k : nat) (y : A) :
  NoDup (map f l) -> l !! k = Some y ->
  (forall x, x ∈ delete k l -> x ∈ l /\ f x <> f y) /\
  NoDup (map f (delete k l)) /\
  (forall x, x ∈ l -> f x <> f y -> x ∈ delete k l) /\
  S (length (delete k l)) = length l.
Proof.
  intros Hnd Hk. pose proof (take_drop_middle l k y Hk) as Hsplit.
  rewrite delete_take_drop. rewrite <- Hsplit in Hnd.
  rewrite map_app in Hnd. cbn [map] in Hnd.
  apply NoDup_app in Hnd as (Hnd1 & Hdisj & Hnd2).
  apply NoDup_cons in Hnd2 as [Hy Hnd2].
  split; [| split; [| split]].
  - intros x Hx. split.
    + rewrite <- Hsplit. apply elem_of_app in Hx as [Hx | Hx]; apply elem_of_app;
        [left; exact Hx | right; apply elem_of_cons; right; exact Hx].
    + intros Heq. apply elem_of_app in Hx as [Hx | Hx].
      * apply (Hdisj (f x)); [apply list_elem_of_fmap; eauto |].
        rewrite Heq. constructor.
      * apply Hy. rewrite <- Heq. apply list_elem_of_fmap. eauto.
  - rewrite map_app. apply NoDup_app. split; [exact Hnd1 |]. split; [| exact Hnd2].
    intros n Hn Hn'. apply (Hdisj n Hn). apply elem_of_cons. right. exact Hn'.
  - intros x Hx Hne. rewrite <- Hsplit in Hx.
    apply elem_of_app in Hx as [Hx | Hx]; [apply elem_of_app; left; exact Hx |].
    apply elem_of_cons in Hx as [-> | Hx]; [contradiction |].
    apply elem_of_app. right. exact Hx.
  - rewrite length_app, length_take, length_drop. apply lookup_lt_Some in Hk. lia.
Qed.

(** One receive and its flush. *)
Lemma receive_spec (sched : nat -> nat) (i : nat) (w : writer Out) :
  Inv i w -> (i <= length rows)%nat ->
  exists w' r,
    receive Out exec order colIndex tbl sched w = (w', r) /\
    written (w_next Out w') = Some (w_out Out w') /\
    (r = Ok tt -> Inv i w' /\ S (length (w_inflight Out w')) = length (w_inflight Out w)) /\
    (w_inflight Out w <> [] -> is_Some (written (length rows)) -> r = Ok tt).
Proof.
  intros [Hjobs Hnd Hcover Hpend Hout Hnext] Hi. unfold receive.
  set (k := (sched (w_recv Out w) mod length (w_inflight Out w))%nat).
  destruct (w_inflight Out w !! k) as [j |] eqn:Hj.
  2:{ exists w, (Panic "all goroutines are asleep"). split; [reflexivity |].
      split; [exact Hout |]. split; [discriminate |]. intros Hne _. exfalso.
      apply lookup_ge_None in Hj. subst k.
      assert (Hlen : (0 < length (w_inflight Out w))%nat).
      { destruct (w_inflight Out w); [contradiction | simpl; lia]. }
      pose proof (Nat.mod_upper_bound (sched (w_recv Out w)) (length (w_inflight Out w))
                    ltac:(lia)). lia. }
  assert (Hin : j ∈ w_inflight Out w) by (eapply list_elem_of_lookup_2; exact Hj).
  destruct (Hjobs j Hin) as (Hlt & Hge & Hnone & rowValues & Hrow & Hbuild).
  pose proof (work_transformed j rowValues Hrow Hbuild) as Htr.
  destruct (delete_job j_index _ _ _ Hnd Hj) as (Hrest & Hnd' & Hkeep & Hlen).
  unfold flush. cbn [w_pending w_next w_out w_inflight w_recv].
  destruct (work order colIndex j) as [values | e | e] eqn:Hwork; cbn [to_option] in Htr.
  2,3: (eexists _, _; split; [reflexivity |]; split; [exact Hout |];
        split; [discriminate |]; intros _ Hall; exfalso;
        assert (Hs : is_Some (transformed (j_index j)))
          by (apply written_S; eapply written_prefix; [| exact Hall]; lia);
        rewrite Htr in Hs; destruct Hs; discriminate).
  set (pending1 := <[j_index j := values]> (w_pending Out w)).
  destruct (drain_spec (size pending1) pending1 (w_next Out w) (w_out Out w)) as
    (pending' & next' & out' & r & Hdrain & Hle & Hmap & Hrange & Hout' & Hok & Hfail).
  { lia. }
  { exact Hout. }
  { intros k' v Hk'. subst pending1. apply lookup_insert_Some in Hk' as [[<- <-] | [_ Hk']].
    - split; [exact Hge | exact Htr].
    - destruct (Hpend _ _ Hk') as (Hlt' & _ & Htr'). split; [lia | exact Htr']. }
  rewrite Hdrain. eexists _, r. split; [reflexivity |].
  cbn [w_pending w_next w_out w_inflight w_recv]. split; [exact Hout' |].
  assert (Hsent : forall k', is_Some (pending1 !! k') -> (k' < i)%nat).
  { intros k' [v Hv]. subst pending1. apply lookup_insert_Some in Hv as [[<- _] | [_ Hv]];
      [exact Hlt | destruct (Hpend _ _ Hv) as (_ & Hlt' & _); exact Hlt']. }
  split.
  - intros Hr. specialize (Hok Hr). split; [| exact Hlen].
    constructor; cbn [w_pending w_next w_out w_inflight w_recv].
    + intros j' Hj'. destruct (Hrest j' Hj') as [Hold Hne].
      destruct (Hjobs j' Hold) as (Hlt' & Hge' & Hnone' & Hrow').
      assert (Hp1 : pending1 !! j_index j' = None).
      { subst pending1. rewrite lookup_insert_ne by auto. exact Hnone'. }
      assert (Hbeyond : (next' <= j_index j')%nat).
      { destruct (Nat.le_gt_cases next' (j_index j')) as [Hok' | Hlow]; [exact Hok' |].
        destruct (Hrange (j_index j') ltac:(lia)) as [v Hv]. congruence. }
      split; [exact Hlt' |]. split; [exact Hbeyond |]. split; [| exact Hrow'].
      rewrite Hmap. destruct (decide _); [reflexivity | exact Hp1].
    + exact Hnd'.
    + intros k' Hk'.
      destruct (Nat.lt_ge_cases k' next') as [Hlow | Hhigh]; [left; exact Hlow |].
      right.
      assert (Hsame : pending' !! k' = pending1 !! k').
      { rewrite Hmap. destruct (decide _); [lia | reflexivity]. }
      destruct (Hcover k' Hk') as [Hw | [Hp | Hf]].
      * lia.
      * left. rewrite Hsame. subst pending1.
        destruct (decide (j_index j = k')) as [<- | Hne];
          [rewrite lookup_insert_eq; eauto | rewrite lookup_insert_ne by exact Hne; exact Hp].
      * apply list_elem_of_fmap in Hf as (j' & -> & Hj').
        destruct (decide (j_index j' = j_index j)) as [Heq | Hne].
        -- left. rewrite Hsame, Heq. subst pending1. rewrite lookup_insert_eq. eauto.
        -- right. apply list_elem_of_fmap. exists j'. split; [reflexivity |].
           apply Hkeep; assumption.
    + intros k' v Hk'. rewrite Hmap in Hk'.
      destruct (decide (w_next Out w <= k' < next')%nat) as [_ | Hout2]; [discriminate |].
      assert (Hlow : (w_next Out w <= k')%nat /\ transformed k' = Some v).
      { subst pending1. apply lookup_insert_Some in Hk' as [[<- <-] | [_ Hk']].
        - split; [exact Hge | exact Htr].
        - destruct (Hpend _ _ Hk') as (Hlt' & _ & Htr'). split; [lia | exact Htr']. }
      destruct Hlow as [Hlow Htr'].
      assert (Hne : k' <> next').
      { intros ->. rewrite Hmap in Hok. destruct (decide _) in Hok; [lia |]. congruence. }
      split; [lia |]. split; [apply Hsent; eauto | exact Htr'].
    + exact Hout'.
    + destruct (Nat.le_gt_cases next' i) as [Hfine | Hover]; [exact Hfine |].
      exfalso. assert (Hs : (i < i)%nat) by (apply Hsent, Hrange; lia). lia.
  - intros _ Hall. destruct r as [[] | e | e]; [reflexivity | exfalso ..].
    + destruct (Hfail ltac:(discriminate)) as [Hw Hs]. apply Hsent in Hs.
      assert (Hsome : is_Some (written (S next'))) by (eapply written_prefix; [| exact Hall]; lia).
      rewrite Hw in Hsome. destruct Hsome; discriminate.
    + destruct (Hfail ltac:(discriminate)) as [Hw Hs]. apply Hsent in Hs.
      assert (Hsome : is_Some (written (S next'))) by (eapply written_prefix; [| exact Hall]; lia).
      rewrite Hw in Hsome. destruct Hsome; discriminate.
Qed.

Lemma Inv_send (i : nat) (w : writer Out) rowValues values rowCtx :
  Inv i w -> rows !! i = Some rowValues ->
  buildRowContext rowValues colIndex pkCols useRowID opts tbl = Ok (values, rowCtx) ->
  Inv (S i)
      {| w_inflight := w_inflight Out w
                       ++ [{| j_index := i; j_values := values; j_rowCtx := rowCtx |}];
         w_pending := w_pending Out w; w_next := w_next Out w; w_out := w_out Out w;
         w_recv := w_recv Out w |}.
Proof.
  intros [Hjobs Hnd Hcover Hpend Hout Hnext] Hrow Hbuild.
  constructor; cbn [w_pending w_next w_out w_inflight w_recv].
  - intros j Hj. apply elem_of_app in Hj as [Hj | Hj].
    + destruct (Hjobs j Hj) as (Hlt & Hrest). split; [lia | exact Hrest].
    + apply list_elem_of_singleton in Hj. subst j. cbn [j_index j_values j_rowCtx].
      split; [lia |]. split; [exact Hnext |]. split; [| eauto].
      destruct (w_pending Out w !! i) as [v |] eqn:Hv; [| reflexivity].
      destruct (Hpend _ _ Hv) as (_ & Hlt & _). lia.
  - rewrite map_app. apply NoDup_app. split; [exact Hnd |].
    split; [| apply NoDup_singleton].
    intros k Hk Hk'. cbn in Hk'. apply list_elem_of_singleton in Hk'. subst k.
    apply list_elem_of_fmap in Hk as (j & Heq & Hj).
    destruct (Hjobs j Hj) as (Hlt & _). lia.
  - intros k Hk. destruct (decide (k = i)) as [-> | Hne].
    + right. right. rewrite map_app. apply elem_of_app. right. constructor.
    + destruct (Hcover k ltac:(lia)) as [Hw | [Hp | Hf]]; [auto | auto |].
      right. right. rewrite map_app. apply elem_of_app. left. exact Hf.
  - intros k v Hk. destruct (Hpend _ _ Hk) as (H1 & H2 & H3).
    split; [exact H1 |]. split; [lia | exact H3].
  - exact Hout.
  - lia.
Qed.

Lemma receive_while_spec (jobs : Z) (sched : nat -> nat) (i : nat) :
  0 <= jobs -> (i <= length rows)%nat ->
  forall fuel w,
    Inv i w -> (length (w_inflight Out w) <= fuel)%nat ->
    exists w' r,
      receive_while Out exec order colIndex tbl fuel jobs sched w = (w', r) /\
      written (w_next Out w') = Some (w_out Out w') /\
      (r = Ok tt -> Inv i w') /\
      (is_Some (written (length rows)) -> r = Ok tt).
Proof.
  intros Hjobs Hi. induction fuel as [| fuel IH]; intros w Hinv Hfuel.
  - cbn [receive_while].
    destruct (Z.ltb_spec (jobs * 2) (Z.of_nat (length (w_inflight Out w)))) as [Hlt | _]; [lia |].
    exists w, (Ok tt). split; [reflexivity |]. split; [apply Hinv |]. auto.
  - cbn [receive_while].
    destruct (Z.ltb_spec (jobs * 2) (Z.of_nat (length (w_inflight Out w)))) as [Hlt | _].
    2:{ exists w, (Ok tt). split; [reflexivity |]. split; [apply Hinv |]. auto. }
    destruct (receive_spec sched i w Hinv Hi) as (w1 & r1 & Hrecv & Hout1 & Hok1 & Hprog1).
    rewrite Hrecv.
    assert (Hne : w_inflight Out w <> []).
    { intros Hnil. rewrite Hnil in Hlt. simpl in Hlt. lia. }
    destruct r1 as [[] | e | e].
    + destruct (Hok1 eq_refl) as [Hinv1 Hlen1]. apply IH; [exact Hinv1 | lia].
    + exists w1, (Err e). split; [reflexivity |]. split; [exact Hout1 |].
      split; [discriminate |]. intros Hall. specialize (Hprog1 Hne Hall). discriminate.
    + exists w1, (Panic e). split; [reflexivity |]. split; [exact Hout1 |].
      split; [discriminate |]. intros Hall. specialize (Hprog1 Hne Hall). discriminate.
Qed.

Lemma receive_all_spec (sched : nat -> nat) (i : nat) :
  (i <= length rows)%nat ->
  forall n w,
    Inv i w -> (n <= length (w_inflight Out w))%nat ->
    exists w' r,
      receive_all Out exec order colIndex tbl n sched w = (w', r) /\
      written (w_next Out w') = Some (w_out Out w') /\
      (r = Ok tt ->
       Inv i w' /\ (length (w_inflight Out w') + n = length (w_inflight Out w))%nat) /\
      (is_Some (written (length rows)) -> r = Ok tt).
Proof.
  intros Hi. induction n as [| n IH]; intros w Hinv Hn.
  - exists w, (Ok tt). split; [reflexivity |]. split; [apply Hinv |].
    split; [intros _; split; [exact Hinv | lia] | auto].
  - cbn [receive_all].
    destruct (receive_spec sched i w Hinv Hi) as (w1 & r1 & Hrecv & Hout1 & Hok1 & Hprog1).
    rewrite Hrecv.
    assert (Hne : w_inflight Out w <> []).
    { intros Hnil. rewrite Hnil in Hn. simpl in Hn. lia. }
    destruct r1 as [[] | e | e].
    + destruct (Hok1 eq_refl) as [Hinv1 Hlen1].
      destruct (IH w1 Hinv1 ltac:(lia)) as (w' & r & Hall & Hout' & Hok & Hprog).
      exists w', r. split; [exact Hall |]. split; [exact Hout' |]. split; [| exact Hprog].
      intros Hr. destruct (Hok Hr) as [Hinv' Hlen']. split; [exact Hinv' | lia].
    + exists w1, (Err e). split; [reflexivity |]. split; [exact Hout1 |].
      split; [discriminate |]. intros Hall. specialize (Hprog1 Hne Hall). discriminate.
    + exists w1, (Panic e). split; [reflexivity |]. split; [exact Hout1 |].
      split; [discriminate |]. intros Hall. specialize (Hprog1 Hne Hall). discriminate.
Qed.

Lemma feed_spec (jobs : Z) (sched : nat -> nat) :
  0 <= jobs ->
  forall rest i w,
    Inv i w -> (i <= length rows)%nat -> skipn i rows = rest ->
    exists w' r,
      feed Out exec order colIndex pkCols useRowID opts tbl jobs sched rest i w = (w', r) /\
      written (w_next Out w') = Some (w_out Out w') /\
      (r = Ok tt -> Inv (length rows) w') /\
      (1 <= jobs -> is_Some (written (length rows)) -> r = Ok tt).
Proof.
  intros Hjobs. induction rest as [| rowValues rest IH]; intros i w Hinv Hi Hrest.
  - assert (Hlen : length (skipn i rows) = 0%nat) by (rewrite Hrest; reflexivity).
    rewrite length_skipn in Hlen. assert (i = length rows) by lia. subst i.
    exists w, (Ok tt). split; [reflexivity |]. split; [apply Hinv |]. auto.
  - assert (Hrow : rows !! i = Some rowValues).
    { pose proof (lookup_drop rows i 0) as Hd. rewrite Nat.add_0_r in Hd.
      rewrite <- Hd. change (drop i rows) with (skipn i rows). rewrite Hrest. reflexivity. }
    assert (Hnext : skipn (S i) rows = rest).
    { replace (S i) with (1 + i)%nat by lia. rewrite <- skipn_skipn, Hrest. reflexivity. }
    assert (Hlt : (S i <= length rows)%nat) by (apply lookup_lt_Some in Hrow; lia).
    cbn [feed].
    destruct (buildRowContext rowValues colIndex pkCols useRowID opts tbl)
      as [[values rowCtx] | e | e] eqn:Hbuild.
    + destruct (Z.ltb_spec jobs 1) as [Hnone | Hsome].
      { exists w, (Panic "all goroutines are asleep"). split; [reflexivity |].
        split; [apply Hinv |]. split; [discriminate |]. intros Hpos. lia. }
      pose proof (Inv_send i w rowValues values rowCtx Hinv Hrow Hbuild) as Hinv1.
      match goal with |- context [receive_while _ _ _ _ _ ?f _ _ ?w1] =>
        destruct (receive_while_spec jobs sched (S i) Hjobs Hlt f w1 Hinv1 ltac:(lia))
          as (w2 & r2 & Hwhile & Hout2 & Hok2 & Hprog2)
      end.
      rewrite Hwhile. destruct r2 as [[] | e | e].
      * apply IH; [exact (Hok2 eq_refl) | exact Hlt | exact Hnext].
      * exists w2, (Err e). split; [reflexivity |]. split; [exact Hout2 |].
        split; [discriminate |]. intros _ Hall. specialize (Hprog2 Hall). discriminate.
      * exists w2, (Panic e). split; [reflexivity |]. split; [exact Hout2 |].
        split; [discriminate |]. intros _ Hall. specialize (Hprog2 Hall). discriminate.
    + exists w, (Err e). split; [reflexivity |]. split; [apply Hinv |].
      split; [discriminate |]. intros _ Hall. exfalso.
      assert (Hs : is_Some (transformed i))
        by (apply written_S; eapply written_prefix; [| exact Hall]; lia).
      unfold transformed, row_result in Hs. rewrite Hrow, Hbuild in Hs.
      destruct Hs; discriminate.
    + exists w, (Panic e). split; [reflexivity |]. split; [apply Hinv |].
      split; [discriminate |]. intros _ Hall. exfalso.
      assert (Hs : is_Some (transformed i))
        by (apply written_S; eapply written_prefix; [| exact Hall]; lia).
      unfold transformed, row_result in Hs. rewrite Hrow, Hbuild in Hs.
      destruct Hs; discriminate.
Qed.

(** The parallel path as a whole. *)
Lemma parallel_written (jobs : Z) (sched : nat -> nat) :
  0 <= jobs ->
  exists n,
    written n = Some (fst (processRowsParallel Out exec order colIndex pkCols useRowID
                             opts tbl jobs sched rows out0)) /\
    (snd (processRowsParallel Out exec order colIndex pkCols useRowID opts tbl jobs sched
            rows out0) = Ok tt -> n = length rows) /\
    (1 <= jobs -> is_Some (written (length rows)) ->
     snd (processRowsParallel Out exec order colIndex pkCols useRowID opts tbl jobs sched
            rows out0) = Ok tt).
Proof.
  intros Hjobs. unfold processRowsParallel.
  destruct (Z.ltb_spec jobs 0) as [Hneg | _]; [lia |].
  destruct (feed_spec jobs sched Hjobs rows 0 _ Inv_start ltac:(lia) eq_refl)
    as (w1 & r1 & Hfeed & Hout1 & Hok1 & Hprog1).
  rewrite Hfeed. destruct r1 as [[] | e | e].
  2,3: (exists (w_next Out w1); cbn [fst snd]; split; [exact Hout1 |];
        split; [discriminate |]; intros Hpos Hall; specialize (Hprog1 Hpos Hall);
        discriminate).
  pose proof (Hok1 eq_refl) as Hinv1.
  destruct (receive_all_spec sched (length rows) ltac:(lia)
              (length (w_inflight Out w1)) w1 Hinv1 ltac:(lia))
    as (w2 & r2 & Hall & Hout2 & Hok2 & Hprog2).
  rewrite Hall. exists (w_next Out w2). cbn [fst snd].
  split; [exact Hout2 |]. split; [| intros _; exact Hprog2].
  intros Hr. destruct (Hok2 Hr) as [[Hjobs2 Hnd2 Hcover2 Hpend2 _ Hnext2] Hlen2].
  assert (Hnil : w_inflight Out w2 = []).
  { destruct (w_inflight Out w2); [reflexivity | simpl in Hlen2; lia]. }
  destruct (Nat.eq_dec (w_next Out w2) (length rows)) as [Heq | Hne]; [exact Heq |].
  exfalso. destruct (Hcover2 (w_next Out w2) ltac:(lia)) as [Hw | [[v Hp] | Hf]].
  - lia.
  - destruct (Hpend2 _ _ Hp) as (Hlt & _). lia.
  - rewrite Hnil in Hf. inversion Hf.
Qed.

End Rows.

(** With one worker or more, and whatever the order in which the
    workers answer, the parallel path succeeds exactly when the
    sequential path does, and then both leave the same output: the
    transformed rows, inserted in the order of the query. *)
Theorem parallel_equals_sequential `{GoEnv} (Out : Type)
    (exec : Out -> string -> list Value -> option Out)
    (order : nat -> list (string * transform.Transformer))
    (colIndex : gmap string nat) (pkCols : list string) (useRowID : bool)
    (opts : Options) (tbl : schema.Table)
    (jobs : Z) (sched : nat -> nat) (rows : list (list Value)) (out out' : Out) :
  1 <= jobs ->
  processRowsSequential Out exec order colIndex pkCols useRowID opts tbl rows 0 out
  = (out', Ok tt)
  <-> processRowsParallel Out exec order colIndex pkCols useRowID opts tbl jobs sched rows out
      = (out', Ok tt).
Proof.
  intros Hjobs.
  destruct (sequential_written Out exec order colIndex pkCols useRowID opts tbl rows out
              rows 0 out eq_refl eq_refl) as (m & Hm & Hmok & Hmfail).
  destruct (parallel_written Out exec order colIndex pkCols useRowID opts tbl rows out
              jobs sched ltac:(lia)) as (n & Hn & Hnok & Hnprog).
  specialize (Hnprog Hjobs).
  destruct (processRowsSequential Out exec order colIndex pkCols useRowID opts tbl rows 0 out)
    as [outs rs].
  destruct (processRowsParallel Out exec order colIndex pkCols useRowID opts tbl jobs sched
              rows out) as [outp rp].
  cbn [fst snd] in *. split; intros Heq; injection Heq as -> ->.
  - rewrite (Hmok eq_refl) in Hm.
    assert (Hr : rp = Ok tt) by (apply Hnprog; eauto). subst rp.
    rewrite (Hnok eq_refl) in Hn.
    assert (Hsame : outp = out') by congruence. subst outp. reflexivity.
  - rewrite (Hnok eq_refl) in Hn.
    assert (Hrs : rs = Ok tt).
    { destruct rs as [[] | e | e]; [reflexivity | exfalso ..].
      - destruct (Hmfail ltac:(discriminate)) as [Hnone Hlt].
        assert (Hs : is_Some (written Out exec order colIndex pkCols useRowID opts tbl rows
                                out (S m)))
          by (eapply written_prefix; [| rewrite Hn; eauto]; lia).
        rewrite Hnone in Hs. destruct Hs; discriminate.
      - destruct (Hmfail ltac:(discriminate)) as [Hnone Hlt].
        assert (Hs : is_Some (written Out exec order colIndex pkCols useRowID opts tbl rows
                                out (S m)))
          by (eapply written_prefix; [| rewrite Hn; eauto]; lia).
        rewrite Hnone in Hs. destruct Hs; discriminate. }
    subst rs. rewrite (Hmok eq_refl) in Hm.
    assert (Hsame : outs = out') by congruence. subst outs. reflexivity.
Qed.

(** Also when it fails, the parallel path has inserted transformed rows
    in the order of the query and none out of turn: its output is the
    output of the sequential path, or a state the sequential path went
    through on its way. *)
Theorem parallel_writes_a_prefix `{GoEnv} (Out : Type)
    (exec : Out -> string -> list Value -> option Out)
    (order : nat -> list (string * transform.Transformer))
    (colIndex : gmap string nat) (pkCols : list string) (useRowID : bool)
    (opts : Options) (tbl : schema.Table)
    (jobs : Z) (sched : nat -> nat) (rows : list (list Value)) (out : Out) :
  0 <= jobs ->
  exists n m,
    (n <= m <= length rows)%nat /\
    written Out exec order colIndex pkCols useRowID opts tbl rows out n
    = Some (fst (processRowsParallel Out exec order colIndex pkCols useRowID opts tbl
                   jobs sched rows out)) /\
    written Out exec order colIndex pkCols useRowID opts tbl rows out m
    = Some (fst (processRowsSequential Out exec order colIndex pkCols useRowID opts tbl
                   rows 0 out)).
Proof.
  intros Hjobs.
  destruct (sequential_written Out exec order colIndex pkCols useRowID opts tbl rows out
              rows 0 out eq_refl eq_refl) as (m & Hm & Hmok & Hmfail).
  destruct (parallel_written Out exec order colIndex pkCols useRowID opts tbl rows out
              jobs sched Hjobs) as (n & Hn & _ & _).
  exists n, m. split; [| split; [exact Hn | exact Hm]].
  assert (Hnle : (n <= length rows)%nat) by (eapply written_le; rewrite Hn; eauto).
  assert (Hmle : (m <= length rows)%nat) by (eapply written_le; rewrite Hm; eauto).
  split; [| exact Hmle].
  destruct (Nat.le_gt_cases n m) as [Hle | Hgt]; [exact Hle |]. exfalso.
  destruct (snd (processRowsSequential Out exec order colIndex pkCols useRowID opts tbl
                   rows 0 out)) as [[] | e | e] eqn:Hr.
  - specialize (Hmok eq_refl). lia.
  - destruct (Hmfail ltac:(discriminate)) as [Hnone _].
    assert (Hs : is_Some (written Out exec order colIndex pkCols useRowID opts tbl rows
                            out (S m)))
      by (eapply written_prefix; [| rewrite Hn; eauto]; lia).
    rewrite Hnone in Hs. destruct Hs; discriminate.
  - destruct (Hmfail ltac:(discriminate)) as [Hnone _].
    assert (Hs : is_Some (written Out exec order colIndex pkCols useRowID opts tbl rows
                            out (S m)))
      by (eapply written_prefix; [| rewrite Hn; eauto]; lia).
    rewrite Hnone in Hs. destruct Hs; discriminate.
Qed.

(** *** Tables that are not copied *)

Section Tables.
Context `{GoEnv} `{!SqlEngine}.
Variable Out : Type.
Variable exec : Out -> string -> list Value -> option Out.
Variable ddl : Out -> string -> option Out.
Variable registry : gmap string transform.Factory.
Variable cols_it : string -> list string.
Variable order : string -> nat -> nat -> list (string * transform.Transformer).
Variable sched : string -> nat -> nat -> nat.
Variable db : Database.
Variable s : schema.Schema.

Lemma copyData_empty_selection (names : list string) (opts : Options) (out : Out) :
  copyData Out exec registry cols_it order sched db s names opts (Some ∅) out = (out, Ok tt).
Proof.
  induction names as [| name names IH]; [reflexivity |]. cbn [copyData].
  destruct (negb (tableIncluded (Config opts) name)); [exact IH |].
  destruct (schema.Tables s !! name); [| exact IH].
  rewrite lookup_empty. exact IH.
Qed.

Lemma BuildSelection_blank_roots (cfg : config.Config) :
  (forall sub root, config.Subset cfg = Some sub -> root ∈ config.Roots sub ->
                    config.Table root = EmptyString) ->
  subset.BuildSelection db s (Some cfg) = Ok ∅.
Proof.
  intros Hblank. unfold subset.BuildSelection.
  destruct (config.Subset cfg) as [sub |]; [| reflexivity].
  destruct (bool_decide (config.Roots sub = [])); [reflexivity |].
  rewrite subset_props.rfold_fix.
  - cbn [rbind]. apply subset_props.expandSelection_empty.
  - intros root Hroot. unfold subset.add_root.
    rewrite (Hblank sub root eq_refl Hroot). reflexivity.
Qed.

(** [copyData] leaves alone every table that the configuration excludes,
    that the schema does not have, or that a (non-nil) selection has no
    set for: when that is so for all tables, nothing is read, nothing is
    inserted and the call succeeds. In particular the empty selection
    copies no table. *)
Theorem copyData_skips (names : list string) (opts : Options)
    (selection : option (gmap string subset.PKSet)) (out : Out) :
  (forall name, name ∈ names ->
     tableIncluded (Config opts) name = false \/
     schema.Tables s !! name = None \/
     exists sel, selection = Some sel /\ sel !! name = None) ->
  copyData Out exec registry cols_it order sched db s names opts selection out = (out, Ok tt).
Proof.
  induction names as [| name names IH]; intros Hskip; [reflexivity |].
  assert (Hrest : copyData Out exec registry cols_it order sched db s names opts selection out
                  = (out, Ok tt)).
  { apply IH. intros n Hn. apply Hskip. apply elem_of_cons. right. exact Hn. }
  cbn [copyData].
  destruct (Hskip name ltac:(constructor)) as [Hexcl | [Hnone | (sel & -> & Hsel)]].
  - rewrite Hexcl. exact Hrest.
  - destruct (tableIncluded (Config opts) name); [| exact Hrest].
    cbn [negb]. rewrite Hnone. exact Hrest.
  - destruct (tableIncluded (Config opts) name); [| exact Hrest].
    cbn [negb]. destruct (schema.Tables s !! name); [| exact Hrest].
    rewrite Hsel. exact Hrest.
Qed.

End Tables.

(** With [--subset], or with a [subset] section in the configuration,
    and no root that names a table, [Run] copies no row: whatever the
    insert statement would do, the run is the same, as no insert is
    executed; the output gets the schema only. *)
Theorem Run_without_roots `{GoEnv} `{!SqlEngine} (Out : Type)
    (exec : Out -> string -> list Value -> option Out) (ddl : Out -> string -> option Out)
    (registry : gmap string transform.Factory) (cols_it : string -> list string)
    (order : string -> nat -> nat -> list (string * transform.Transformer))
    (sched : string -> nat -> nat -> nat) (db : Database) (s : schema.Schema)
    (it1 it2 it3 it4 : list string) (opts : Options) (out : Out) :
  (Subset opts = true \/ exists c sub, Config opts = Some c /\ config.Subset c = Some sub) ->
  (forall c sub root,
      Config opts = Some c -> config.Subset c = Some sub -> root ∈ config.Roots sub ->
      config.Table root = EmptyString) ->
  Run Out exec ddl registry cols_it order sched db s it1 it2 it3 it4 opts out
  = Run Out (fun _ _ _ => None) ddl registry cols_it order sched db s it1 it2 it3 it4 opts out.
Proof.
  intros Hsubset Hblank. unfold Run.
  destruct (String.eqb (InPath opts) "" || String.eqb (OutPath opts) ""); [reflexivity |].
  cbv zeta.
  destruct (setFKMode Out ddl _ out) as [out1 [[] | e | e]]; [| reflexivity ..].
  destruct (schema.TableOrder_in it1 it2 it3 it4 s) as [names |]; [| reflexivity].
  set (cfg := default copy.empty_config (Config opts)).
  assert (Hflag : Subset (with_config opts cfg) || bool_decide (is_Some (config.Subset cfg))
                  = true).
  { destruct Hsubset as [Hs | (c & sub & Hc & Hsub)].
    - cbn [with_config Subset]. rewrite Hs. reflexivity.
    - apply orb_true_iff. right. apply bool_decide_eq_true. subst cfg. rewrite Hc.
      change (default copy.empty_config (Some c)) with c. rewrite Hsub. eauto. }
  rewrite Hflag.
  assert (Hsel : subset.BuildSelection db s (Some cfg) = Ok ∅).
  { apply BuildSelection_blank_roots. intros sub root Hsub Hroot.
    subst cfg. destruct (Config opts) as [c0 |] eqn:Hcfg.
    - change (default copy.empty_config (Some c0)) with c0 in Hsub.
      exact (Hblank c0 sub root eq_refl Hsub Hroot).
    - change (default copy.empty_config None) with copy.empty_config in Hsub.
      discriminate. }
  rewrite Hsel. cbn [rbind].
  destruct (createSchema Out ddl s names (with_config opts cfg) out1) as [out2 [[] | e | e]];
    [| reflexivity ..].
  rewrite !copyData_empty_selection. reflexivity.
Qed.


(** *** The row context and the transformers of a row *)

Section RowContext.
Context `{GoEnv}.

Definition colNames (tbl : schema.Table) : list string :=
  map schema.ColName (schema.Columns tbl).

Lemma colIndex_fold_notin (cols : list schema.Column) (c : string) :
  c ∉ map schema.ColName cols ->
  forall k (m : gmap string nat),
    fold_left (fun m '(i, col) => <[schema.ColName col := i]> m)
              (combine (seq k (length cols)) cols) m !! c = m !! c.
Proof.
  induction cols as [| col cols IH]; intros Hc k m; [reflexivity |].
  cbn [length seq combine fold_left]. rewrite IH.
  - apply lookup_insert_ne. intros Heq. apply Hc. cbn [map]. rewrite Heq. constructor.
  - intros Hin. apply Hc. cbn [map]. apply elem_of_cons. right. exact Hin.
Qed.

Lemma colIndex_fold_in (cols : list schema.Column) (c : string) :
  NoDup (map schema.ColName cols) ->
  forall i k (m : gmap string nat),
    map schema.ColName cols !! i = Some c ->
    fold_left (fun m '(i, col) => <[schema.ColName col := i]> m)
              (combine (seq k (length cols)) cols) m !! c = Some (k + i)%nat.
Proof.
  induction cols as [| col cols IH]; intros Hnd i k m Hi; [discriminate |].
  cbn [map] in Hnd. apply NoDup_cons in Hnd as [Hcol Hnd].
  cbn [length seq combine fold_left]. destruct i as [| i].
  - cbn in Hi. injection Hi as <-. rewrite colIndex_fold_notin by exact Hcol.
    rewrite lookup_insert_eq. f_equal. lia.
  - cbn in Hi. rewrite (IH Hnd i (S k) _ Hi). f_equal. lia.
Qed.

Lemma at_col_colIndexOf (tbl : schema.Table) (c : string) (i : nat) :
  NoDup (colNames tbl) -> colNames tbl !! i = Some c -> at_col (colIndexOf tbl) c = i.
Proof.
  intros Hnd Hi. unfold at_col, colIndexOf.
  rewrite (colIndex_fold_in _ c Hnd i 0 ∅ Hi). reflexivity.
Qed.

Lemma rmap_all_Ok {A B} (f : A -> result B) (g : A -> B) (l : list A) :
  (forall a, a ∈ l -> f a = Ok (g a)) -> subset.rmap f l = Ok (map g l).
Proof.
  induction l as [| a l IH]; intros Hf; [reflexivity |].
  cbn [subset.rmap map]. rewrite (Hf a) by constructor. cbn [rbind].
  rewrite IH; [reflexivity |]. intros b Hb. apply Hf. apply elem_of_cons. right. exact Hb.
Qed.

(** The key of a row in its context. *)
Definition context_key (tbl : schema.Table) (r : Row) : list Value :=
  if bool_decide (schema.PrimaryKeys tbl = []) then
    if schema.WithoutRowID tbl then [VText (rowFingerprint (row_tuple (colNames tbl) r))]
    else [cell r "rowid"]
  else row_tuple (schema.PrimaryKeys tbl) r.

(** For a table with pairwise different column names whose key columns
    are columns of the table, [buildRowContext] on a row of the query of
    [copyTable] never fails: it returns the values of the declared
    columns, without the rowid, and a context with the table's name, the
    seed and the salt of the options, and as key the values of the key
    columns as the query read them (before any transformer ran), the
    rowid for a rowid table without a primary key, and the fingerprint of
    the row for a table with neither. *)
Theorem buildRowContext_by_name (tbl : schema.Table) (opts : Options) (r : Row) :
  NoDup (colNames tbl) ->
  (forall pk, pk ∈ schema.PrimaryKeys tbl -> pk ∈ colNames tbl) ->
  buildRowContext (row_tuple (selectCols tbl) r) (colIndexOf tbl) (schema.PrimaryKeys tbl)
                  (useRowIDOf tbl) opts tbl
  = Ok (row_tuple (colNames tbl) r,
        {| transform.Table := schema.Name tbl; transform.PK := context_key tbl r;
           transform.Seed := Seed opts; transform.Salt := Salt opts |}).
Proof.
  intros Hnd Hpk. unfold buildRowContext, selectCols, useRowIDOf, context_key.
  fold (colNames tbl).
  destruct (bool_decide_reflect (schema.PrimaryKeys tbl = [])) as [Hnil | Hne].
  - rewrite Hnil. cbn [andb length Nat.ltb Nat.leb].
    destruct (schema.WithoutRowID tbl); cbn [negb]; reflexivity.
  - cbn [andb app rbind skipn].
    assert (Hlen : (0 <? length (schema.PrimaryKeys tbl))%nat = true).
    { apply Nat.ltb_lt. destruct (schema.PrimaryKeys tbl); [contradiction | simpl; lia]. }
    rewrite Hlen.
    rewrite (rmap_all_Ok _ (cell r)); [reflexivity |].
    intros pk Hin. apply Hpk, list_elem_of_lookup_1 in Hin as [i Hi].
    rewrite (at_col_colIndexOf tbl pk i Hnd Hi). unfold index, row_tuple.
    change (drop 0 (map (cell r) (colNames tbl))) with (cell r <$> colNames tbl).
    rewrite list_lookup_fmap, Hi. reflexivity.
Qed.

Lemma step_swap (wrap : string -> string -> string) (colIndex : gmap string nat)
    (rowCtx : transform.RowContext) (x y : string * transform.Transformer)
    (cur c1 c2 : list Value) :
  at_col colIndex (fst x) <> at_col colIndex (fst y) ->
  transform_step wrap colIndex rowCtx cur y = Ok c1 ->
  transform_step wrap colIndex rowCtx c1 x = Ok c2 ->
  exists c1', transform_step wrap colIndex rowCtx cur x = Ok c1' /\
              transform_step wrap colIndex rowCtx c1' y = Ok c2.
Proof.
  intros Hne. unfold transform_step, index.
  destruct (cur !! at_col colIndex (fst y)) as [oldy |] eqn:Hy; [| discriminate].
  cbn [rbind].
  destruct (transform.Transform (snd y) oldy rowCtx) as [newy | |] eqn:Hty; try discriminate.
  intros Hc1. injection Hc1 as <-.
  rewrite list_lookup_insert_ne by auto.
  destruct (cur !! at_col colIndex (fst x)) as [oldx |] eqn:Hx; [| discriminate].
  cbn [rbind].
  destruct (transform.Transform (snd x) oldx rowCtx) as [newx | |] eqn:Htx; try discriminate.
  intros Hc2. injection Hc2 as <-.
  eexists. split; [reflexivity |].
  rewrite list_lookup_insert_ne by auto. rewrite Hy. cbn [rbind]. rewrite Hty.
  f_equal. apply list_insert_insert_ne. auto.
Qed.

Lemma rfold_perm (wrap : string -> string -> string) (colIndex : gmap string nat)
    (rowCtx : transform.RowContext) (l1 l2 : list (string * transform.Transformer)) :
  l1 ≡ₚ l2 ->
  NoDup (map (fun e => at_col colIndex (fst e)) l1) ->
  forall cur v,
    subset.rfold (transform_step wrap colIndex rowCtx) l1 cur = Ok v ->
    subset.rfold (transform_step wrap colIndex rowCtx) l2 cur = Ok v.
Proof.
  induction 1 as [| x l1 l2 Hperm IH | x y l | l1 l2 l3 H12 IH12 H23 IH23];
    intros Hnd cur v Hfold.
  - exact Hfold.
  - cbn [map] in Hnd. apply NoDup_cons in Hnd as [_ Hnd]. cbn [subset.rfold] in *.
    destruct (transform_step wrap colIndex rowCtx cur x) as [c1 | |]; try discriminate.
    cbn [rbind] in *. apply IH; assumption.
  - cbn [map] in Hnd. apply NoDup_cons in Hnd as [Hy Hnd].
    assert (Hne : at_col colIndex (fst x) <> at_col colIndex (fst y)).
    { intros Heq. apply Hy. rewrite <- Heq. constructor. }
    cbn [subset.rfold] in *.
    destruct (transform_step wrap colIndex rowCtx cur y) as [c1 | |] eqn:H1; try discriminate.
    cbn [rbind] in Hfold.
    destruct (transform_step wrap colIndex rowCtx c1 x) as [c2 | |] eqn:H2; try discriminate.
    cbn [rbind] in Hfold.
    destruct (step_swap wrap colIndex rowCtx x y cur c1 c2 Hne H1 H2) as (c1' & -> & H4).
    cbn [rbind]. rewrite H4. cbn [rbind]. exact Hfold.
  - apply IH23; [| apply IH12; assumption].
    assert (Hp : map (fun e : string * transform.Transformer => at_col colIndex (fst e)) l1
                 ≡ₚ map (fun e => at_col colIndex (fst e)) l2)
      by (apply Permutation_map; exact H12).
    rewrite <- Hp. exact Hnd.
Qed.

(** The loop over the transformer map may meet the columns in any
    order: when the table's column names are pairwise different and every
    column with a transformer is a column of the table, a row that one
    order transforms without error is transformed to the same values by
    every other order. *)
Theorem transform_order_independent (wrap : string -> string -> string)
    (tbl : schema.Table) (transformers : gmap string transform.Transformer)
    (rowCtx : transform.RowContext) (l1 l2 : list (string * transform.Transformer))
    (values v : list Value) :
  NoDup (colNames tbl) ->
  (forall col, is_Some (transformers !! col) -> col ∈ colNames tbl) ->
  l1 ≡ₚ map_to_list transformers ->
  l2 ≡ₚ map_to_list transformers ->
  subset.rfold (transform_step wrap (colIndexOf tbl) rowCtx) l1 values = Ok v ->
  subset.rfold (transform_step wrap (colIndexOf tbl) rowCtx) l2 values = Ok v.
Proof.
  intros Hnd Hcols H1 H2. apply rfold_perm; [rewrite H1, H2; reflexivity |].
  change (map (fun e => at_col (colIndexOf tbl) (fst e)) l1)
    with ((fun e : string * transform.Transformer => at_col (colIndexOf tbl) (fst e)) <$> l1).
  rewrite H1. apply NoDup_fmap_2_strong; [| apply NoDup_map_to_list].
  intros [c1 t1] [c2 t2] Hin1 Hin2 Heq. cbn [fst] in Heq.
  apply elem_of_map_to_list in Hin1, Hin2.
  assert (Hc1 : c1 ∈ colNames tbl) by (apply Hcols; eauto).
  assert (Hc2 : c2 ∈ colNames tbl) by (apply Hcols; eauto).
  apply list_elem_of_lookup_1 in Hc1 as [i1 Hi1]. apply list_elem_of_lookup_1 in Hc2 as [i2 Hi2].
  rewrite (at_col_colIndexOf tbl c1 i1 Hnd Hi1), (at_col_colIndexOf tbl c2 i2 Hnd Hi2) in Heq.
  subst i2. assert (c1 = c2) by congruence. subst c2. congruence.
Qed.

End RowContext.

(** *** Lookup tables *)

Section Lookup.
Context `{GoEnv} `{!SqlEngine}.

Lemma overlay_lookup (key value : Row -> string) (rows : list Row) (m0 : gmap string string)
    (k : string) :
  fold_left (fun result r => <[key r := value r]> result) rows m0 !! k
  = match find (fun r => String.eqb (key r) k) (rev rows) with
    | Some r => Some (value r)
    | None => m0 !! k
    end.
Proof.
  induction rows as [| r rows IH] using rev_ind; [reflexivity |].
  rewrite fold_left_app, rev_app_distr. cbn [fold_left rev app find].
  destruct (String.eqb_spec (key r) k) as [-> | Hne].
  - apply lookup_insert_eq.
  - rewrite lookup_insert_ne by exact Hne. exact IH.
Qed.

(** For a column with a lookup table, a key column and a value column
    set, and a relation of that name in the input database, in the
    loaded schema or not, whose rows have both columns: [loadLookupMap]
    succeeds, and the mapping is the configured map overlaid with the
    rows of the relation: a key that occurs there maps to the value of
    the last row with that key, any other key to what the configured map
    holds for it. When the mapping is not empty the column gets the
    map-replacing transformer of that mapping and the configured type is
    not looked at; when it is empty, [Build] decides. *)
Theorem lookup_overrides_type (registry : gmap string transform.Factory) (db : Database)
    (tc : config.TransformConfig) (salt : string) (rows : list Row) :
  config.LookupTable tc <> EmptyString ->
  config.LookupKey tc <> EmptyString ->
  config.LookupValue tc <> EmptyString ->
  db !! config.LookupTable tc = Some rows ->
  Forall (fun r => is_Some (assoc (config.LookupKey tc) (row_cells r)) /\
                   is_Some (assoc (config.LookupValue tc) (row_cells r))) rows ->
  exists m,
    loadLookupMap db tc = Ok m /\
    (forall k,
        m !! k = match find (fun r => String.eqb (Sprint (cell r (config.LookupKey tc))) k)
                            (rev rows) with
                 | Some r => Some (Sprint (cell r (config.LookupValue tc)))
                 | None => config.Map tc !! k
                 end) /\
    buildTransformerForColumn registry db tc salt
    = if (0 <? size m)%nat then Ok (Some (transform.MapReplace m))
      else transform.Build registry (Some tc) salt.
Proof.
  intros Hname Hkey Hvalue Hdb Hcols.
  assert (Hrows : lookup_rows db (config.LookupTable tc) (config.LookupKey tc)
                    (config.LookupValue tc) = Ok rows).
  { unfold lookup_rows. rewrite Hdb.
    replace (forallb _ rows) with true; [reflexivity |].
    symmetry. apply forallb_forall. intros r Hr.
    rewrite Forall_forall in Hcols. apply list_elem_of_In in Hr.
    destruct (Hcols r Hr) as [[k Hk] [v Hv]]. unfold has_cell. rewrite Hk, Hv. reflexivity. }
  assert (Hload : exists m, loadLookupMap db tc = Ok m /\
                    m = fold_left (fun result r =>
                                     <[Sprint (cell r (config.LookupKey tc))
                                         := Sprint (cell r (config.LookupValue tc))]> result)
                                  rows (config.Map tc)).
  { unfold loadLookupMap.
    destruct (String.eqb_spec (config.LookupTable tc) "") as [Heq | _]; [contradiction |].
    destruct (String.eqb_spec (config.LookupKey tc) "") as [Heq | _]; [contradiction |].
    destruct (String.eqb_spec (config.LookupValue tc) "") as [Heq | _]; [contradiction |].
    cbn [orb]. rewrite Hrows. cbn [rbind]. eauto. }
  destruct Hload as (m & Hload & Hm). exists m. split; [exact Hload |]. split.
  - intros k. rewrite Hm.
    apply (overlay_lookup (fun r => Sprint (cell r (config.LookupKey tc)))
             (fun r => Sprint (cell r (config.LookupValue tc)))).
  - unfold buildTransformerForColumn.
    destruct (String.eqb_spec (config.LookupTable tc) "") as [Heq | _]; [contradiction |].
    rewrite Hload. reflexivity.
Qed.

End Lookup.

End copy_props.

(** ** The copy pipeline at concrete inputs *)

Module copy_tests.
#[local] Existing Instance testEnv.
#[local] Existing Instance testSql.

(** The output database as the list of the rows inserted so far. *)
Definition Log : Type := list (string * list Value).

Definition log_insert (out : Log) (table : string) (values : list Value) : option Log :=
  Some (out ++ [(table, values)]).

Definition log_ddl (out : Log) (sql : string) : option Log := Some out.

Definition users : schema.Table :=
  subset_tests.table "users" ["id"; "email"; "full_name"; "country"] ["id"] [].

Definition options (cfg : option config.Config) (jobs : Z) (sub : bool) : copy.Options :=
  {| copy.InPath := "in.sqlite"; copy.OutPath := "out.sqlite"; copy.Config := cfg;
     copy.Salt := "salt"; copy.Seed := 7; copy.FKMode := "on"; copy.Triggers := "off";
     copy.Jobs := jobs; copy.Subset := sub |}.

Definition mask : list (string * transform.Transformer) :=
  [("email", transform.SetNull); ("full_name", transform.SetValue (VText "redacted"))].

Definition user_rows : list (list Value) :=
  [[VInt 1; VText "user1@example.com"; VText "User One"; VText "US"];
   [VInt 2; VText "user2@example.com"; VText "User Two"; VText "CA"]].

Example processRowsSequential_users :
  copy.processRowsSequential Log log_insert (fun _ => mask) (copy.colIndexOf users) ["id"] false
    (options None 1 false) users user_rows 0 []
  = ([("users", [VInt 1; VNull; VText "redacted"; VText "US"]);
      ("users", [VInt 2; VNull; VText "redacted"; VText "CA"])], Ok tt).
Proof. vm_compute. reflexivity. Qed.

(** The second row answers first. *)
Example processRowsParallel_users :
  copy.processRowsParallel Log log_insert (fun _ => mask) (copy.colIndexOf users) ["id"] false
    (options None 2 false) users 2 (fun _ => 1%nat) user_rows []
  = ([("users", [VInt 1; VNull; VText "redacted"; VText "US"]);
      ("users", [VInt 2; VNull; VText "redacted"; VText "CA"])], Ok tt).
Proof. vm_compute. reflexivity. Qed.

(** Without a worker nothing is written and the call does not return. *)
Example processRowsParallel_no_worker :
  copy.processRowsParallel Log log_insert (fun _ => mask) (copy.colIndexOf users) ["id"] false
    (options None 0 false) users 0 (fun _ => 0%nat) user_rows []
  = ([], Panic "all goroutines are asleep").
Proof. vm_compute. reflexivity. Qed.

Lemma parallel_equals_sequential_witness :
  1 <= 2 /\
  (copy.processRowsSequential Log log_insert (fun _ => mask) (copy.colIndexOf users) ["id"]
     false (options None 2 false) users user_rows 0 []
   = ([("users", [VInt 1; VNull; VText "redacted"; VText "US"]);
       ("users", [VInt 2; VNull; VText "redacted"; VText "CA"])], Ok tt)
   <-> copy.processRowsParallel Log log_insert (fun _ => mask) (copy.colIndexOf users) ["id"]
         false (options None 2 false) users 2 (fun _ => 1%nat) user_rows []
       = ([("users", [VInt 1; VNull; VText "redacted"; VText "US"]);
           ("users", [VInt 2; VNull; VText "redacted"; VText "CA"])], Ok tt)).
Proof.
  assert (Hjobs : 1 <= 2) by lia.
  split; [exact Hjobs |].
  exact (copy_props.parallel_equals_sequential Log log_insert (fun _ => mask)
           (copy.colIndexOf users) ["id"] false (options None 2 false) users 2
           (fun _ => 1%nat) user_rows [] _ Hjobs).
Defined.

(** An insert statement that refuses the second row. *)
Definition log_insert_one (out : Log) (table : string) (values : list Value) : option Log :=
  match out with
  | [] => Some [(table, values)]
  | _ => None
  end.

Lemma parallel_writes_a_prefix_witness :
  0 <= 2 /\
  exists n m,
    (n <= m <= length user_rows)%nat /\
    copy_props.written Log log_insert_one (fun _ => mask) (copy.colIndexOf users) ["id"]
      false (options None 2 false) users user_rows [] n
    = Some (fst (copy.processRowsParallel Log log_insert_one (fun _ => mask)
                   (copy.colIndexOf users) ["id"] false (options None 2 false) users 2
                   (fun _ => 1%nat) user_rows [])) /\
    copy_props.written Log log_insert_one (fun _ => mask) (copy.colIndexOf users) ["id"]
      false (options None 2 false) users user_rows [] m
    = Some (fst (copy.processRowsSequential Log log_insert_one (fun _ => mask)
                   (copy.colIndexOf users) ["id"] false (options None 2 false) users
                   user_rows 0 [])).
Proof.
  assert (Hjobs : 0 <= 2) by lia.
  split; [exact Hjobs |].
  exact (copy_props.parallel_writes_a_prefix Log log_insert_one (fun _ => mask)
           (copy.colIndexOf users) ["id"] false (options None 2 false) users 2
           (fun _ => 1%nat) user_rows [] Hjobs).
Defined.

Definition no_order (table : string) (c i : nat) : list (string * transform.Transformer) := [].
Definition first_come (table : string) (c n : nat) : nat := 0%nat.

Lemma copyData_skips_witness :
  (forall name, name ∈ ["users"; "orders"] ->
     copy.tableIncluded (copy.Config (options None 1 true)) name = false \/
     schema.Tables subset_tests.shop !! name = None \/
     exists sel, Some (∅ : gmap string subset.PKSet) = Some sel /\ sel !! name = None) /\
  copy.copyData Log log_insert ∅ (fun _ => []) no_order first_come subset_tests.shop_db
    subset_tests.shop ["users"; "orders"] (options None 1 true) (Some ∅) []
  = ([], Ok tt).
Proof.
  assert (Hskip : forall name, name ∈ ["users"; "orders"] ->
            copy.tableIncluded (copy.Config (options None 1 true)) name = false \/
            schema.Tables subset_tests.shop !! name = None \/
            exists sel, Some (∅ : gmap string subset.PKSet) = Some sel /\ sel !! name = None).
  { intros name _. right. right. exists ∅. split; [reflexivity | apply lookup_empty]. }
  split; [exact Hskip |].
  exact (copy_props.copyData_skips Log log_insert ∅ (fun _ => []) no_order first_come
           subset_tests.shop_db subset_tests.shop ["users"; "orders"] (options None 1 true)
           (Some ∅) [] Hskip).
Defined.

Lemma Run_without_roots_witness :
  ((copy.Subset (options None 1 true) = true \/
    exists c sub, copy.Config (options None 1 true) = Some c /\ config.Subset c = Some sub) /\
   (forall c sub root,
       copy.Config (options None 1 true) = Some c -> config.Subset c = Some sub ->
       root ∈ config.Roots sub -> config.Table root = EmptyString)) /\
  copy.Run Log log_insert log_ddl ∅ (fun _ => []) no_order first_come subset_tests.shop_db
    subset_tests.shop ["users"; "orders"] ["orders"; "users"] ["users"; "orders"]
    ["orders"; "users"] (options None 1 true) []
  = copy.Run Log (fun _ _ _ => None) log_ddl ∅ (fun _ => []) no_order first_come
      subset_tests.shop_db subset_tests.shop ["users"; "orders"] ["orders"; "users"]
      ["users"; "orders"] ["orders"; "users"] (options None 1 true) [].
Proof.
  assert (Hsub : copy.Subset (options None 1 true) = true \/
                 exists c sub, copy.Config (options None 1 true) = Some c
                               /\ config.Subset c = Some sub)
    by (left; reflexivity).
  assert (Hblank : forall c sub root,
            copy.Config (options None 1 true) = Some c -> config.Subset c = Some sub ->
            root ∈ config.Roots sub -> config.Table root = EmptyString)
    by (intros c sub root Hc; discriminate Hc).
  split; [exact (conj Hsub Hblank) |].
  exact (copy_props.Run_without_roots Log log_insert log_ddl ∅ (fun _ => []) no_order
           first_come subset_tests.shop_db subset_tests.shop _ _ _ _ (options None 1 true) []
           Hsub Hblank).
Defined.

Definition user1 : Row :=
  subset_tests.row 1 [("id", VInt 1); ("email", VText "user1@example.com");
                      ("full_name", VText "User One"); ("country", VText "US")].

Lemma users_columns : NoDup (copy_props.colNames users).
Proof. apply props_tests.NoDup_strings. vm_compute. reflexivity. Qed.

Lemma buildRowContext_by_name_witness :
  (NoDup (copy_props.colNames users) /\
   forall pk, pk ∈ schema.PrimaryKeys users -> pk ∈ copy_props.colNames users) /\
  copy.buildRowContext (row_tuple (copy.selectCols users) user1) (copy.colIndexOf users)
    (schema.PrimaryKeys users) (copy.useRowIDOf users) (options None 1 false) users
  = Ok ([VInt 1; VText "user1@example.com"; VText "User One"; VText "US"],
        {| transform.Table := "users"; transform.PK := [VInt 1];
           transform.Seed := 7; transform.Salt := "salt" |}).
Proof.
  assert (Hpk : forall pk, pk ∈ schema.PrimaryKeys users -> pk ∈ copy_props.colNames users).
  { intros pk Hin. apply list_elem_of_singleton in Hin. subst pk. constructor. }
  split; [exact (conj users_columns Hpk) |].
  exact (copy_props.buildRowContext_by_name users (options None 1 false) user1
           users_columns Hpk).
Defined.

Definition mask_map : gmap string transform.Transformer := list_to_map mask.

Definition user1_ctx : transform.RowContext :=
  {| transform.Table := "users"; transform.PK := [VInt 1];
     transform.Seed := 7; transform.Salt := "salt" |}.

Lemma transform_order_independent_witness :
  (NoDup (copy_props.colNames users) /\
   (forall col, is_Some (mask_map !! col) -> col ∈ copy_props.colNames users) /\
   mask ≡ₚ map_to_list mask_map /\
   rev mask ≡ₚ map_to_list mask_map /\
   subset.rfold (copy.transform_step (fun _ e => e) (copy.colIndexOf users) user1_ctx) mask
     [VInt 1; VText "user1@example.com"; VText "User One"; VText "US"]
   = Ok [VInt 1; VNull; VText "redacted"; VText "US"]) /\
  subset.rfold (copy.transform_step (fun _ e => e) (copy.colIndexOf users) user1_ctx)
    (rev mask) [VInt 1; VText "user1@example.com"; VText "User One"; VText "US"]
  = Ok [VInt 1; VNull; VText "redacted"; VText "US"].
Proof.
  assert (Hcols : forall col, is_Some (mask_map !! col) -> col ∈ copy_props.colNames users).
  { intros col [t Ht]. apply elem_of_list_to_map_2, list_elem_of_In in Ht.
    apply list_elem_of_In. simpl in Ht. destruct Ht as [Ht | [Ht | []]];
      injection Ht as <- _; simpl; tauto. }
  assert (H1 : mask ≡ₚ map_to_list mask_map).
  { symmetry. apply map_to_list_to_map. apply props_tests.NoDup_strings.
    vm_compute. reflexivity. }
  assert (H2 : rev mask ≡ₚ map_to_list mask_map).
  { rewrite <- H1. symmetry. apply Permutation_rev. }
  assert (Hrun : subset.rfold (copy.transform_step (fun _ e => e) (copy.colIndexOf users)
                                 user1_ctx) mask
                   [VInt 1; VText "user1@example.com"; VText "User One"; VText "US"]
                 = Ok [VInt 1; VNull; VText "redacted"; VText "US"])
    by (vm_compute; reflexivity).
  split; [exact (conj users_columns (conj Hcols (conj H1 (conj H2 Hrun)))) |].
  exact (copy_props.transform_order_independent (fun _ e => e) users mask_map user1_ctx
           mask (rev mask) _ _ users_columns Hcols H1 H2 Hrun).
Defined.

(** A lookup relation for country names. *)
Definition countries : list Row :=
  [ subset_tests.row 1 [("code", VText "US"); ("name", VText "USA")];
    subset_tests.row 2 [("code", VText "CA"); ("name", VText "Canada")];
    subset_tests.row 3 [("code", VText "US"); ("name", VText "United States")] ].

Definition atlas_db : Database := {[ "countries" := countries ]}.

Definition country_cfg : config.TransformConfig :=
  {| config.Type_ := "NoSuchType"; config.Params := None; config.Value_ := VNull;
     config.Pattern := ""; config.Replace := ""; config.Locale := ""; config.MaxLen := 0;
     config.Map := {[ "US" := "America"; "MX" := "Mexico" ]};
     config.LookupTable := "countries"; config.LookupKey := "code";
     config.LookupValue := "name" |}.

Definition country_map : gmap string string :=
  {[ "US" := "United States"; "CA" := "Canada"; "MX" := "Mexico" ]}.

Lemma loadLookupMap_countries : copy.loadLookupMap atlas_db country_cfg = Ok country_map.
Proof. vm_compute. reflexivity. Qed.

Lemma lookup_overrides_type_witness :
  (config.LookupTable country_cfg <> EmptyString /\
   config.LookupKey country_cfg <> EmptyString /\
   config.LookupValue country_cfg <> EmptyString /\
   atlas_db !! config.LookupTable country_cfg = Some countries /\
   Forall (fun r => is_Some (assoc (config.LookupKey country_cfg) (row_cells r)) /\
                    is_Some (assoc (config.LookupValue country_cfg) (row_cells r)))
          countries) /\
  exists m,
    copy.loadLookupMap atlas_db country_cfg = Ok m /\
    (forall k,
        m !! k
        = match find (fun r => String.eqb (Sprint (cell r (config.LookupKey country_cfg))) k)
                     (rev countries) with
          | Some r => Some (Sprint (cell r (config.LookupValue country_cfg)))
          | None => config.Map country_cfg !! k
          end) /\
    copy.buildTransformerForColumn ∅ atlas_db country_cfg "salt"
    = if (0 <? size m)%nat then Ok (Some (transform.MapReplace m))
      else transform.Build ∅ (Some country_cfg) "salt".
Proof.
  assert (Hname : config.LookupTable country_cfg <> EmptyString) by discriminate.
  assert (Hkey : config.LookupKey country_cfg <> EmptyString) by discriminate.
  assert (Hvalue : config.LookupValue country_cfg <> EmptyString) by discriminate.
  assert (Hdb : atlas_db !! config.LookupTable country_cfg = Some countries)
    by (vm_compute; reflexivity).
  assert (Hcols : Forall (fun r =>
                            is_Some (assoc (config.LookupKey country_cfg) (row_cells r)) /\
                            is_Some (assoc (config.LookupValue country_cfg) (row_cells r)))
                         countries).
  { repeat constructor; eexists; reflexivity. }
  split; [exact (conj Hname (conj Hkey (conj Hvalue (conj Hdb Hcols)))) |].
  exact (copy_props.lookup_overrides_type ∅ atlas_db country_cfg "salt" countries
           Hname Hkey Hvalue Hdb Hcols).
Defined.

End copy_tests.

(** ** The textual key on integer tuples *)

Module key_props.
Section Keys.
Context `{GoEnv}.

(** No byte of the string is the separator of [keyFor]. *)
Fixpoint no_bar (s : string) : bool :=
  match s with
  | EmptyString => true
  | String c s' => negb (Ascii.eqb c "|") && no_bar s'
  end.

Lemma no_bar_digits (d : Decimal.uint) : no_bar (NilEmpty.string_of_uint d) = true.
Proof.
  induction d;
    [reflexivity
    | (cbn [NilEmpty.string_of_uint no_bar]; apply andb_true_iff; split;
       [reflexivity | assumption]) ..].
Qed.

Lemma no_bar_uint (d : Decimal.uint) : no_bar (NilZero.string_of_uint d) = true.
Proof. destruct d; [reflexivity | apply (no_bar_digits (_ d)) ..]. Qed.

Lemma string_of_uint_nonempty (d : Decimal.uint) : NilZero.string_of_uint d <> EmptyString.
Proof. destruct d; discriminate. Qed.

Lemma FormatInt_no_bar (x : Z) : no_bar (FormatInt x) = true.
Proof.
  unfold FormatInt. destruct (Z.to_int x) as [d | d]; cbn [NilZero.string_of_int no_bar];
    [apply no_bar_uint | apply andb_true_iff; split; [reflexivity | apply no_bar_uint]].
Qed.

Lemma FormatInt_inj (x y : Z) : FormatInt x = FormatInt y -> x = y.
Proof.
  unfold FormatInt. intros Heq. apply DecimalZ.to_int_inj.
  assert (Hnn : forall z, Z.to_int z <> Decimal.Pos Decimal.Nil
                          /\ Z.to_int z <> Decimal.Neg Decimal.Nil).
  { intros [| p | p]; simpl; split; try discriminate; intros Hp; injection Hp as Hp;
      exact (DecimalPos.Unsigned.to_uint_nonnil p Hp). }
  destruct (Hnn x) as [Hx1 Hx2]. destruct (Hnn y) as [Hy1 Hy2].
  pose proof (NilZero.isi _ Hx1 Hx2) as Hx. pose proof (NilZero.isi _ Hy1 Hy2) as Hy.
  rewrite Heq in Hx. congruence.
Qed.

Lemma FormatInt_nonempty (x : Z) : FormatInt x <> EmptyString.
Proof.
  unfold FormatInt. destruct (Z.to_int x) as [d | d]; cbn [NilZero.string_of_int];
    [apply string_of_uint_nonempty | discriminate].
Qed.

Lemma string_app_nil (s : string) : (s ++ EmptyString)%string = s.
Proof.
  induction s as [| c s IH]; [reflexivity |].
  change (String c (s ++ EmptyString)%string = String c s). f_equal. exact IH.
Qed.

(** A tail of a key: empty, or a separator and what follows. *)
Definition key_tail (t : string) : Prop :=
  t = EmptyString \/ exists t', t = String "|" t'.

Lemma split_at_bar (p q t u : string) :
  no_bar p = true -> no_bar q = true -> key_tail t -> key_tail u ->
  (p ++ t = q ++ u)%string -> p = q /\ t = u.
Proof.
  revert q. induction p as [| c p IH]; intros [| d q] Hp Hq Ht Hu Heq; simpl in *.
  - auto.
  - apply andb_true_iff in Hq as [Hd _]. destruct Ht as [-> | [t' ->]]; [discriminate |].
    injection Heq as <- _. discriminate.
  - apply andb_true_iff in Hp as [Hc _]. destruct Hu as [-> | [u' ->]]; [discriminate |].
    injection Heq as -> _. discriminate.
  - apply andb_true_iff in Hp as [_ Hp]. apply andb_true_iff in Hq as [_ Hq].
    injection Heq as -> Heq. destruct (IH q Hp Hq Ht Hu Heq) as [-> ->]. auto.
Qed.

Lemma keyFor_ints_cons (x : Z) (l : list Z) :
  exists t, keyFor (map VInt (x :: l)) = (FormatInt x ++ t)%string /\ key_tail t /\
            (l = [] -> t = EmptyString) /\
            (l <> [] -> t = String "|" (keyFor (map VInt l))).
Proof.
  unfold keyFor. destruct l as [| y l].
  - exists EmptyString. split; [| split; [left; reflexivity | split; [auto | congruence]]].
    cbn [map Join Sprint]. symmetry. apply string_app_nil.
  - exists (String "|" (Join (map Sprint (map VInt (y :: l))) "|")).
    split; [reflexivity |]. split; [right; eauto |]. split; [discriminate | auto].
Qed.

(** On tuples of integers, of any length, [keyFor] is injective: two
    such tuples have the same textual key only when they are equal. So
    for tables with integer keys the sets of a selection hold each key
    once, and "the same textual key" means the same key. An integer and
    the text of its decimal digits, however, have one key. *)
Theorem keyFor_ints_injective (a b : list Z) :
  (keyFor (map VInt a) = keyFor (map VInt b) <-> a = b) /\
  forall n, keyFor [VInt n] = keyFor [VText (FormatInt n)].
Proof.
  split; [| reflexivity].
  split; [| intros ->; reflexivity].
  revert b. induction a as [| x a IH]; intros [| y b] Heq.
  - reflexivity.
  - exfalso. destruct (keyFor_ints_cons y b) as (t & Hk & _). rewrite Hk in Heq.
    cbn in Heq. destruct (FormatInt y) eqn:Hy; [exact (FormatInt_nonempty y Hy) | discriminate].
  - exfalso. destruct (keyFor_ints_cons x a) as (t & Hk & _). rewrite Hk in Heq.
    cbn in Heq. destruct (FormatInt x) eqn:Hx; [exact (FormatInt_nonempty x Hx) | discriminate].
  - destruct (keyFor_ints_cons x a) as (t & Hk & Ht & Hnil & Hcons).
    destruct (keyFor_ints_cons y b) as (u & Hk' & Hu & Hnil' & Hcons').
    rewrite Hk, Hk' in Heq.
    destruct (split_at_bar _ _ t u (FormatInt_no_bar x) (FormatInt_no_bar y) Ht Hu Heq)
      as [Hxy Htu].
    apply FormatInt_inj in Hxy. subst y. f_equal.
    destruct a as [| x' a]; destruct b as [| y' b].
    + reflexivity.
    + rewrite (Hnil eq_refl), (Hcons' ltac:(discriminate)) in Htu. discriminate.
    + rewrite (Hnil' eq_refl), (Hcons ltac:(discriminate)) in Htu. discriminate.
    + rewrite (Hcons ltac:(discriminate)), (Hcons' ltac:(discriminate)) in Htu.
      injection Htu as Htu. apply IH. exact Htu.
Qed.

End Keys.
End key_props.

(** ** [internal/inspect]: candidates and the draft configuration *)

Module inspect.
Section Inspect.
Context `{GoEnv}.

(** [strings.Contains]. *)
Fixpoint Contains (s substr : string) : bool :=
  String.prefix substr s
  || match s with
     | EmptyString => false
     | String _ s' => Contains s' substr
     end.

(** [strings.HasSuffix]. *)
Fixpoint HasSuffix (s suffix : string) : bool :=
  String.eqb s suffix
  || match s with
     | EmptyString => false
     | String _ s' => HasSuffix s' suffix
     end.

Definition piiCandidates (tbl : schema.Table) : list string :=
  map schema.ColName
      (List.filter
         (fun c =>
            let name := ToLower (schema.ColName c) in
            Contains name "email" || Contains name "name" || Contains name "phone"
            || Contains name "ssn" || Contains name "address" || Contains name "street")
         (schema.Columns tbl)).

(** [&config.TransformConfig{Type: ty, ..}] with the other fields zero. *)
Definition transform_config (ty : string) (params : option (gmap string config.ParamValue))
    (value : Value) (maxLen : Z) : config.TransformConfig :=
  {| config.Type_ := ty; config.Params := params; config.Value_ := value;
     config.Pattern := EmptyString; config.Replace := EmptyString;
     config.Locale := EmptyString; config.MaxLen := maxLen; config.Map := ∅;
     config.LookupTable := EmptyString; config.LookupKey := EmptyString;
     config.LookupValue := EmptyString |}.

Definition max_days (n : Z) : option (gmap string config.ParamValue) :=
  Some {[ "max_days"%string := config.PInt n ]}.

Definition suggestTransformer (name : string) : option config.TransformConfig :=
  let n := ToLower name in
  if Contains n "email" then Some (transform_config "HmacSha256" None VNull 24)
  else if Contains n "name" then Some (transform_config "FakerName" None VNull 0)
  else if Contains n "phone" then Some (transform_config "FakerPhone" None VNull 0)
  else if Contains n "ssn" then Some (transform_config "SetNull" None VNull 0)
  else if Contains n "password" || Contains n "passwd" || Contains n "pwd"
  then Some (transform_config "SetValue" None (VText "redacted") 0)
  else if Contains n "birth" || Contains n "birthday" || Contains n "dob"
  then Some (transform_config "DateShift" (max_days 60) VNull 0)
  else if Contains n "createdat" || Contains n "updatedat" || Contains n "modifiedat"
          || Contains n "created_at" || Contains n "updated_at" || Contains n "modified_at"
          || Contains n "date" || HasSuffix n "_at" || Contains n "timestamp"
  then Some (transform_config "DateShift" (max_days 30) VNull 0)
  else if Contains n "address" || Contains n "street"
  then Some (transform_config "FakerAddress" None VNull 0)
  else None.

End Inspect.
End inspect.

Module inspect_props.
Import inspect.
Section Props.
Context `{GoEnv}.

(** The transformers the draft configuration can name. *)
Definition suggested (t : transform.Transformer) : Prop :=
  (exists salt, t = transform.HmacSha256 salt 24) \/ t = transform.FakerName \/
  t = transform.FakerPhone \/ t = transform.SetNull \/
  t = transform.SetValue (VText "redacted") \/
  t = transform.DateShift 60 \/ t = transform.DateShift 30 \/ t = transform.FakerAddress.

(** Every suggestion of the draft configuration is a configuration the
    factory accepts: with no plugin registered under the suggested type,
    [Build] returns a built-in transformer for it, and so does
    [buildTransformerForColumn] of the copy, as a suggestion names no
    lookup table. A date shift is suggested with a bound of 30 or 60
    days. *)
Theorem suggestTransformer_builds (registry : gmap string transform.Factory)
    (db : Database) (name salt : string) (tc : config.TransformConfig) :
  suggestTransformer name = Some tc ->
  registry !! ToLower (config.Type_ tc) = None ->
  exists t,
    transform.Build registry (Some tc) salt = Ok (Some t) /\
    copy.buildTransformerForColumn registry db tc salt = Ok (Some t) /\
    transform.builtin t = true /\ suggested t.
Proof.
  unfold suggestTransformer. cbv zeta. intros Hs Hreg.
  assert (Hbuild : forall ty params value maxLen t,
            tc = transform_config ty params value maxLen ->
            (forall (r : gmap string transform.Factory),
                r !! ToLower ty = None ->
                transform.Build r (Some (transform_config ty params value maxLen)) salt
                = Ok (Some t)) ->
            transform.builtin t = true -> suggested t ->
            exists t,
              transform.Build registry (Some tc) salt = Ok (Some t) /\
              copy.buildTransformerForColumn registry db tc salt = Ok (Some t) /\
              transform.builtin t = true /\ suggested t).
  { intros ty params value maxLen t -> Hb Hbi Hsg. exists t.
    assert (Hok : transform.Build registry (Some (transform_config ty params value maxLen)) salt
                  = Ok (Some t)) by (apply Hb; exact Hreg).
    split; [exact Hok |]. split; [| auto].
    unfold copy.buildTransformerForColumn. cbn [transform_config config.LookupTable String.eqb].
    exact Hok. }
  assert (Hrun : forall ty params value maxLen t,
            (transform.Build ∅ (Some (transform_config ty params value maxLen)) salt
             = Ok (Some t)) ->
            forall (r : gmap string transform.Factory),
              r !! ToLower ty = None ->
              transform.Build r (Some (transform_config ty params value maxLen)) salt
              = Ok (Some t)).
  { intros ty params value maxLen t Hempty r Hr. unfold transform.Build, transform.Factory in *.
    cbv zeta in *. cbn [transform_config config.Type_] in *. rewrite Hr.
    rewrite lookup_empty in Hempty. exact Hempty. }
  repeat match type of Hs with
         | (if ?b then _ else _) = _ => destruct b
         end;
    try discriminate; injection Hs as <-.
  - eapply Hbuild; [reflexivity | apply Hrun; reflexivity | reflexivity |]. left. eauto.
  - eapply Hbuild; [reflexivity | apply Hrun; reflexivity | reflexivity |].
    right. left. reflexivity.
  - eapply Hbuild; [reflexivity | apply Hrun; reflexivity | reflexivity |].
    right. right. left. reflexivity.
  - eapply Hbuild; [reflexivity | apply Hrun; reflexivity | reflexivity |].
    right. right. right. left. reflexivity.
  - eapply Hbuild; [reflexivity | apply Hrun; reflexivity | reflexivity |].
    right. right. right. right. left. reflexivity.
  - eapply Hbuild; [reflexivity | apply Hrun; reflexivity | reflexivity |].
    right. right. right. right. right. left. reflexivity.
  - eapply Hbuild; [reflexivity | apply Hrun; reflexivity | reflexivity |].
    right. right. right. right. right. right. left. reflexivity.
  - eapply Hbuild; [reflexivity | apply Hrun; reflexivity | reflexivity |].
    right. right. right. right. right. right. right. reflexivity.
Qed.

(** Every column that [piiCandidates] reports gets a suggestion in the
    draft configuration. *)
Theorem piiCandidates_suggested (tbl : schema.Table) (c : string) :
  c ∈ piiCandidates tbl -> is_Some (suggestTransformer c).
Proof.
  unfold piiCandidates. intros Hc.
  apply list_elem_of_fmap in Hc as (col & -> & Hcol).
  apply list_elem_of_In, filter_In in Hcol as [_ Hpii]. cbv zeta in Hpii.
  unfold suggestTransformer. cbv zeta.
  set (n := ToLower (schema.ColName col)) in *.
  destruct (Contains n "email"); [eauto |].
  destruct (Contains n "name"); [eauto |].
  destruct (Contains n "phone"); [eauto |].
  destruct (Contains n "ssn"); [eauto |].
  destruct (Contains n "password" || Contains n "passwd" || Contains n "pwd"); [eauto |].
  destruct (Contains n "birth" || Contains n "birthday" || Contains n "dob"); [eauto |].
  destruct (Contains n "createdat" || Contains n "updatedat" || Contains n "modifiedat"
            || Contains n "created_at" || Contains n "updated_at" || Contains n "modified_at"
            || Contains n "date" || HasSuffix n "_at" || Contains n "timestamp"); [eauto |].
  cbn [orb] in Hpii. rewrite Hpii. eauto.
Qed.

End Props.
End inspect_props.

Module inspect_tests.
#[local] Existing Instance testEnv.
#[local] Existing Instance testSql.

Lemma suggestTransformer_builds_witness :
  inspect.suggestTransformer "Email"
  = Some (inspect.transform_config "HmacSha256" None VNull 24) /\
  exists t,
    transform.Build ∅ (Some (inspect.transform_config "HmacSha256" None VNull 24)) "salt"
    = Ok (Some t) /\
    copy.buildTransformerForColumn ∅ copy_tests.atlas_db
      (inspect.transform_config "HmacSha256" None VNull 24) "salt" = Ok (Some t) /\
    transform.builtin t = true /\ inspect_props.suggested t.
Proof.
  assert (Hs : inspect.suggestTransformer "Email"
               = Some (inspect.transform_config "HmacSha256" None VNull 24))
    by reflexivity.
  split; [exact Hs |].
  apply (inspect_props.suggestTransformer_builds ∅ copy_tests.atlas_db
           "Email" "salt" _ Hs).
  apply lookup_empty.
Defined.

(** A table with a candidate column, [full_name], and one that is not,
    [id]. *)
Definition people : schema.Table :=
  {| schema.Name := "people";
     schema.SQL := "CREATE TABLE people (id INTEGER PRIMARY KEY, full_name TEXT)";
     schema.Columns := [ {| schema.ColName := "id"; schema.ColType := "INTEGER";
                            schema.NotNull := false; schema.DefaultSQL := None;
                            schema.PK := true |};
                         {| schema.ColName := "full_name"; schema.ColType := "TEXT";
                            schema.NotNull := false; schema.DefaultSQL := None;
                            schema.PK := false |} ];
     schema.PrimaryKeys := ["id"%string];
     schema.ForeignKeys := [];
     schema.WithoutRowID := false |}.

Lemma piiCandidates_suggested_witness :
  "full_name"%string ∈ inspect.piiCandidates people /\
  is_Some (inspect.suggestTransformer "full_name").
Proof.
  assert (Hc : "full_name"%string ∈ inspect.piiCandidates people)
    by (apply list_elem_of_In; vm_compute; tauto).
  split; [exact Hc |].
  exact (inspect_props.piiCandidates_suggested people "full_name" Hc).
Defined.

End inspect_tests.
